(** * uxsdcxx: content-model groups to minimal DFAs ([dfa.py])

    A shallow embedding of [dfa_from_group] and of the closures it defines
    ([_new_state], [_add_transition], [_patch], [_nfa_from_element],
    [_nfa_from_sequence], [_nfa_from_choice], [_nfa_from_all],
    [_nfa_from_node]), followed by the properties of the construction. *)

From stdpp Require Import gmap strings pretty list fin_maps fin_sets.

Set Default Proof Using "Type".
Open Scope string_scope.
Open Scope list_scope.
Open Scope nat_scope.

(** ** Exceptions and the error monad *)

(** The two [NotImplementedError]s of [_nfa_from_node] differ by their message
    only; [unsupported] records which of the two raise statements fired. *)
Inductive unsupported :=
  | ModelGroup   (* "I don't know what to do with model group node %s." *)
  | OccursPair.  (* "(min_occurs, max_occurs) pair %s is not supported" *)

Inductive exn :=
  | NotImplementedError (what : unsupported)
  | IndexError           (* [t._group[0]] on an empty child list *)
  | KeyError.            (* dict subscript / [set.remove] on a missing key *)

Inductive result (A : Type) :=
  | Ok (a : A)
  | Raise (e : exn).
Arguments Ok {A} a.
Arguments Raise {A} e.

Definition rbind {A B} (m : result A) (k : A → result B) : result B :=
  match m with
  | Ok a => k a
  | Raise e => Raise e
  end.

Global Instance result_bind : MBind result := λ A B k m, rbind m k.
Global Instance result_ret : MRet result := @Ok.

Definition is_ok {A} (m : result A) : bool :=
  match m with Ok _ => true | Raise _ => false end.

Global Instance unsupported_eq_dec : EqDecision unsupported.
Proof. solve_decision. Defined.
Global Instance exn_eq_dec : EqDecision exn.
Proof. solve_decision. Defined.

(** ** The content-model tree *)

(** [t.occurs] is the two-element list [[min_occurs, max_occurs]], where
    [max_occurs] is [None] for "unbounded". *)
Definition occurs_t : Type := nat * option nat.

(** [XsdElement] carries [name] and [occurs]; [XsdGroup] carries [model]
    (a string), [occurs] and the child list [_group]. *)
Unset Elimination Schemes.
Inductive Node :=
  | XsdElement (name : string) (occurs : occurs_t)
  | XsdGroup (model : string) (occurs : occurs_t) (_group : list Node).
Set Elimination Schemes.

Definition occurs (t : Node) : occurs_t :=
  match t with
  | XsdElement _ o => o
  | XsdGroup _ o _ => o
  end.

(** ** The builder's shared state

    The three collections closed over by the nested functions of
    [dfa_from_group].  A transition target is [Some q] or the pending marker
    [None]. *)
Record builder_state := BuilderState {
  _nfa_states : gset string;
  _nfa_state_transitions : gmap string (gmap string (gset (option string)));
  _elements : gmap string Node
}.

Definition initial_builder_state : builder_state :=
  BuilderState ∅ ∅ ∅.

(** The epsilon symbol is the empty string. *)
Definition eps : string := EmptyString.

(** [x = "q%d" % len(_nfa_states); _nfa_states.add(x); return x] *)
Definition state_name (n : nat) : string := "q" +:+ pretty n.

Definition _new_state (st : builder_state) : string * builder_state :=
  let x := state_name (size (_nfa_states st)) in
  (x, BuilderState ({[x]} ∪ _nfa_states st)
                   (_nfa_state_transitions st) (_elements st)).

(** [_nfa_states.remove(x); _nfa_state_transitions.pop(x)]: both raise
    [KeyError] on a missing key.  Never called by the build. *)
Definition _remove_state (x : string) (st : builder_state) : result builder_state :=
  if decide (x ∈ _nfa_states st) then
    match _nfa_state_transitions st !! x with
    | Some _ =>
        Ok (BuilderState (_nfa_states st ∖ {[x]})
                         (delete x (_nfa_state_transitions st)) (_elements st))
    | None => Raise KeyError
    end
  else Raise KeyError.


Definition add_edge (state input : string) (next : option string)
    (tbl : gmap string (gmap string (gset (option string))))
  : gmap string (gmap string (gset (option string))) :=
  match tbl !! state with
  | None => <[state := {[input := {[next]}]}]> tbl
  | Some d =>
      match d !! input with
      | None => <[state := <[input := {[next]}]> d]> tbl
      | Some s => <[state := <[input := s ∪ {[next]}]> d]> tbl
      end
  end.

Definition _add_transition (state input : string) (next : option string)
    (st : builder_state) : builder_state :=
  BuilderState (_nfa_states st)
               (add_edge state input next (_nfa_state_transitions st))
               (_elements st).

(** [_elements[name] = t] *)
Definition register_element (name : string) (t : Node) (st : builder_state)
  : builder_state :=
  BuilderState (_nfa_states st) (_nfa_state_transitions st)
               (<[name := t]> (_elements st)).

(** [_nfa_state_transitions[state] = {}] *)
Definition clear_row (state : string) (st : builder_state) : builder_state :=
  BuilderState (_nfa_states st) (<[state := ∅]> (_nfa_state_transitions st))
               (_elements st).

(** [{next if x is None else x for x in v}] *)
Definition resolve (next : string) (x : option string) : option string :=
  match x with
  | None => Some next
  | Some y => Some y
  end.

Definition patch_row (next : string) (d : gmap string (gset (option string)))
  : gmap string (gset (option string)) :=
  (λ v : gset (option string), set_map (resolve next) v) <$> d.

(** [_patch(state, next)]: the subscript [_nfa_state_transitions[state]]
    raises [KeyError] when [state] has no row. *)
Definition _patch (state next : string) (st : builder_state) : result builder_state :=
  match _nfa_state_transitions st !! state with
  | None => Raise KeyError
  | Some d =>
      Ok (BuilderState (_nfa_states st)
                       (<[state := patch_row next d]> (_nfa_state_transitions st))
                       (_elements st))
  end.

(** [for v in vs: _patch(v, next)] *)
Fixpoint patch_each (vs : list string) (next : string) (st : builder_state)
  : result builder_state :=
  match vs with
  | [] => Ok st
  | v :: vs' => st' ← _patch v next st; patch_each vs' next st'
  end.

Definition patch_set (vacant : gset string) (next : string) (st : builder_state)
  : result builder_state :=
  patch_each (elements vacant) next st.

(** ** [itertools.permutations]

    Tuples are emitted in lexicographic order of positions, so the first one
    is the input itself. *)
Fixpoint selections {A} (l : list A) : list (A * list A) :=
  match l with
  | [] => []
  | x :: xs => (x, xs) :: map (λ p, (p.1, x :: p.2)) (selections xs)
  end.

Fixpoint perms_n {A} (n : nat) (l : list A) : list (list A) :=
  match n with
  | 0 => [[]]
  | S n' => flat_map (λ p, map (cons p.1) (perms_n n' p.2)) (selections l)
  end.

Definition permutations {A} (l : list A) : list (list A) :=
  perms_n (length l) l.

(** ** Fragment construction *)

(** A fragment is [(init, vacant)]; every function below also returns the
    updated shared state. *)
Definition fragment : Type := string * gset string.
Definition builder : Type := builder_state → result (fragment * builder_state).

(** [_nfa_from_element] *)
Definition _nfa_from_element (t : Node) (name : string) : builder := λ st,
  let '(x, st) := _new_state st in
  let st := _add_transition x name None st in
  let st := register_element name t st in
  Ok ((x, {[x]}), st).

(** The loop of [_nfa_from_sequence] over [t._group[1:]]. *)
Fixpoint sequence_loop (rest : list builder) (init : string) (vacant : gset string)
    (st : builder_state) : result (fragment * builder_state) :=
  match rest with
  | [] => Ok ((init, vacant), st)
  | e :: rest' =>
      '((init2, vacant2), st) ← e st;
      st ← patch_set vacant init2 st;
      sequence_loop rest' init vacant2 st
  end.

(** [_nfa_from_sequence]; the argument is the child list with
    [_nfa_from_node] already applied to each child. *)
Definition _nfa_from_sequence (group : list builder) : builder := λ st,
  match group with
  | [] => Raise IndexError
  | first :: rest =>
      '((init, vacant), st) ← first st;
      sequence_loop rest init vacant st
  end.

(** The loop of [_nfa_from_choice]. *)
Fixpoint choice_loop (group : list builder) (x : string) (vacants : gset string)
    (st : builder_state) : result (fragment * builder_state) :=
  match group with
  | [] => Ok ((x, vacants), st)
  | e :: rest =>
      '((init, vacant), st) ← e st;
      let st := _add_transition x eps (Some init) st in
      choice_loop rest x (vacants ∪ vacant) st
  end.

Definition _nfa_from_choice (group : list builder) : builder := λ st,
  let '(x, st) := _new_state st in
  choice_loop group x ∅ st.

(** The loop of [_nfa_from_all] over [permutations(t._group)]. *)
Fixpoint all_loop (perms : list (list builder)) (x : string) (vacants : gset string)
    (st : builder_state) : result (fragment * builder_state) :=
  match perms with
  | [] => Ok ((x, vacants), st)
  | p :: rest =>
      '((init, vacant), st) ← _nfa_from_sequence p st;
      let st := _add_transition x eps (Some init) st in
      all_loop rest x (vacants ∪ vacant) st
  end.

Definition _nfa_from_all (group : list builder) : builder := λ st,
  let '(x, st) := _new_state st in
  all_loop (permutations group) x ∅ st.

(** The second half of [_nfa_from_node]: the dispatch on [t.occurs]. *)
Definition apply_occurs (o : occurs_t) (init : string) (vacant : gset string)
    (st : builder_state) : result (fragment * builder_state) :=
  match o with
  | (1, Some 1) => Ok ((init, vacant), st)
  | (0, Some 1) =>
      let st := _add_transition init eps None st in
      Ok ((init, vacant ∪ {[init]}), st)
  | (0, None) =>
      st ← patch_set vacant init st;
      let st := _add_transition init eps None st in
      Ok ((init, {[init]}), st)
  | (1, None) =>
      let '(next, st) := _new_state st in
      st ← patch_set vacant next st;
      let st := _add_transition next eps (Some init) st in
      let st := _add_transition next eps None st in
      Ok ((init, {[next]}), st)
  | _ => Raise (NotImplementedError OccursPair)
  end.

(** The first half of [_nfa_from_node] for a group: the dispatch on
    [t.model]. *)
Definition group_fragment (model : string) (group : list builder) : builder :=
  if decide (model = "sequence") then _nfa_from_sequence group
  else if decide (model = "choice") then _nfa_from_choice group
  else if decide (model = "all") then _nfa_from_all group
  else λ _, Raise (NotImplementedError ModelGroup).

(** [_nfa_from_node].  The recursion goes through [map] so that it is
    structural on the tree; [_nfa_from_sequence] and its siblings receive the
    children as builders. *)
Fixpoint _nfa_from_node (t : Node) : builder := λ st,
  '((init, vacant), st) ←
    match t with
    | XsdElement name _ => _nfa_from_element t name st
    | XsdGroup model _ group => group_fragment model (map _nfa_from_node group) st
    end;
  apply_occurs (occurs t) init vacant st.

(** ** Finalisation and the NFA handed to automata-lib *)

Record NFA := MkNFA {
  nfa_states : gset string;
  nfa_input_symbols : gset string;
  nfa_transitions : gmap string (gmap string (gset (option string)));
  nfa_initial_state : string;
  nfa_final_states : gset string
}.

(** [for v in _nfa_state_transitions.values(): input_symbols |= set(v.keys())] *)
Definition used_symbols (tbl : gmap string (gmap string (gset (option string))))
  : gset string :=
  ⋃ (dom <$> (map_to_list tbl).*2).

(** [input_symbols.remove("")]: [set.remove] raises [KeyError] when the
    element is absent. *)
Definition set_remove (x : string) (s : gset string) : result (gset string) :=
  if decide (x ∈ s) then Ok (s ∖ {[x]}) else Raise KeyError.

(** Lines 131-135: the root fragment, the accepting state, the last patches. *)
Definition finalize (t : Node) : result (string * string * builder_state) :=
  '((init, finals), st) ← _nfa_from_node t initial_builder_state;
  let '(final, st) := _new_state st in
  let st := clear_row final st in
  st ← patch_set finals final st;
  Ok (init, final, st).

(** Lines 131-146. *)
Definition build_nfa (t : Node) : result (NFA * gmap string Node) :=
  '(init, final, st) ← finalize t;
  input_symbols ← set_remove eps (used_symbols (_nfa_state_transitions st));
  Ok (MkNFA (_nfa_states st) input_symbols (_nfa_state_transitions st)
            init {[final]},
      _elements st).

(** ** The automata handled by the two libraries

    [DFA] is automata-lib's ([states], [input_symbols], [transitions],
    [initial_state], [final_states]); [pDFA] is python-automata's, whose
    transition function is a Python callable.  Both are generic in the type of
    state labels; in [dfa.py] the labels are strings and the trap is the one
    labelled ["{}"]. *)
Record DFA (Q : Type) `{Countable Q} := MkDFA {
  dfa_states : list Q;
  dfa_input_symbols : list string;
  dfa_transitions : gmap Q (gmap string Q);
  dfa_initial_state : Q;
  dfa_final_states : list Q
}.
Arguments MkDFA {Q _ _} _ _ _ _ _.
Arguments dfa_states {Q _ _} _.
Arguments dfa_input_symbols {Q _ _} _.
Arguments dfa_transitions {Q _ _} _.
Arguments dfa_initial_state {Q _ _} _.
Arguments dfa_final_states {Q _ _} _.

Record pDFA (Q : Type) := MkPDFA {
  pdfa_states : list Q;
  pdfa_alphabet : list string;
  pdfa_delta : Q → string → result Q;
  pdfa_start : Q;
  pdfa_accepts : list Q
}.
Arguments MkPDFA {Q} _ _ _ _ _.
Arguments pdfa_states {Q} _.
Arguments pdfa_alphabet {Q} _.
Arguments pdfa_delta {Q} _ _ _.
Arguments pdfa_start {Q} _.
Arguments pdfa_accepts {Q} _.

(** The dict returned by [dfa_from_group]. *)
Record automaton := MkAutomaton {
  out_states : gset nat;
  out_start : nat;
  out_accepts : gset nat;
  out_transitions : gmap nat (gmap string nat);
  out_elements : gmap string Node
}.

Section dfa_from_group.
Context {Q : Type} `{Countable Q}.

(** The label of the trap state, ["{}"] in [dfa.py]. *)
Variable trap : Q.

(** [DFA.from_nfa] and [pDFA.minimize] are library code. *)
Variable from_nfa : NFA → result (DFA Q).
Variable minimize : pDFA Q → result (pDFA Q).

(** [lambda q,c: dfa.transitions[q][c]] *)
Definition dfa_delta (dfa : DFA Q) (q : Q) (c : string) : result Q :=
  match dfa_transitions dfa !! q with
  | None => Raise KeyError
  | Some row =>
      match row !! c with
      | None => Raise KeyError
      | Some r => Ok r
      end
  end.

(** Lines 148-152. *)
Definition to_pdfa (dfa : DFA Q) : pDFA Q :=
  MkPDFA (dfa_states dfa) (dfa_input_symbols dfa) (dfa_delta dfa)
         (dfa_initial_state dfa) (dfa_final_states dfa).

(** [state_map = {k: v for v, k in enumerate(pdfa.states)}] *)
Fixpoint enumerate_from (v : nat) (ks : list Q) (m : gmap Q nat) : gmap Q nat :=
  match ks with
  | [] => m
  | k :: ks' => enumerate_from (S v) ks' (<[k := v]> m)
  end.

(** [state_map[x]] *)
Definition subscript (state_map : gmap Q nat) (x : Q) : result nat :=
  match state_map !! x with
  | Some v => Ok v
  | None => Raise KeyError
  end.

(** [{state_map[x] for x in xs if x != "{}"}] *)
Fixpoint ids_of (state_map : gmap Q nat) (xs : list Q) (acc : gset nat)
  : result (gset nat) :=
  match xs with
  | [] => Ok acc
  | x :: xs' =>
      if decide (x = trap) then ids_of state_map xs' acc
      else v ← subscript state_map x; ids_of state_map xs' ({[v]} ∪ acc)
  end.

(** [{k: state_map[pdfa.delta(q, k)] for k in pdfa.alphabet
      if pdfa.delta(q, k) != "{}"}] *)
Fixpoint row_of (state_map : gmap Q nat) (delta : Q → string → result Q) (q : Q)
    (ks : list string) (acc : gmap string nat) : result (gmap string nat) :=
  match ks with
  | [] => Ok acc
  | k :: ks' =>
      r ← delta q k;
      if decide (r = trap) then row_of state_map delta q ks' acc
      else
        r' ← delta q k;
        v ← subscript state_map r';
        row_of state_map delta q ks' (<[k := v]> acc)
  end.

(** [{state_map[q]: {...} for q in pdfa.states if q != "{}"}] *)
Fixpoint table_of (state_map : gmap Q nat) (delta : Q → string → result Q)
    (alphabet : list string) (qs : list Q) (acc : gmap nat (gmap string nat))
  : result (gmap nat (gmap string nat)) :=
  match qs with
  | [] => Ok acc
  | q :: qs' =>
      if decide (q = trap) then table_of state_map delta alphabet qs' acc
      else
        v ← subscript state_map q;
        row ← row_of state_map delta q alphabet ∅;
        table_of state_map delta alphabet qs' (<[v := row]> acc)
  end.

(** Lines 158-164. *)
Definition canonical (pdfa : pDFA Q) (elements : gmap string Node)
  : result automaton :=
  let state_map := enumerate_from 0 (pdfa_states pdfa) ∅ in
  states ← ids_of state_map (pdfa_states pdfa) ∅;
  start ← subscript state_map (pdfa_start pdfa);
  accepts ← ids_of state_map (pdfa_accepts pdfa) ∅;
  transitions ← table_of state_map (pdfa_delta pdfa) (pdfa_alphabet pdfa)
                         (pdfa_states pdfa) ∅;
  Ok (MkAutomaton states start accepts transitions elements).

(** Lines 142-153: the minimized [pDFA]. *)
Definition minimal_pdfa (nfa : NFA) : result (pDFA Q) :=
  dfa ← from_nfa nfa;
  minimize (to_pdfa dfa).

Definition dfa_from_group (t : Node) : result automaton :=
  '(nfa, elements) ← build_nfa t;
  pdfa ← minimal_pdfa nfa;
  canonical pdfa elements.
End dfa_from_group.

(** * The two libraries

    [DFA.from_nfa] (automata-lib) and [pDFA.minimize] ([third_party/DFA.py])
    are not among the sources.  This part models them, and what it means for
    an automaton to accept a word, from sections 4.2 and 4.3 of the
    specification. *)

(** ** The NFA as an acceptor: epsilon-closure simulation *)

(** Modelled from the spec: the NFA transition relation of section 3, read
    off the table [dfa.py] builds: the concrete targets of [s] on [a]; a state
    without a row, or a row without the symbol, has none. *)
Definition nfa_targets (nfa : NFA) (s a : string) : gset string :=
  match nfa_transitions nfa !! s with
  | None => ∅
  | Some row =>
      match row !! a with
      | None => ∅
      | Some ts => set_omap id ts
      end
  end.

(** Modelled from the spec: the union over [s] in [S] of
    [nfa_transition(s, a)] (section 4.2). *)
Definition nfa_move (nfa : NFA) (S : gset string) (a : string) : gset string :=
  set_bind (λ s, nfa_targets nfa s a) S.

(** Modelled from the spec: every state that is the target of some
    transition; it bounds the work of [epsilon_closure]. *)
Definition nfa_all_targets (nfa : NFA) : gset string :=
  ⋃ ((λ row : gmap string (gset (option string)),
        ⋃ ((λ ts : gset (option string), set_omap id ts : gset string)
             <$> (map_to_list row).*2))
       <$> (map_to_list (nfa_transitions nfa)).*2).

(** Modelled from the spec: the loop of [epsilon_closure] (section 4.2,
    automata-lib is not part of the sources): add the epsilon successors
    until nothing new appears. *)
Fixpoint closure_loop (fuel : nat) (nfa : NFA) (S : gset string) : gset string :=
  match fuel with
  | 0 => S
  | S fuel' =>
      let S' := S ∪ nfa_move nfa S eps in
      if decide (S' = S) then S else closure_loop fuel' nfa S'
  end.

(** Modelled from the spec: [epsilon_closure(S)] of section 4.2, the smallest
    superset of [S] closed under epsilon transitions.  Each productive round
    adds a transition target, so as many rounds as there are targets
    suffice. *)
Definition epsilon_closure (nfa : NFA) (S : gset string) : gset string :=
  closure_loop (size (nfa_all_targets nfa)) nfa S.

(** Modelled from the spec: the simulation reads one symbol by moving and
    closing; a symbol outside the alphabet is rejected. *)
Definition nfa_read (nfa : NFA) (S : gset string) (a : string) : gset string :=
  if decide (a ∈ nfa_input_symbols nfa)
  then epsilon_closure nfa (nfa_move nfa S a)
  else ∅.

(** Modelled from the spec: the set of states the NFA can be in after the
    word [w], from the set [S]. *)
Definition nfa_run (nfa : NFA) (S : gset string) (w : list string) : gset string :=
  foldl (nfa_read nfa) S w.

(** Modelled from the spec: the simulation starts from
    [epsilon_closure({nfa.start})]. *)
Definition nfa_start (nfa : NFA) : gset string :=
  epsilon_closure nfa {[nfa_initial_state nfa]}.

(** Modelled from the spec: acceptance by the NFA "via epsilon-closure
    simulation" (section 8): some accepting state is among the states reached. *)
Definition nfa_accepts (nfa : NFA) (w : list string) : Prop :=
  ∃ f, f ∈ nfa_final_states nfa ∧ f ∈ nfa_run nfa (nfa_start nfa) w.

(** ** The pDFA as an acceptor *)

(** Modelled from the spec: the run of a DFA on a word, by its transition
    function; an exception of the callable ends the run. *)
Fixpoint pdfa_run {Q} (pdfa : pDFA Q) (q : Q) (w : list string) : result Q :=
  match w with
  | [] => Ok q
  | a :: w' => q' ← pdfa_delta pdfa q a; pdfa_run pdfa q' w'
  end.

(** Modelled from the spec: acceptance by a DFA: the run from the start state
    ends in an accepting state. *)
Definition pdfa_accepts_word {Q} (pdfa : pDFA Q) (w : list string) : Prop :=
  ∃ q, pdfa_run pdfa (pdfa_start pdfa) w = Ok q ∧ q ∈ pdfa_accepts pdfa.

(** ** Bounded iteration *)

(** Modelled from the spec: "continue until no new DFA states appear"
    (section 4.2) as a loop: [iterate step n a] runs [step] from [a] until it
    answers [inr], at most [2 ^ n] times. *)
Fixpoint iterate {A B} (step : A → A + B) (n : nat) (a : A) : A + B :=
  match n with
  | 0 => step a
  | S n' =>
      match iterate step n' a with
      | inl a' => iterate step n' a'
      | inr b => inr b
      end
  end.

(** ** Subset construction *)

(** Modelled from the spec: the work state of the breadth-first exploration
    of section 4.2: the DFA states already expanded, the queue of discovered
    ones, the transition table so far. *)
Record exploration := MkExploration {
  ex_done : list (gset string);
  ex_todo : list (gset string);
  ex_table : gmap (gset string) (gmap string (gset string))
}.

(** Modelled from the spec: "newly discovered sets" (section 4.2): the
    members of [ys] not seen before, in order of first appearance; set
    identity decides equality. *)
Fixpoint discover (seen ys : list (gset string)) : list (gset string) :=
  match ys with
  | [] => []
  | y :: ys' =>
      if decide (y ∈ seen) then discover seen ys'
      else y :: discover (seen ++ [y]) ys'
  end.

(** Modelled from the spec: the successor set of section 4.2,
    [epsilon_closure] of the union of the members' targets. *)
Definition dfa_successor (nfa : NFA) (X : gset string) (a : string) : gset string :=
  epsilon_closure nfa (nfa_move nfa X a).

(** Modelled from the spec: the successors of a discovered state, one per
    alphabet symbol. *)
Definition dfa_row (nfa : NFA) (X : gset string) : list (string * gset string) :=
  (λ a, (a, dfa_successor nfa X a)) <$> elements (nfa_input_symbols nfa).

(** Modelled from the spec: one step of the exploration: expand the first
    state of the queue and enqueue the successors that are new. *)
Definition explore_step (nfa : NFA) (e : exploration)
  : exploration + (list (gset string) * gmap (gset string) (gmap string (gset string))) :=
  match ex_todo e with
  | [] => inr (ex_done e, ex_table e)
  | X :: todo =>
      let row := dfa_row nfa X in
      let new := discover (ex_done e ++ ex_todo e) row.*2 in
      inl (MkExploration (ex_done e ++ [X]) (todo ++ new)
                         (<[X := list_to_map row]> (ex_table e)))
  end.

(** Modelled from the spec: the NFA states a DFA state can be made of; there
    are at most [2 ^ size] DFA states. *)
Definition nfa_universe (nfa : NFA) : gset string :=
  {[nfa_initial_state nfa]} ∪ nfa_all_targets nfa.

(** Modelled from the spec: the exploration of section 4.2 from the start
    state, until the queue is empty. *)
Definition explore (nfa : NFA)
  : list (gset string) * gmap (gset string) (gmap string (gset string)) :=
  let e0 := MkExploration [] [nfa_start nfa] ∅ in
  match iterate (explore_step nfa) (S (size (nfa_universe nfa))) e0 with
  | inr r => r
  | inl e => (ex_done e ++ ex_todo e, ex_table e)
  end.

(** Modelled from the spec: [DFA.from_nfa] of automata-lib, which is not part
    of the sources, after section 4.2: the start state is the epsilon closure
    of the NFA's initial state; the successor of a discovered set on a symbol
    is the epsilon closure of the union of its members' targets; discovery is
    breadth-first; a set is accepting iff it contains the NFA's accepting
    state.  As lines 150 and 155-163 of [dfa.py] require, the table is total
    and the trap is the ordinary state labelled by the empty set, discovered
    like any other. *)
Definition DFA_from_nfa (nfa : NFA) : result (DFA (gset string)) :=
  let '(states, table) := explore nfa in
  Ok (MkDFA states (elements (nfa_input_symbols nfa)) table (nfa_start nfa)
            (filter (λ X, nfa_final_states nfa ∩ X ≠ ∅) states)).

(** ** Minimization by partition refinement *)

Section minimize.
Context {Q : Type} `{Countable Q}.

(** Modelled from the spec: the transitions of one state, read from the
    callable [delta] into a table. *)
Fixpoint tabulate_row (delta : Q → string → result Q) (q : Q) (ks : list string)
    (acc : gmap (Q * string) Q) : result (gmap (Q * string) Q) :=
  match ks with
  | [] => Ok acc
  | k :: ks' =>
      r ← delta q k;
      tabulate_row delta q ks' (<[(q, k) := r]> acc)
  end.

(** Modelled from the spec: the transition function of the input DFA over
    [states] x [alphabet], as a table. *)
Fixpoint tabulate (delta : Q → string → result Q) (alphabet : list string)
    (qs : list Q) (acc : gmap (Q * string) Q) : result (gmap (Q * string) Q) :=
  match qs with
  | [] => Ok acc
  | q :: qs' =>
      acc' ← tabulate_row delta q alphabet acc;
      tabulate delta alphabet qs' acc'
  end.

(** Modelled from the spec: "which block their successor belongs to"
    (section 4.3): the position of the block a state belongs to. *)
Definition block_index (P : list (list Q)) (q : Q) : option nat :=
  fst <$> list_find (λ B, q ∈ B) P.

(** Modelled from the spec: for each symbol, the block of the successor. *)
Definition signature (tab : gmap (Q * string) Q) (alphabet : list string)
    (P : list (list Q)) (q : Q) : list (option nat) :=
  (λ a, tab !! (q, a) ≫= block_index P) <$> alphabet.

(** Modelled from the spec: put [q] in the group of its key, opening a new
    group at the end when there is none. *)
Fixpoint place (key : list (option nat)) (q : Q)
    (groups : list (list (option nat) * list Q))
  : list (list (option nat) * list Q) :=
  match groups with
  | [] => [(key, [q])]
  | g :: rest =>
      if decide (g.1 = key) then (g.1, g.2 ++ [q]) :: rest
      else g :: place key q rest
  end.

(** Modelled from the spec: "split any block for which two members disagree
    on which block their successor belongs to" (section 4.3): the groups of
    members that agree for every symbol. *)
Definition split_block (sig : Q → list (option nat)) (B : list Q) : list (list Q) :=
  (foldl (λ groups q, place (sig q) q groups) [] B).*2.

(** Modelled from the spec: one refinement pass over all blocks. *)
Definition refine (tab : gmap (Q * string) Q) (alphabet : list string)
    (P : list (list Q)) : list (list Q) :=
  P ≫= split_block (signature tab alphabet P).

(** Modelled from the spec: refine "until no block can be split further";
    a pass that leaves the number of blocks unchanged ends the loop. *)
Fixpoint refine_loop (fuel : nat) (tab : gmap (Q * string) Q)
    (alphabet : list string) (P : list (list Q)) : list (list Q) :=
  match fuel with
  | 0 => P
  | S fuel' =>
      let P' := refine tab alphabet P in
      if decide (length P' = length P) then P
      else refine_loop fuel' tab alphabet P'
  end.

(** Modelled from the spec: the initial partition of section 4.3,
    accepting and non-accepting states. *)
Definition initial_partition (states accepts : list Q) : list (list Q) :=
  filter (λ B, B ≠ []) [filter (λ q, q ∈ accepts) states;
                         filter (λ q, q ∉ accepts) states].

(** Modelled from the spec: the representative of a state, the first state
    of its block in the order of [states]. *)
Definition representative (states : list Q) (P : list (list Q)) (q : Q)
  : option Q :=
  match block_index P q with
  | None => None
  | Some i => snd <$> list_find (λ s, block_index P s = Some i) states
  end.

(** Modelled from the spec: "all incoming/outgoing transitions retarget to
    the representative": the transition function of the merged automaton,
    defined on representatives and alphabet symbols only, like a dict. *)
Definition merged_delta (states : list Q) (alphabet : list string)
    (tab : gmap (Q * string) Q) (P : list (list Q)) (q : Q) (a : string)
  : result Q :=
  if decide (representative states P q = Some q) then
    match tab !! (q, a) ≫= representative states P with
    | Some r => Ok r
    | None => Raise KeyError
    end
  else Raise KeyError.

(** Modelled from the spec: "merge each final block into one representative
    state"; the representatives keep the order of the input states. *)
Definition merge_blocks (states : list Q) (alphabet : list string)
    (tab : gmap (Q * string) Q) (P : list (list Q)) (start : Q)
    (accepts : list Q) : pDFA Q :=
  let reps := filter (λ q, representative states P q = Some q) states in
  MkPDFA reps alphabet (merged_delta states alphabet tab P) start
         (filter (λ q, q ∈ accepts) reps).

(** Modelled from the spec: [pDFA.minimize] of [third_party/DFA.py], which
    is not part of the sources, after section 4.3: start from the blocks of
    accepting and non-accepting states, split every block whose members
    disagree on the block of a successor until a pass splits nothing, then
    merge each block into one representative. *)
Definition pDFA_minimize (pdfa : pDFA Q) : result (pDFA Q) :=
  let states := pdfa_states pdfa in
  let alphabet := pdfa_alphabet pdfa in
  tab ← tabulate (pdfa_delta pdfa) alphabet states ∅;
  let P := refine_loop (length states) tab alphabet
                       (initial_partition states (pdfa_accepts pdfa)) in
  match representative states P (pdfa_start pdfa) with
  | None => Raise KeyError
  | Some start =>
      Ok (merge_blocks states alphabet tab P start (pdfa_accepts pdfa))
  end.
End minimize.

(** ** [dfa_from_group] with the libraries as modelled *)

(** Modelled from the spec: [dfa_from_group] of [dfa.py] run with the two
    libraries above.  State labels are the sets of NFA states themselves, the
    trap label ["{}"] being the empty set. *)
Definition dfa_from_group_model (t : Node) : result automaton :=
  dfa_from_group (∅ : gset string) DFA_from_nfa pDFA_minimize t.

(** * Vocabulary of the properties *)

(** [s --a--> n] is recorded in the table ([n] may be the pending marker). *)
Definition has_edge (tbl : gmap string (gmap string (gset (option string))))
    (s a : string) (n : option string) : Prop :=
  ∃ row ts, tbl !! s = Some row ∧ row !! a = Some ts ∧ n ∈ ts.

(** [s] holds a transition whose target is still pending. *)
Definition pending (tbl : gmap string (gmap string (gset (option string))))
    (s : string) : Prop :=
  ∃ a, has_edge tbl s a None.

(** The state set is [{q0, ..., q(n-1)}] for [n] its size. *)
Definition dense (st : builder_state) : Prop :=
  ∀ s, s ∈ _nfa_states st ↔ ∃ i, i < size (_nfa_states st) ∧ s = state_name i.

(** The states the shared collections go through during a build: the empty
    collections, changed by the operations the build performs, indexed by the
    number of calls to [_new_state] so far.  [_remove_state] is not among the
    operations. *)
Inductive allocated : nat → builder_state → Prop :=
  | alloc_initial : allocated 0 initial_builder_state
  | alloc_new_state n st : allocated n st → allocated (S n) (_new_state st).2
  | alloc_add_transition n st s a next :
      allocated n st → allocated n (_add_transition s a next st)
  | alloc_patch n st s next st' :
      allocated n st → _patch s next st = Ok st' → allocated n st'
  | alloc_register n st name t :
      allocated n st → allocated n (register_element name t st)
  | alloc_clear_row n st s : allocated n st → allocated n (clear_row s st).

Definition build_state (st : builder_state) : Prop := ∃ n, allocated n st.

(** The first half of [_nfa_from_node]: the fragment before the dispatch on
    [t.occurs]. *)
Definition base_fragment (t : Node) : builder :=
  match t with
  | XsdElement name _ => _nfa_from_element t name
  | XsdGroup model _ group => group_fragment model (map _nfa_from_node group)
  end.

(** The four occurrence pairs [_nfa_from_node] handles. *)
Definition occurs_supported (o : occurs_t) : bool :=
  match o with
  | (1, Some 1) | (0, Some 1) | (0, None) | (1, None) => true
  | _ => false
  end.

Definition occurs_error (o : occurs_t) : option exn :=
  if occurs_supported o then None else Some (NotImplementedError OccursPair).

(** The first [Some] of a list of options. *)
Fixpoint first_some {A} (l : list (option A)) : option A :=
  match l with
  | [] => None
  | Some a :: _ => Some a
  | None :: l' => first_some l'
  end.

(** The exception a depth-first walk of the tree meets first, if any: what
    [_nfa_from_node] raises, whatever the shared state. *)
Fixpoint first_error (t : Node) : option exn :=
  match t with
  | XsdElement _ o => occurs_error o
  | XsdGroup model o group =>
      let below := first_some (map first_error group) in
      let after e := match e with Some x => Some x | None => occurs_error o end in
      if decide (model = "sequence") then
        match group with [] => Some IndexError | _ => after below end
      else if decide (model = "choice") then after below
      else if decide (model = "all") then
        match group with [] => Some IndexError | _ => after below end
      else Some (NotImplementedError ModelGroup)
  end.

(** What a group raises by its shape, its children and its occurrence pair
    aside: [IndexError] for a sequence or "all" group without children (the
    subscript [t._group[0]]), the first [NotImplementedError] for a model that
    is none of the three. *)
Definition shape_error (t : Node) : option exn :=
  match t with
  | XsdElement _ _ => None
  | XsdGroup model _ group =>
      if decide (model = "sequence") then
        match group with [] => Some IndexError | _ => None end
      else if decide (model = "choice") then None
      else if decide (model = "all") then
        match group with [] => Some IndexError | _ => None end
      else Some (NotImplementedError ModelGroup)
  end.

(** What a node raises when its children raise nothing: the error of its
    shape, and otherwise the error of its occurrence pair. *)
Definition node_error (t : Node) : option exn :=
  match shape_error t with
  | Some e => Some e
  | None => occurs_error (occurs t)
  end.

(** All nodes of a tree, the root first. *)
Fixpoint nodes (t : Node) : list Node :=
  t :: match t with
       | XsdElement _ _ => []
       | XsdGroup _ _ group => concat (map nodes group)
       end.

Fixpoint height (t : Node) : nat :=
  match t with
  | XsdElement _ _ => 0
  | XsdGroup _ _ group => S (foldr Nat.max 0 (map height group))
  end.

(** The run of the loop of [_nfa_from_all]: the fragments built, one per
    permutation, each joined to [x] before the next one is built. *)
Inductive all_trace (x : string)
  : list (list builder) → builder_state → list fragment → builder_state → Prop :=
  | all_trace_nil st : all_trace x [] st [] st
  | all_trace_cons p ps st init vacant st1 frs st2 :
      _nfa_from_sequence p st = Ok ((init, vacant), st1) →
      all_trace x ps (_add_transition x eps (Some init) st1) frs st2 →
      all_trace x (p :: ps) st ((init, vacant) :: frs) st2.

(** * The tree as a mutable object

    [_nfa_from_all] assigns [t._group] (lines 88 and 92), so a call can
    change the tree it is given.  The functions below follow the same code
    with the tree as a value that every call hands back: a call returns the
    node as it leaves it, together with what it returned or raised.  Python
    keeps the mutations made before an exception, so a raising call hands the
    node back too.  [fuel] bounds the depth of the recursion; [None] is
    "recursion deeper than [fuel]". *)

Definition outcome : Type := result (fragment * builder_state).

(** [t._group] after the assignment [t._group = list(p)]: the children taken
    in the order of the positions [p]. *)
Definition view (children : list Node) (p : list nat) : list Node :=
  omap (λ i, children !! i) p.

(** The children after a call on [list(p)] changed them in place: the child
    at position [p[j]] is the [j]-th of [updated]. *)
Fixpoint write_back (p : list nat) (updated children : list Node) : list Node :=
  match p, updated with
  | i :: p', c :: updated' => write_back p' updated' (<[i := c]> children)
  | _, _ => children
  end.

Section mutable.
(** The recursive call [_nfa_from_node(e)]. *)
Variable run : Node → builder_state → option (Node * outcome).

Fixpoint m_sequence_loop (rest : list Node) (init : string) (vacant : gset string)
    (st : builder_state) : option (list Node * outcome) :=
  match rest with
  | [] => Some ([], Ok ((init, vacant), st))
  | e :: rest' =>
      match run e st with
      | None => None
      | Some (e', Raise x) => Some (e' :: rest', Raise x)
      | Some (e', Ok ((init2, vacant2), st)) =>
          match patch_set vacant init2 st with
          | Raise x => Some (e' :: rest', Raise x)
          | Ok st =>
              match m_sequence_loop rest' init vacant2 st with
              | None => None
              | Some (rest'', r) => Some (e' :: rest'', r)
              end
          end
      end
  end.

Definition m_nfa_from_sequence (group : list Node) (st : builder_state)
  : option (list Node * outcome) :=
  match group with
  | [] => Some ([], Raise IndexError)
  | first :: rest =>
      match run first st with
      | None => None
      | Some (first', Raise x) => Some (first' :: rest, Raise x)
      | Some (first', Ok ((init, vacant), st)) =>
          match m_sequence_loop rest init vacant st with
          | None => None
          | Some (rest', r) => Some (first' :: rest', r)
          end
      end
  end.

Fixpoint m_choice_loop (group : list Node) (x : string) (vacants : gset string)
    (st : builder_state) : option (list Node * outcome) :=
  match group with
  | [] => Some ([], Ok ((x, vacants), st))
  | e :: rest =>
      match run e st with
      | None => None
      | Some (e', Raise y) => Some (e' :: rest, Raise y)
      | Some (e', Ok ((init, vacant), st)) =>
          let st := _add_transition x eps (Some init) st in
          match m_choice_loop rest x (vacants ∪ vacant) st with
          | None => None
          | Some (rest', r) => Some (e' :: rest', r)
          end
      end
  end.

Definition m_nfa_from_choice (group : list Node) (st : builder_state)
  : option (list Node * outcome) :=
  let '(x, st) := _new_state st in
  m_choice_loop group x ∅ st.

(** The loop of [_nfa_from_all].  [children] are the child objects, in the
    order of [original_group]; the list handed back is the value of
    [t._group] when the loop is left: [list(p)] when the sequence rule raises
    on [p], [original_group] after the last permutation. *)
Fixpoint m_all_loop (perms : list (list nat)) (children : list Node) (x : string)
    (vacants : gset string) (st : builder_state) : option (list Node * outcome) :=
  match perms with
  | [] => Some (children, Ok ((x, vacants), st))
  | p :: rest =>
      match m_nfa_from_sequence (view children p) st with
      | None => None
      | Some (group', Raise y) => Some (group', Raise y)
      | Some (group', Ok ((init, vacant), st)) =>
          let st := _add_transition x eps (Some init) st in
          m_all_loop rest (write_back p group' children) x (vacants ∪ vacant) st
      end
  end.

Definition m_nfa_from_all (group : list Node) (st : builder_state)
  : option (list Node * outcome) :=
  let '(x, st) := _new_state st in
  m_all_loop (permutations (seq 0 (length group))) group x ∅ st.

Definition m_group_fragment (model : string) (group : list Node)
    (st : builder_state) : option (list Node * outcome) :=
  if decide (model = "sequence") then m_nfa_from_sequence group st
  else if decide (model = "choice") then m_nfa_from_choice group st
  else if decide (model = "all") then m_nfa_from_all group st
  else Some (group, Raise (NotImplementedError ModelGroup)).

Definition m_nfa_from_node (t : Node) (st : builder_state)
  : option (Node * outcome) :=
  match
    match t with
    | XsdElement name _ => Some (t, _nfa_from_element t name st)
    | XsdGroup model o group =>
        match m_group_fragment model group st with
        | None => None
        | Some (group', r) => Some (XsdGroup model o group', r)
        end
    end
  with
  | None => None
  | Some (t', r) =>
      Some (t', '((init, vacant), st) ← r; apply_occurs (occurs t) init vacant st)
  end.
End mutable.

(** [_nfa_from_node] on the mutable tree, the recursion cut at depth
    [fuel]. *)
Fixpoint run_node (fuel : nat) (t : Node) (st : builder_state)
  : option (Node * outcome) :=
  match fuel with
  | 0 => None
  | S fuel' => m_nfa_from_node (run_node fuel') t st
  end.
(** * Invariants

    The properties the proofs carry through the loops of the builder and of
    the two library models. *)

(** ** What a fragment builder guarantees *)


(** The relation between the shared state before and after one successful
    call, and the fragment returned. *)
Record frag_inv (st : builder_state) (fr : fragment) (st' : builder_state)
  : Prop := FragInv {
  inv_build : build_state st → build_state st';
  inv_states : _nfa_states st ⊆ _nfa_states st';
  inv_dom : dom (_nfa_state_transitions st) ⊆ dom (_nfa_state_transitions st');
  inv_vacant : fr.2 ⊆ dom (_nfa_state_transitions st');
  inv_pending : ∀ s, pending (_nfa_state_transitions st') s →
                     s ∈ fr.2 ∨ pending (_nfa_state_transitions st) s;
  inv_concrete : ∀ s a q, has_edge (_nfa_state_transitions st) s a (Some q) →
                          has_edge (_nfa_state_transitions st') s a (Some q)
}.

(** [b] raises [e] when [err = Some e], and otherwise returns a fragment
    related to the states by [frag_inv]: in both cases whatever the state it
    is called in. *)
Definition builder_ok (err : option exn) (b : builder) : Prop :=
  ∀ st, match b st with
        | Ok (fr, st') => err = None ∧ frag_inv st fr st'
        | Raise e => err = Some e
        end.

(** ** The exploration of the subset construction *)

(** What holds of the work state between two steps: no state is listed
    twice, the start state is listed, every listed state is a set of NFA
    states, the expanded states have their row in the table, and their
    successors are listed. *)
Record explore_inv (nfa : NFA) (e : exploration) : Prop := ExploreInv {
  ex_nodup : NoDup (ex_done e ++ ex_todo e);
  ex_start : nfa_start nfa ∈ ex_done e ++ ex_todo e;
  ex_universe : ∀ X, X ∈ ex_done e ++ ex_todo e → X ⊆ nfa_universe nfa;
  ex_rows : ∀ X, X ∈ ex_done e →
                 ex_table e !! X = Some (list_to_map (dfa_row nfa X));
  ex_closed : ∀ X a, X ∈ ex_done e → a ∈ nfa_input_symbols nfa →
                     dfa_successor nfa X a ∈ ex_done e ++ ex_todo e
}.

(** The number of subsets of the universe not yet expanded, plus one: it
    decreases at every step. *)
Definition explore_measure (nfa : NFA) (e : exploration) : nat :=
  S (2 ^ size (nfa_universe nfa)) - length (ex_done e).

(** ** Partitions *)

(** Every group is non-empty and holds states of the signature it is keyed
    by. *)
Definition groups_ok {Q} (sig : Q → list (option nat))
    (groups : list (list (option nat) * list Q)) : Prop :=
  Forall (λ g, g.2 ≠ [] ∧ ∀ x, x ∈ g.2 → sig x = g.1) groups.

(** A partition of [states] into non-empty blocks, none of which mixes
    accepting and non-accepting states. *)
Record partition_ok {Q} (states accepts : list Q) (P : list (list Q))
  : Prop := PartitionOk {
  blocks_nonempty : Forall (λ B, B ≠ []) P;
  blocks_perm : concat P ≡ₚ states;
  blocks_accepts :
    Forall (λ B, ∀ p q, p ∈ B → q ∈ B → (p ∈ accepts ↔ q ∈ accepts)) P
}.

(** No block can be split further. *)
Definition stable {Q} `{Countable Q} (alphabet : list string)
    (tab : gmap (Q * string) Q) (P : list (list Q)) : Prop :=
  Forall (λ B, ∀ p q, p ∈ B → q ∈ B →
               signature tab alphabet P p = signature tab alphabet P q) P.

(** * An automaton used in the examples *)

(** The minimal DFA of "A, then B at most once", its states labelled as
    automata-lib labels them and listed in the order a breadth-first
    exploration from the start state meets them. *)
Definition ab_delta (q c : string) : result string :=
  if decide (q = "{q0}" ∧ c = "A") then Ok "{q1,q2}"
  else if decide (q = "{q1,q2}" ∧ c = "B") then Ok "{q2}"
  else Ok "{}".

Definition ab_pdfa : pDFA string :=
  MkPDFA ["{q0}"; "{q1,q2}"; "{}"; "{q2}"] ["A"; "B"] ab_delta
         "{q0}" ["{q1,q2}"; "{q2}"].

(** * Vocabulary of the structure of the NFA *)

(** ** What a tree contributes *)

(** The states the dispatch on [t.occurs] allocates: the [next] state of the
    pair [[1, None]], and none otherwise. *)
Definition occurs_states (o : occurs_t) : nat :=
  match o with
  | (1, None) => 1
  | _ => 0
  end.

(** The symbols the dispatch on [t.occurs] uses: every supported pair but
    [[1, 1]] adds a transition on the empty string. *)
Definition occurs_symbols (o : occurs_t) : gset string :=
  match o with
  | (1, Some 1) => ∅
  | _ => {[eps]}
  end.

(** The number of calls to [_new_state] made for a tree: one per element, one
    per choice group, one per "all" group and the children of an "all" group
    once per permutation. *)
Fixpoint state_count (t : Node) : nat :=
  match t with
  | XsdElement _ o => 1 + occurs_states o
  | XsdGroup model o group =>
      let below := sum_list (map state_count group) in
      (if decide (model = "sequence") then below
       else if decide (model = "choice") then 1 + below
       else 1 + fact (length group) * below) + occurs_states o
  end.

(** The names of the elements of a tree. *)
Fixpoint element_names (t : Node) : gset string :=
  match t with
  | XsdElement name _ => {[name]}
  | XsdGroup _ _ group => ⋃ (map element_names group)
  end.

(** The symbols on the transitions made for a tree: the element names, and
    the empty string wherever a group joins its branches or an occurrence
    pair adds a way around. *)
Fixpoint tree_symbols (t : Node) : gset string :=
  match t with
  | XsdElement name o => {[name]} ∪ occurs_symbols o
  | XsdGroup model o group =>
      let below := ⋃ (map tree_symbols group) in
      (if decide (model = "sequence") then below
       else if decide (model = "choice") then
         match group with [] => below | _ => {[eps]} ∪ below end
       else {[eps]} ∪ below) ∪ occurs_symbols o
  end.

(** The trees [_nfa_from_node] builds a fragment for: every model group is a
    sequence, a choice or an "all" group, no sequence or "all" group is
    empty, and every occurrence pair is one of the four handled. *)
Fixpoint supported (t : Node) : bool :=
  occurs_supported (occurs t) &&
  match t with
  | XsdElement _ _ => true
  | XsdGroup model _ group =>
      (if decide (model = "sequence") then bool_decide (group ≠ [])
       else if decide (model = "choice") then true
       else if decide (model = "all") then bool_decide (group ≠ [])
       else false) &&
      forallb supported group
  end.

(** ** Invariants of the shared state *)

(** After [n] calls to [_new_state]: rows belong to states of the set, and so
    do the concrete targets. *)
Definition closed_state (n : nat) (st : builder_state) : Prop :=
  allocated n st ∧
  dom (_nfa_state_transitions st) ⊆ _nfa_states st ∧
  ∀ s a q, has_edge (_nfa_state_transitions st) s a (Some q) →
           q ∈ _nfa_states st.

(** What a run of builder operations from [st] to [st'] does to the shared
    collections: it allocates [k] states, leaves the rows of the states in [B]
    alone, uses the symbols [syms], and registers the names [names], each for
    an element satisfying [E]. *)
Record grows (B : gset string) (k : nat) (syms names : gset string)
    (E : Node → Prop) (n : nat) (st st' : builder_state) : Prop := Grows {
  g_closed : closed_state (n + k) st';
  g_states : _nfa_states st ⊆ _nfa_states st';
  g_frame : ∀ s, s ∈ B →
                 _nfa_state_transitions st' !! s = _nfa_state_transitions st !! s;
  g_symbols : used_symbols (_nfa_state_transitions st')
              = used_symbols (_nfa_state_transitions st) ∪ syms;
  g_names : ∀ name, name ∈ names →
                    ∃ o, _elements st' !! name = Some (XsdElement name o) ∧
                         E (XsdElement name o);
  g_others : ∀ name, name ∉ names → _elements st' !! name = _elements st !! name
}.

(** What the construction of a fragment does: the shared collections grow as
    above and the rows of the states that existed before are left alone; the
    start state of the fragment is the first state allocated; the vacant
    states are new states, and they are the new states that hold a pending
    transition. *)
Record built (k : nat) (syms names : gset string) (E : Node → Prop) (n : nat)
    (st : builder_state) (fr : fragment) (st' : builder_state) : Prop := Built {
  b_grows : grows (_nfa_states st) k syms names E n st st';
  b_positive : 0 < k;
  b_init : fr.1 = state_name n;
  b_vacant : ∀ s, s ∈ fr.2 → s ∈ _nfa_states st' ∧ s ∉ _nfa_states st;
  b_pending : ∀ s, s ∉ _nfa_states st →
                   pending (_nfa_state_transitions st') s ↔ s ∈ fr.2
}.

(** [_nfa_from_node t] builds a fragment for [t] from every closed state. *)
Definition node_built (t : Node) : Prop :=
  ∀ n st fr st',
    closed_state n st → _nfa_from_node t st = Ok (fr, st') →
    built (state_count t) (tree_symbols t) (element_names t)
          (λ e, e ∈ nodes t) n st fr st'.

(** ** Reading the record returned by [dfa_from_group]

    The comment at lines 155-157: transitions into the trap are left out of
    the record, and a reader of the record reports an error when no
    transition is found for the input. *)

(** One step: [out["transitions"][i][a]], if there is such an entry. *)
Definition out_step (out : automaton) (i : nat) (a : string) : option nat :=
  row ← out_transitions out !! i; row !! a.

Fixpoint out_run (out : automaton) (i : nat) (w : list string) : option nat :=
  match w with
  | [] => Some i
  | a :: w' => j ← out_step out i a; out_run out j w'
  end.

(** The word leads from [out["start"]] to a member of [out["accepts"]]. *)
Definition out_accepts_word (out : automaton) (w : list string) : Prop :=
  ∃ j, out_run out (out_start out) w = Some j ∧ j ∈ out_accepts out.

(** * Properties *)

(** ** Induction on trees *)

Lemma Node_ind (P : Node → Prop) :
  (∀ name o, P (XsdElement name o)) →
  (∀ model o group, Forall P group → P (XsdGroup model o group)) →
  ∀ t, P t.
Proof.
  intros Helem Hgroup. fix IH 1. intros [name o|model o group].
  - apply Helem.
  - apply Hgroup. revert group. fix IHl 1. intros [|c l].
    + constructor.
    + constructor; [apply IH|apply IHl].
Qed.

(** ** The error monad *)

Lemma bind_Ok {A B} (m : result A) (k : A → result B) (b : B) :
  m ≫= k = Ok b ↔ ∃ a, m = Ok a ∧ k a = Ok b.
Proof.
  unfold mbind, result_bind, rbind. destruct m as [a|e]; split.
  - eauto.
  - intros (a' & Ha & ?). by injection Ha as <-.
  - done.
  - by intros (? & ? & ?).
Qed.

Lemma bind_Raise {A B} (m : result A) (k : A → result B) (e : exn) :
  m ≫= k = Raise e ↔ m = Raise e ∨ ∃ a, m = Ok a ∧ k a = Raise e.
Proof.
  unfold mbind, result_bind, rbind. destruct m as [a|e']; split.
  - eauto.
  - intros [?|(a' & Ha & ?)]; [done|]. by injection Ha as <-.
  - intros [= <-]; eauto.
  - intros [[= ->]|(? & ? & ?)]; done.
Qed.

(** ** Edges under the table operations *)

Section edges.
Implicit Types tbl : gmap string (gmap string (gset (option string))).
Implicit Types row : gmap string (gset (option string)).

Lemma has_edge_add_edge tbl s a n s' a' n' :
  has_edge (add_edge s a n tbl) s' a' n' ↔
    (s' = s ∧ a' = a ∧ n' = n) ∨ has_edge tbl s' a' n'.
Proof.
  unfold has_edge, add_edge.
  destruct (tbl !! s) as [d|] eqn:Hs; [destruct (d !! a) as [ts0|] eqn:Ha|].
  - split.
    + intros (row & ts & Hrow & Hts & Hn).
      destruct (decide (s' = s)) as [->|]; [|rewrite lookup_insert_ne in Hrow by done; eauto 10].
      rewrite lookup_insert_eq in Hrow. injection Hrow as <-.
      destruct (decide (a' = a)) as [->|]; [|rewrite lookup_insert_ne in Hts by done; eauto 10].
      rewrite lookup_insert_eq in Hts. injection Hts as <-.
      apply elem_of_union in Hn as [Hn|Hn%elem_of_singleton]; eauto 10.
    + intros [(-> & -> & ->)|(row & ts & Hrow & Hts & Hn)].
      * eexists _, _. rewrite lookup_insert_eq. split; [done|].
        rewrite lookup_insert_eq. split; [done|]. set_solver.
      * destruct (decide (s' = s)) as [->|]; [|rewrite lookup_insert_ne by done; eauto 10].
        rewrite Hs in Hrow. injection Hrow as <-.
        rewrite lookup_insert_eq.
        destruct (decide (a' = a)) as [->|].
        -- rewrite Ha in Hts. injection Hts as <-.
           eexists _, _. split; [done|]. rewrite lookup_insert_eq. split; [done|]. set_solver.
        -- eexists _, _. split; [done|]. rewrite lookup_insert_ne by done. eauto.
  - split.
    + intros (row & ts & Hrow & Hts & Hn).
      destruct (decide (s' = s)) as [->|]; [|rewrite lookup_insert_ne in Hrow by done; eauto 10].
      rewrite lookup_insert_eq in Hrow. injection Hrow as <-.
      destruct (decide (a' = a)) as [->|]; [|rewrite lookup_insert_ne in Hts by done; eauto 10].
      rewrite lookup_insert_eq in Hts. injection Hts as <-.
      apply elem_of_singleton in Hn. eauto 10.
    + intros [(-> & -> & ->)|(row & ts & Hrow & Hts & Hn)].
      * eexists _, _. rewrite lookup_insert_eq. split; [done|].
        rewrite lookup_insert_eq. split; [done|]. set_solver.
      * destruct (decide (s' = s)) as [->|]; [|rewrite lookup_insert_ne by done; eauto 10].
        rewrite Hs in Hrow. injection Hrow as <-.
        rewrite lookup_insert_eq.
        destruct (decide (a' = a)) as [->|]; [congruence|].
        eexists _, _. split; [done|]. rewrite lookup_insert_ne by done. eauto.
  - split.
    + intros (row & ts & Hrow & Hts & Hn).
      destruct (decide (s' = s)) as [->|]; [|rewrite lookup_insert_ne in Hrow by done; eauto 10].
      rewrite lookup_insert_eq in Hrow. injection Hrow as <-.
      destruct (decide (a' = a)) as [->|]; [|by rewrite lookup_singleton_ne in Hts].
      rewrite lookup_singleton_eq in Hts. injection Hts as <-.
      apply elem_of_singleton in Hn. eauto 10.
    + intros [(-> & -> & ->)|(row & ts & Hrow & Hts & Hn)].
      * eexists _, _. rewrite lookup_insert_eq. split; [done|].
        rewrite lookup_singleton_eq. split; [done|]. set_solver.
      * destruct (decide (s' = s)) as [->|]; [congruence|].
        rewrite lookup_insert_ne by done. eauto 10.
Qed.

Lemma dom_add_edge tbl s a n : dom (add_edge s a n tbl) = {[s]} ∪ dom tbl.
Proof.
  unfold add_edge. destruct (tbl !! s) as [d|]; [destruct (d !! a)|];
    by rewrite dom_insert_L.
Qed.

Lemma has_edge_patch_row next row a n :
  (∃ ts, patch_row next row !! a = Some ts ∧ n ∈ ts) ↔
  ∃ ts n0, row !! a = Some ts ∧ n0 ∈ ts ∧ n = resolve next n0.
Proof.
  unfold patch_row. rewrite lookup_fmap. split.
  - intros (ts & Hts & Hn). destruct (row !! a) as [ts0|]; [|done].
    simpl in Hts. injection Hts as <-.
    apply elem_of_map in Hn as (n0 & -> & Hn0). eauto.
  - intros (ts & n0 & -> & Hn0 & ->). simpl. eexists. split; [done|].
    apply elem_of_map. eauto.
Qed.

Lemma has_edge_insert_ne tbl s row s' a n :
  s' ≠ s → has_edge (<[s := row]> tbl) s' a n ↔ has_edge tbl s' a n.
Proof. intros. unfold has_edge. by rewrite lookup_insert_ne. Qed.

Lemma has_edge_insert_eq tbl s row a n :
  has_edge (<[s := row]> tbl) s a n ↔ ∃ ts, row !! a = Some ts ∧ n ∈ ts.
Proof.
  unfold has_edge. rewrite lookup_insert_eq. split.
  - intros (? & ts & [= <-] & ? & ?). eauto.
  - intros (ts & ? & ?). eauto.
Qed.

Lemma has_edge_dom tbl s a n : has_edge tbl s a n → s ∈ dom tbl.
Proof. intros (row & _ & Hrow & _). apply elem_of_dom. eauto. Qed.
End edges.

(** ** [_patch] and the loops over a vacant set *)

Lemma patch_Ok state next st st' :
  _patch state next st = Ok st' →
  state ∈ dom (_nfa_state_transitions st) ∧
  _nfa_states st' = _nfa_states st ∧
  _elements st' = _elements st ∧
  dom (_nfa_state_transitions st') = dom (_nfa_state_transitions st) ∧
  ∀ s a n, has_edge (_nfa_state_transitions st') s a n ↔
    if decide (s = state)
    then ∃ n0, has_edge (_nfa_state_transitions st) s a n0 ∧ n = resolve next n0
    else has_edge (_nfa_state_transitions st) s a n.
Proof.
  unfold _patch. destruct (_nfa_state_transitions st !! state) as [d|] eqn:Hd; [|done].
  intros [= <-]. simpl. split_and!; try done.
  - apply elem_of_dom. eauto.
  - rewrite dom_insert_L. apply (elem_of_dom_2 (D:=gset string)) in Hd.
    apply set_eq. intros s. rewrite elem_of_union, elem_of_singleton.
    naive_solver.
  - intros s a n. case_decide as Hs.
    + subst s. rewrite has_edge_insert_eq, has_edge_patch_row. split.
      * intros (ts & n0 & ? & ? & ->). exists n0. split; [|done]. exists d, ts. eauto.
      * intros (n0 & (row & ts & Hrow & ? & ?) & ->). rewrite Hd in Hrow.
        injection Hrow as <-. eauto.
    + by rewrite has_edge_insert_ne.
Qed.

Lemma patch_is_Ok state next st :
  state ∈ dom (_nfa_state_transitions st) → ∃ st', _patch state next st = Ok st'.
Proof.
  intros [d Hd]%elem_of_dom. unfold _patch. rewrite Hd. eauto.
Qed.

Lemma patch_Raise state next st e :
  _patch state next st = Raise e →
  e = KeyError ∧ state ∉ dom (_nfa_state_transitions st).
Proof.
  unfold _patch. destruct (_nfa_state_transitions st !! state) eqn:Hd; [done|].
  intros [= <-]. split; [done|]. by apply not_elem_of_dom.
Qed.

Lemma resolve_idemp next n : resolve next (resolve next n) = resolve next n.
Proof. by destruct n. Qed.

Lemma patch_each_Ok vs next st st' :
  patch_each vs next st = Ok st' →
  (∀ v, v ∈ vs → v ∈ dom (_nfa_state_transitions st)) ∧
  _nfa_states st' = _nfa_states st ∧
  _elements st' = _elements st ∧
  dom (_nfa_state_transitions st') = dom (_nfa_state_transitions st) ∧
  ∀ s a n, has_edge (_nfa_state_transitions st') s a n ↔
    if decide (s ∈ vs)
    then ∃ n0, has_edge (_nfa_state_transitions st) s a n0 ∧ n = resolve next n0
    else has_edge (_nfa_state_transitions st) s a n.
Proof.
  revert st. induction vs as [|v vs IH]; intros st; simpl.
  - intros [= <-]. split_and!; try done.
    by intros v ?%elem_of_nil.
  - intros (st1 & Hp & Hrest)%bind_Ok.
    apply patch_Ok in Hp as (Hv & Hst1 & Hel1 & Hdom1 & Hedge1).
    apply IH in Hrest as (Hvs & Hst & Hel & Hdom & Hedge).
    split_and!; try congruence.
    + intros v' [->|Hin]%elem_of_cons; [done|]. rewrite <- Hdom1. auto.
    + intros s a n. rewrite Hedge.
      destruct (decide (s ∈ vs)) as [Hin|Hnin].
      * rewrite decide_True by (by apply elem_of_cons; right).
        split.
        -- intros (n0 & Hn0 & ->). apply Hedge1 in Hn0. case_decide.
           ++ destruct Hn0 as (n1 & ? & ->). exists n1. by rewrite resolve_idemp.
           ++ eauto.
        -- intros (n0 & Hn0 & ->). destruct (decide (s = v)) as [->|Hne].
           ++ exists (resolve next n0). rewrite resolve_idemp. split; [|done].
              apply Hedge1. rewrite decide_True by done. eauto.
           ++ exists n0. split; [|done]. apply Hedge1. by rewrite decide_False.
      * rewrite Hedge1. destruct (decide (s = v)) as [->|Hne].
        -- by rewrite decide_True by (by apply elem_of_cons; left).
        -- rewrite decide_False; [done|]. by intros [->|?]%elem_of_cons.
Qed.

Lemma patch_each_is_Ok vs next st :
  (∀ v, v ∈ vs → v ∈ dom (_nfa_state_transitions st)) →
  ∃ st', patch_each vs next st = Ok st'.
Proof.
  revert st. induction vs as [|v vs IH]; intros st Hvs; simpl; [eauto|].
  destruct (patch_is_Ok v next st) as [st1 Hst1]; [apply Hvs; by left|].
  rewrite Hst1. simpl. apply IH. intros v' Hv'.
  apply patch_Ok in Hst1 as (_ & _ & _ & -> & _). apply Hvs. by right.
Qed.

Lemma patch_set_Ok vacant next st st' :
  patch_set vacant next st = Ok st' →
  vacant ⊆ dom (_nfa_state_transitions st) ∧
  _nfa_states st' = _nfa_states st ∧
  _elements st' = _elements st ∧
  dom (_nfa_state_transitions st') = dom (_nfa_state_transitions st) ∧
  ∀ s a n, has_edge (_nfa_state_transitions st') s a n ↔
    if decide (s ∈ vacant)
    then ∃ n0, has_edge (_nfa_state_transitions st) s a n0 ∧ n = resolve next n0
    else has_edge (_nfa_state_transitions st) s a n.
Proof.
  intros (Hvs & ? & ? & ? & Hedge)%patch_each_Ok. split_and!; try done.
  - intros v Hv. apply Hvs. by apply elem_of_elements.
  - intros s a n. rewrite Hedge.
    destruct (decide (s ∈ vacant)) as [Hin|Hnin].
    + by rewrite decide_True by (by apply elem_of_elements).
    + by rewrite decide_False by (by rewrite elem_of_elements).
Qed.

Lemma patch_set_is_Ok vacant next st :
  vacant ⊆ dom (_nfa_state_transitions st) →
  ∃ st', patch_set vacant next st = Ok st'.
Proof.
  intros Hsub. apply patch_each_is_Ok. intros v Hv%elem_of_elements. auto.
Qed.

Lemma patch_set_pending vacant next st st' s :
  patch_set vacant next st = Ok st' →
  pending (_nfa_state_transitions st') s →
  s ∉ vacant ∧ pending (_nfa_state_transitions st) s.
Proof.
  intros Hp [a Ha]. apply patch_set_Ok in Hp as (_ & _ & _ & _ & Hedge).
  apply Hedge in Ha. case_decide.
  - by destruct Ha as ([] & _ & ?).
  - split; [done|]. by exists a.
Qed.

Lemma patch_set_concrete vacant next st st' s a q :
  patch_set vacant next st = Ok st' →
  has_edge (_nfa_state_transitions st) s a (Some q) →
  has_edge (_nfa_state_transitions st') s a (Some q).
Proof.
  intros Hp Hq. apply patch_set_Ok in Hp as (_ & _ & _ & _ & Hedge).
  apply Hedge. case_decide; [|done]. by exists (Some q).
Qed.

(** ** [permutations] *)

Section permutations.
Context {A : Type}.
Implicit Types l : list A.

Lemma length_selections l : length (selections l) = length l.
Proof.
  induction l as [|x xs IH]; simpl; [done|]. by rewrite length_map, IH.
Qed.

Lemma selections_perm l p : p ∈ selections l → p.1 :: p.2 ≡ₚ l.
Proof.
  revert p. induction l as [|x xs IH]; intros p; simpl.
  - by intros ?%elem_of_nil.
  - intros [->|Hp]%elem_of_cons; [done|].
    apply list_elem_of_fmap in Hp as (p' & -> & Hp'). simpl.
    rewrite Permutation_swap. by rewrite (IH _ Hp').
Qed.

Lemma selections_length l p : p ∈ selections l → S (length p.2) = length l.
Proof.
  intros Hp%selections_perm. by rewrite <- Hp.
Qed.

Lemma length_flat_map_const {B C} (f : B → list C) (k : nat) (l : list B) :
  (∀ x, x ∈ l → length (f x) = k) → length (flat_map f l) = length l * k.
Proof.
  induction l as [|x l IH]; intros Hf; simpl; [done|].
  rewrite length_app, Hf by (by left). rewrite IH; [done|].
  intros y Hy. apply Hf. by right.
Qed.

Lemma length_perms_n n l : length l = n → length (perms_n n l) = fact n.
Proof.
  revert l. induction n as [|n IH]; intros l Hl; simpl; [done|].
  rewrite (length_flat_map_const _ (fact n)).
  - rewrite length_selections, Hl. simpl. lia.
  - intros p Hp. rewrite length_map. apply IH.
    apply selections_length in Hp. lia.
Qed.

(** An n-element list has n! permutations. *)
Lemma length_permutations l : length (permutations l) = fact (length l).
Proof. by apply length_perms_n. Qed.

Lemma perms_n_head n l : length l = n → ∃ tl, perms_n n l = l :: tl.
Proof.
  revert l. induction n as [|n IH]; intros l Hl; simpl.
  - destruct l; [|done]. by exists [].
  - destruct l as [|x xs]; [done|]. simpl.
    destruct (IH xs) as [tl Htl]; [by injection Hl|]. rewrite Htl. simpl.
    eauto.
Qed.

(** The first permutation is the list itself. *)
Lemma permutations_head l : ∃ tl, permutations l = l :: tl.
Proof. by apply perms_n_head. Qed.

Lemma perms_n_perm n l p : length l = n → p ∈ perms_n n l → p ≡ₚ l.
Proof.
  revert l p. induction n as [|n IH]; intros l p Hl; simpl.
  - intros ->%list_elem_of_singleton. by destruct l.
  - rewrite list_elem_of_In, in_flat_map.
    intros (s & Hs%list_elem_of_In & Hp%list_elem_of_In).
    apply list_elem_of_fmap in Hp as (p' & -> & Hp').
    pose proof (selections_length _ _ Hs).
    rewrite (IH s.2 p') by (done || lia). by apply selections_perm.
Qed.

(** Every permutation is a rearrangement of the list. *)
Lemma permutations_perm l p : p ∈ permutations l → p ≡ₚ l.
Proof. by apply perms_n_perm. Qed.
End permutations.

Lemma selections_map {A B} (f : A → B) (l : list A) :
  selections (map f l) = map (λ p, (f p.1, map f p.2)) (selections l).
Proof.
  induction l as [|x xs IH]; simpl; [done|]. f_equal.
  rewrite IH, !map_map. by apply map_ext.
Qed.

Lemma flat_map_ext_in {A B} (f g : A → list B) (l : list A) :
  (∀ x, x ∈ l → f x = g x) → flat_map f l = flat_map g l.
Proof.
  induction l as [|x l IH]; intros Hfg; simpl; [done|].
  rewrite Hfg by (by left). rewrite IH; [done|]. intros y Hy. apply Hfg. by right.
Qed.

Lemma map_flat_map {A B C} (f : B → C) (g : A → list B) (l : list A) :
  map f (flat_map g l) = flat_map (λ x, map f (g x)) l.
Proof.
  induction l as [|x l IH]; simpl; [done|]. by rewrite map_app, IH.
Qed.

Lemma perms_n_map {A B} (f : A → B) n (l : list A) :
  perms_n n (map f l) = map (map f) (perms_n n l).
Proof.
  revert l. induction n as [|n IH]; intros l; simpl; [done|].
  rewrite selections_map, flat_map_concat_map, map_map, <- flat_map_concat_map.
  rewrite map_flat_map. apply flat_map_ext_in. intros p _. simpl.
  rewrite IH, !map_map. by apply map_ext.
Qed.

(** Permuting commutes with mapping. *)
Lemma permutations_map {A B} (f : A → B) (l : list A) :
  permutations (map f l) = map (map f) (permutations l).
Proof. unfold permutations. by rewrite length_map, perms_n_map. Qed.
(** ** The fragment builders keep the invariant *)

Lemma build_initial : build_state initial_builder_state.
Proof. exists 0. constructor. Qed.

Lemma build_new_state st : build_state st → build_state (_new_state st).2.
Proof. intros [n Hn]. exists (S n). by constructor. Qed.

Lemma build_add_transition st s a next :
  build_state st → build_state (_add_transition s a next st).
Proof. intros [n Hn]. exists n. by constructor. Qed.

Lemma build_patch st s next st' :
  build_state st → _patch s next st = Ok st' → build_state st'.
Proof. intros [n Hn] Hp. exists n. by econstructor. Qed.

Lemma build_register st name t :
  build_state st → build_state (register_element name t st).
Proof. intros [n Hn]. exists n. by constructor. Qed.

Lemma build_clear_row st s : build_state st → build_state (clear_row s st).
Proof. intros [n Hn]. exists n. by constructor. Qed.

Lemma build_state_patch_each vs next st st' :
  patch_each vs next st = Ok st' → build_state st → build_state st'.
Proof.
  revert st. induction vs as [|v vs IH]; intros st; simpl.
  - by intros [= <-].
  - intros (st1 & Hp & Hrest)%bind_Ok Hst. eapply IH; [done|].
    by eapply build_patch.
Qed.

Lemma build_state_patch_set vacant next st st' :
  patch_set vacant next st = Ok st' → build_state st → build_state st'.
Proof. apply build_state_patch_each. Qed.

Lemma pending_add_concrete tbl s a q s' :
  pending (add_edge s a (Some q) tbl) s' → pending tbl s'.
Proof.
  intros [a' [(_ & _ & [=])|Ha]%has_edge_add_edge]. by exists a'.
Qed.

Lemma pending_add_pending tbl s a s' :
  pending (add_edge s a None tbl) s' → s' = s ∨ pending tbl s'.
Proof.
  intros [a' [(-> & _ & _)|Ha]%has_edge_add_edge]; [by left|].
  right. by exists a'.
Qed.

Lemma frag_inv_element t name st :
  match _nfa_from_element t name st with
  | Ok (fr, st') => frag_inv st fr st'
  | Raise _ => False
  end.
Proof.
  unfold _nfa_from_element; simpl. split; simpl.
  - intros Hst. apply build_register, build_add_transition.
    by apply (build_new_state st).
  - set_solver.
  - rewrite dom_add_edge. set_solver.
  - rewrite dom_add_edge. set_solver.
  - intros s [->|?]%pending_add_pending; [left; set_solver|by right].
  - intros s a q Hq. apply has_edge_add_edge. by right.
Qed.

(** The loop of [_nfa_from_sequence], started with the fragment so far. *)
Lemma sequence_loop_ok errs rest init vacant st :
  Forall2 builder_ok errs rest →
  vacant ⊆ dom (_nfa_state_transitions st) →
  match sequence_loop rest init vacant st with
  | Ok (fr, st') =>
      first_some errs = None ∧
      (build_state st → build_state st') ∧
      _nfa_states st ⊆ _nfa_states st' ∧
      dom (_nfa_state_transitions st) ⊆ dom (_nfa_state_transitions st') ∧
      fr.2 ⊆ dom (_nfa_state_transitions st') ∧
      (∀ s, pending (_nfa_state_transitions st') s →
            s ∈ fr.2 ∨ (s ∉ vacant ∧ pending (_nfa_state_transitions st) s)) ∧
      (∀ s a q, has_edge (_nfa_state_transitions st) s a (Some q) →
                has_edge (_nfa_state_transitions st') s a (Some q))
  | Raise e => first_some errs = Some e
  end.
Proof.
  intros Hkids. revert init vacant st.
  induction Hkids as [|err e errs rest He _ IH]; intros init vacant st Hvac; simpl.
  - split_and!; try done. intros s Hs.
    destruct (decide (s ∈ vacant)); [by left|by right].
  - specialize (He st). destruct (e st) as [[[init2 vacant2] st1]|x]; simpl.
    2:{ by rewrite He. }
    destruct He as [-> [Hb1 Hs1 Hd1 Hv1 Hp1 Hc1]]. simpl in *.
    destruct (patch_set_is_Ok vacant init2 st1) as [st2 Hst2]; [set_solver|].
    rewrite Hst2. simpl.
    pose proof (patch_set_Ok _ _ _ _ Hst2) as (_ & Hs2 & _ & Hd2 & _).
    assert (vacant2 ⊆ dom (_nfa_state_transitions st2)) as Hvac2
      by (by rewrite Hd2).
    specialize (IH init vacant2 st2 Hvac2).
    destruct (sequence_loop rest init vacant2 st2) as [[fr st']|x]; [|done].
    destruct IH as (-> & Hb & Hs & Hd & Hv & Hp & Hc).
    split_and!; try done.
    + intros Hst. apply Hb. eapply build_state_patch_set; eauto.
    + rewrite <- Hs. by rewrite Hs2.
    + rewrite <- Hd. by rewrite Hd2.
    + intros s [?|[Hn2 Hs']]%Hp; [by left|].
      eapply patch_set_pending in Hs' as [Hnv Hs']; [|done].
      apply Hp1 in Hs' as [?|?]; [done|by right].
    + intros s a q Hq. apply Hc. eapply patch_set_concrete; eauto.
Qed.

Lemma sequence_ok errs group :
  Forall2 builder_ok errs group →
  builder_ok (match group with [] => Some IndexError | _ => first_some errs end)
             (_nfa_from_sequence group).
Proof.
  intros Hkids st. destruct Hkids as [|err e errs rest He Hrest]; simpl; [done|].
  specialize (He st). destruct (e st) as [[[init vacant] st1]|x]; simpl.
  2:{ by rewrite He. }
  destruct He as [-> [Hb1 Hs1 Hd1 Hv1 Hp1 Hc1]]. simpl in *.
  pose proof (sequence_loop_ok errs rest init vacant st1 Hrest Hv1) as Hloop.
  destruct (sequence_loop rest init vacant st1) as [[fr st']|x]; [|done].
  destruct Hloop as (-> & Hb & Hs & Hd & Hv & Hp & Hc).
  split; [done|]. split; try done.
  - auto.
  - by rewrite Hs1.
  - by rewrite Hd1.
  - intros s [?|[Hnv Hs']]%Hp; [by left|].
    apply Hp1 in Hs' as [?|?]; [done|by right].
  - auto.
Qed.

(** The loop of [_nfa_from_choice]. *)
Lemma choice_loop_ok errs group x vacants st :
  Forall2 builder_ok errs group →
  vacants ⊆ dom (_nfa_state_transitions st) →
  match choice_loop group x vacants st with
  | Ok (fr, st') =>
      first_some errs = None ∧ fr.1 = x ∧ vacants ⊆ fr.2 ∧
      (build_state st → build_state st') ∧
      _nfa_states st ⊆ _nfa_states st' ∧
      dom (_nfa_state_transitions st) ⊆ dom (_nfa_state_transitions st') ∧
      fr.2 ⊆ dom (_nfa_state_transitions st') ∧
      (∀ s, pending (_nfa_state_transitions st') s →
            s ∈ fr.2 ∨ pending (_nfa_state_transitions st) s) ∧
      (∀ s a q, has_edge (_nfa_state_transitions st) s a (Some q) →
                has_edge (_nfa_state_transitions st') s a (Some q))
  | Raise e => first_some errs = Some e
  end.
Proof.
  intros Hkids. revert vacants st.
  induction Hkids as [|err e errs rest He _ IH]; intros vacants st Hvac; simpl.
  - split_and!; try done. intros s Hs. by right.
  - specialize (He st). destruct (e st) as [[[init vacant] st1]|y]; simpl.
    2:{ by rewrite He. }
    destruct He as [-> [Hb1 Hs1 Hd1 Hv1 Hp1 Hc1]]. simpl in *.
    specialize (IH (vacants ∪ vacant) (_add_transition x eps (Some init) st1)).
    destruct (choice_loop rest x (vacants ∪ vacant) _) as [[fr st']|y];
      [|apply IH; simpl; rewrite dom_add_edge; set_solver].
    simpl in IH. rewrite dom_add_edge in IH.
    destruct IH as (-> & Hx & Hsub & Hb & Hs & Hd & Hv & Hp & Hc); [set_solver|].
    split_and!; try done.
    + set_solver.
    + intros Hst. apply Hb. by apply build_add_transition, Hb1.
    + by rewrite Hs1.
    + set_solver.
    + intros s [?|Hs']%Hp; [by left|].
      apply pending_add_concrete in Hs'.
      apply Hp1 in Hs' as [?|?]; [|by right]. left. set_solver.
    + intros s a q Hq. apply Hc. apply has_edge_add_edge. right. auto.
Qed.

Lemma choice_ok errs group :
  Forall2 builder_ok errs group →
  builder_ok (first_some errs) (_nfa_from_choice group).
Proof.
  intros Hkids st. unfold _nfa_from_choice. simpl.
  pose proof (choice_loop_ok errs group (state_name (size (_nfa_states st))) ∅
                (_new_state st).2 Hkids) as Hloop.
  simpl in Hloop.
  destruct (choice_loop group _ ∅ _) as [[fr st']|x]; [|by apply Hloop].
  destruct Hloop as (-> & Hx & _ & Hb & Hs & Hd & Hv & Hp & Hc); [set_solver|].
  split; [done|]. split; try done.
  - intros Hst. apply Hb. by apply (build_new_state st).
  - set_solver.
Qed.

Lemma first_some_None {A} (l : list (option A)) :
  first_some l = None ↔ Forall (λ o, o = None) l.
Proof.
  induction l as [|[a|] l IH]; simpl.
  - done.
  - split; [done|]. by intros [[=] _]%Forall_cons.
  - rewrite IH. split; [by constructor|]. by intros [_ ?]%Forall_cons.
Qed.

Lemma Forall2_builder_ok_None errs group :
  Forall2 builder_ok errs group → first_some errs = None →
  Forall (builder_ok None) group.
Proof.
  intros Hkids Hnone%first_some_None.
  induction Hkids as [|err b errs group Hb _ IH]; [done|].
  apply Forall_cons in Hnone as [-> Hnone]. constructor; auto.
Qed.

Lemma Forall_builder_ok_None group :
  Forall (builder_ok None) group →
  ∃ errs, Forall2 builder_ok errs group ∧ first_some errs = None.
Proof.
  induction 1 as [|b group Hb _ (errs & IH & Hnone)].
  - by exists [].
  - exists (None :: errs). split; [by constructor|done].
Qed.

(** The loop of [_nfa_from_all] when no child raises. *)
Lemma all_loop_ok perms x vacants st :
  Forall (λ p, p ≠ [] ∧ Forall (builder_ok None) p) perms →
  vacants ⊆ dom (_nfa_state_transitions st) →
  match all_loop perms x vacants st with
  | Ok (fr, st') =>
      fr.1 = x ∧ vacants ⊆ fr.2 ∧
      (build_state st → build_state st') ∧
      _nfa_states st ⊆ _nfa_states st' ∧
      dom (_nfa_state_transitions st) ⊆ dom (_nfa_state_transitions st') ∧
      fr.2 ⊆ dom (_nfa_state_transitions st') ∧
      (∀ s, pending (_nfa_state_transitions st') s →
            s ∈ fr.2 ∨ pending (_nfa_state_transitions st) s) ∧
      (∀ s a q, has_edge (_nfa_state_transitions st) s a (Some q) →
                has_edge (_nfa_state_transitions st') s a (Some q))
  | Raise e => False
  end.
Proof.
  intros Hperms. revert vacants st.
  induction Hperms as [|p perms [Hne Hp] _ IH]; intros vacants st Hvac; simpl.
  - split_and!; try done. intros s Hs. by right.
  - apply Forall_builder_ok_None in Hp as (errs & Hp & Hnone).
    pose proof (sequence_ok errs p Hp st) as Hseq. rewrite Hnone in Hseq.
    destruct (_nfa_from_sequence p st) as [[[init vacant] st1]|y]; simpl.
    2:{ by destruct p. }
    destruct Hseq as [_ [Hb1 Hs1 Hd1 Hv1 Hp1 Hc1]]. simpl in *.
    specialize (IH (vacants ∪ vacant) (_add_transition x eps (Some init) st1)).
    simpl in IH. rewrite dom_add_edge in IH.
    destruct (all_loop perms x (vacants ∪ vacant) _) as [[fr st']|y];
      [|apply IH; set_solver].
    destruct IH as (Hx & Hsub & Hb & Hs & Hd & Hv & Hp' & Hc); [set_solver|].
    split_and!; try done.
    + set_solver.
    + intros Hst. apply Hb. by apply build_add_transition, Hb1.
    + by rewrite Hs1.
    + set_solver.
    + intros s [?|Hs']%Hp'; [by left|].
      apply pending_add_concrete in Hs'.
      apply Hp1 in Hs' as [?|?]; [|by right]. left. set_solver.
    + intros s a q Hq. apply Hc. apply has_edge_add_edge. right. auto.
Qed.

Lemma all_ok errs group :
  Forall2 builder_ok errs group →
  builder_ok (match group with [] => Some IndexError | _ => first_some errs end)
             (_nfa_from_all group).
Proof.
  intros Hkids st. unfold _nfa_from_all. simpl.
  set (x := state_name (size (_nfa_states st))).
  set (st0 := BuilderState _ _ _).
  destruct group as [|b group]; [done|].
  destruct (first_some errs) as [e|] eqn:Herr.
  - destruct (permutations_head (b :: group)) as [tl ->]. simpl.
    pose proof (sequence_ok errs (b :: group) Hkids st0) as Hseq.
    rewrite Herr in Hseq. change (_nfa_from_sequence (b :: group) st0) with
      ('(fr, st) ← b st0; let '(init, vacant) := fr in sequence_loop group init vacant st)
      in Hseq.
    unfold _nfa_from_sequence in Hseq.
    destruct (b st0) as [[[init vacant] st1]|y]; simpl in *; [|done].
    destruct (sequence_loop group init vacant st1) as [[[init' vacant'] st2]|y];
      simpl in *; [by destruct Hseq|done].
  - pose proof (Forall2_builder_ok_None _ _ Hkids Herr) as Hall.
    assert (Forall (λ p, p ≠ [] ∧ Forall (builder_ok None) p)
                   (permutations (b :: group))) as Hperms.
    { apply Forall_forall. intros p Hp%permutations_perm. split.
      - intros ->. by apply Permutation_nil_cons in Hp.
      - by rewrite Hp. }
    assert (∅ ⊆ dom (_nfa_state_transitions st0)) as Hempty by set_solver.
    pose proof (all_loop_ok (permutations (b :: group)) x ∅ st0 Hperms Hempty)
      as Hloop.
    destruct (all_loop (permutations (b :: group)) x ∅ st0) as [[fr st']|y];
      [|done].
    destruct Hloop as (Hx & _ & Hb & Hs & Hd & Hv & Hp & Hc).
    split; [done|]. split; try done.
    + intros Hst. apply Hb. by apply (build_new_state st).
    + subst st0. simpl in Hs. set_solver.
Qed.

(** The dispatch on [t.occurs], after a base fragment. *)
Lemma apply_occurs_ok o init vacant st0 st :
  frag_inv st0 (init, vacant) st →
  match apply_occurs o init vacant st with
  | Ok (fr, st') => occurs_error o = None ∧ frag_inv st0 fr st'
  | Raise e => occurs_error o = Some e
  end.
Proof.
  intros [Hb Hs Hd Hv Hp Hc]. simpl in *.
  assert (∀ next, ∃ st1, patch_set vacant next st = Ok st1) as Hpatch
    by (intros; by apply patch_set_is_Ok).
  destruct o as [[|[|n]] [[|[|m]]|]]; simpl; try done.
  (* the pair (1, 1) is closed by [done]: the fragment is returned as it is *)
  - (* (0, 1) *)
    split; [done|]. split; simpl.
    + intros Hst. by apply build_add_transition, Hb.
    + done.
    + rewrite dom_add_edge. set_solver.
    + rewrite dom_add_edge. set_solver.
    + intros s [->|Hs']%pending_add_pending; [left; set_solver|].
      apply Hp in Hs' as [?|?]; [left; set_solver|by right].
    + intros s a q Hq. apply has_edge_add_edge. right. auto.
  - (* (0, unbounded) *)
    destruct (Hpatch init) as [st1 Hst1]. rewrite Hst1. simpl.
    pose proof (patch_set_Ok _ _ _ _ Hst1) as (_ & Hs1 & _ & Hd1 & _).
    split; [done|]. split; simpl.
    + intros Hst. apply build_add_transition.
      eapply build_state_patch_set; eauto.
    + by rewrite Hs1.
    + rewrite dom_add_edge, Hd1. set_solver.
    + rewrite dom_add_edge. set_solver.
    + intros s [->|Hs']%pending_add_pending; [left; set_solver|].
      eapply patch_set_pending in Hs' as [Hnv Hs']; [|done].
      apply Hp in Hs' as [?|?]; [done|by right].
    + intros s a q Hq. apply has_edge_add_edge. right.
      eapply patch_set_concrete; eauto.
  - (* (1, unbounded) *)
    set (next := state_name (size (_nfa_states st))).
    set (st1 := BuilderState _ _ _).
    destruct (patch_set_is_Ok vacant next st1) as [st2 Hst2]; [done|].
    fold next. rewrite Hst2. simpl.
    pose proof (patch_set_Ok _ _ _ _ Hst2) as (_ & Hs2 & _ & Hd2 & _).
    split; [done|]. split; simpl.
    + intros Hst. do 2 apply build_add_transition.
      eapply build_state_patch_set; [done|]. by apply (build_new_state st), Hb.
    + rewrite Hs2. subst st1. simpl. set_solver.
    + rewrite !dom_add_edge, Hd2. subst st1. simpl. set_solver.
    + rewrite !dom_add_edge. set_solver.
    + intros s [->|Hs']%pending_add_pending; [left; set_solver|].
      apply pending_add_concrete in Hs'.
      eapply patch_set_pending in Hs' as [Hnv Hs']; [|done].
      apply Hp in Hs' as [?|?]; [done|by right].
    + intros s a q Hq. do 2 (apply has_edge_add_edge; right).
      eapply patch_set_concrete; [done|]. by apply Hc.
Qed.

Lemma group_fragment_ok model errs group :
  Forall2 builder_ok errs group →
  builder_ok
    (if decide (model = "sequence") then
       match group with [] => Some IndexError | _ => first_some errs end
     else if decide (model = "choice") then first_some errs
     else if decide (model = "all") then
       match group with [] => Some IndexError | _ => first_some errs end
     else Some (NotImplementedError ModelGroup))
    (group_fragment model group).
Proof.
  intros Hkids. unfold group_fragment. repeat case_decide.
  - by apply sequence_ok.
  - by apply choice_ok.
  - by apply all_ok.
  - by intros st.
Qed.

Lemma occurs_compose_ok err o (base : builder) :
  builder_ok err base →
  builder_ok (match err with Some e => Some e | None => occurs_error o end)
    (λ st, base st ≫= λ '((init, vacant), st1), apply_occurs o init vacant st1).
Proof.
  intros Hbase st. specialize (Hbase st).
  destruct (base st) as [[[init vacant] st1]|e]; simpl.
  - destruct Hbase as [-> Hinv]. by apply apply_occurs_ok.
  - by rewrite Hbase.
Qed.

Lemma element_ok t name : builder_ok None (_nfa_from_element t name).
Proof.
  intros st. pose proof (frag_inv_element t name st) as Hel.
  by destruct (_nfa_from_element t name st) as [[fr st']|].
Qed.

(** [_nfa_from_node] raises exactly [first_error], whatever the state, and
    otherwise returns a fragment related to the states by [frag_inv]. *)
Lemma nfa_from_node_ok t : builder_ok (first_error t) (_nfa_from_node t).
Proof.
  induction t as [name o|model o group IH] using Node_ind.
  - apply (occurs_compose_ok None o _ (element_ok (XsdElement name o) name)).
  - assert (Forall2 builder_ok (map first_error group) (map _nfa_from_node group))
      as Hkids.
    { induction IH; simpl; by constructor. }
    pose proof (occurs_compose_ok _ o _ (group_fragment_ok model _ _ Hkids))
      as Hnode.
    intros st. specialize (Hnode st).
    assert (first_error (XsdGroup model o group) =
            match
              (if decide (model = "sequence") then
                 match map _nfa_from_node group with
                 | [] => Some IndexError
                 | _ => first_some (map first_error group)
                 end
               else if decide (model = "choice") then first_some (map first_error group)
               else if decide (model = "all") then
                 match map _nfa_from_node group with
                 | [] => Some IndexError
                 | _ => first_some (map first_error group)
                 end
               else Some (NotImplementedError ModelGroup))
            with Some e => Some e | None => occurs_error o end) as ->; [|done].
    simpl. repeat case_decide; try done; by destruct group.
Qed.

Lemma nfa_from_node_Ok t st fr st' :
  _nfa_from_node t st = Ok (fr, st') → first_error t = None ∧ frag_inv st fr st'.
Proof. intros Heq. pose proof (nfa_from_node_ok t st) as Hok. by rewrite Heq in Hok. Qed.

Lemma nfa_from_node_Raise t st e :
  _nfa_from_node t st = Raise e ↔ first_error t = Some e.
Proof.
  pose proof (nfa_from_node_ok t st) as Hok. split.
  - intros Heq. by rewrite Heq in Hok.
  - intros Herr. destruct (_nfa_from_node t st) as [[fr st']|e'].
    + destruct Hok as [Hok _]. congruence.
    + congruence.
Qed.

Lemma nfa_from_node_is_Ok t st :
  first_error t = None → ∃ fr st', _nfa_from_node t st = Ok (fr, st').
Proof.
  intros Herr. pose proof (nfa_from_node_ok t st) as Hok.
  destruct (_nfa_from_node t st) as [[fr st']|e]; [eauto|congruence].
Qed.

(** ** Fresh state names *)

Lemma state_name_inj i j : state_name i = state_name j → i = j.
Proof.
  unfold state_name. intros Heq.
  apply (inj (String.append "q")) in Heq. by apply (inj pretty) in Heq.
Qed.

(** After [n] calls to [_new_state] the state set is [{q0, ..., q(n-1)}] and
    has [n] members. *)
Lemma allocated_dense n st :
  allocated n st →
  size (_nfa_states st) = n ∧
  ∀ s, s ∈ _nfa_states st ↔ ∃ i, i < n ∧ s = state_name i.
Proof.
  induction 1 as [|n st _ [Hsize Hmem]|n st s a next _ IH|n st s next st' _ IH Hp
                 |n st name t _ IH|n st s _ IH]; simpl; try done.
  - split; [done|]. intros s. split; [set_solver|]. intros (i & ? & _). lia.
  - assert (state_name (size (_nfa_states st)) ∉ _nfa_states st) as Hfresh.
    { rewrite Hmem, Hsize. intros (i & Hi & ->%state_name_inj). lia. }
    split.
    + rewrite size_union, size_singleton by set_solver. lia.
    + intros s. rewrite elem_of_union, elem_of_singleton, Hmem, Hsize. split.
      * intros [->|(i & ? & ->)]; [exists n|exists i]; split; (lia || done).
      * intros (i & Hi & ->). destruct (decide (i = n)) as [->|]; [by left|].
        right. exists i. split; [lia|done].
  - apply patch_Ok in Hp as (_ & -> & _). done.
Qed.

Lemma build_state_dense st : build_state st → dense st.
Proof.
  intros [n Hn]. destruct (allocated_dense n st Hn) as [Hsize Hmem].
  intros s. by rewrite Hsize.
Qed.

Lemma allocated_fresh n st :
  allocated n st → (_new_state st).1 ∉ _nfa_states st.
Proof.
  intros [Hsize Hmem]%allocated_dense. simpl. rewrite Hmem, Hsize.
  intros (i & Hi & ->%state_name_inj). lia.
Qed.

(** C10. Within a build, that is in every state the shared collections can be
    in after [n] calls to [_new_state] and any number of the other operations
    the build performs ([_remove_state] is not one of them), [_new_state]
    returns a name that is not in the state set, and the set then has [n + 1]
    members: the [n + 1] names handed out so far are pairwise distinct. *)
Theorem new_state_fresh n st :
  allocated n st →
  (_new_state st).1 ∉ _nfa_states st ∧
  size (_nfa_states st) = n ∧
  size (_nfa_states (_new_state st).2) = S n.
Proof.
  intros Hn. pose proof (alloc_new_state n st Hn) as Hn'.
  split_and!.
  - by apply (allocated_fresh n).
  - by apply allocated_dense in Hn as [? _].
  - by apply allocated_dense in Hn' as [? _].
Qed.

Lemma new_state_fresh_witness :
  (_new_state (_add_transition "q0" "A" None (_new_state initial_builder_state).2)).1
    ∉ _nfa_states (_add_transition "q0" "A" None (_new_state initial_builder_state).2).
Proof.
  apply (new_state_fresh 1
           (_add_transition "q0" "A" None (_new_state initial_builder_state).2)).
  apply alloc_add_transition, alloc_new_state, alloc_initial.
Defined.

(** Every state a fragment builder is called in during [dfa_from_group], and
    the state the NFA is read from, is such a state. *)
Lemma nfa_from_node_build_state t st fr st' :
  build_state st → _nfa_from_node t st = Ok (fr, st') → build_state st'.
Proof. intros Hst [_ Hinv]%nfa_from_node_Ok. by apply Hinv. Qed.

Lemma finalize_Ok t init final st :
  finalize t = Ok (init, final, st) →
  ∃ finals st1,
    _nfa_from_node t initial_builder_state = Ok ((init, finals), st1) ∧
    final = (_new_state st1).1 ∧
    patch_set finals final (clear_row final (_new_state st1).2) = Ok st.
Proof.
  unfold finalize. intros ([[init' finals] st1] & Hnode & Hrest)%bind_Ok.
  simpl in Hrest. apply bind_Ok in Hrest as (st2 & Hpatch & [= <- <- <-]).
  eauto.
Qed.

Lemma finalize_build_state t init final st :
  finalize t = Ok (init, final, st) → build_state st.
Proof.
  intros (finals & st1 & Hnode & -> & Hpatch)%finalize_Ok.
  eapply build_state_patch_set; [done|].
  apply build_clear_row, build_new_state.
  eapply nfa_from_node_build_state; [apply build_initial|done].
Qed.

(** With [_remove_state] in play the names would not be fresh: after [q0] and
    [q1] are allocated and [q0] is removed, the next name is [q1] again. *)
Example remove_state_reuses_name :
  ∃ st,
    _remove_state "q0"
      (_add_transition "q0" "A" None
         (_new_state (_new_state initial_builder_state).2).2) = Ok st ∧
    (_new_state st).1 ∈ _nfa_states st.
Proof. eexists. split; [vm_compute; reflexivity|]. by vm_compute. Qed.

(** ** No pending target survives finalisation *)

Lemma pending_empty s : ¬ pending ∅ s.
Proof. intros (a & row & ts & Hrow & _). by rewrite lookup_empty in Hrow. Qed.

(** C4. For every tree the builder accepts, after the root fragment is
    finalised no entry of the transition table holds the pending marker. *)
Theorem finalize_no_pending t init final st :
  finalize t = Ok (init, final, st) →
  ∀ s row a ts,
    _nfa_state_transitions st !! s = Some row → row !! a = Some ts →
    None ∉ ts.
Proof.
  intros (finals & st1 & Hnode & -> & Hpatch)%finalize_Ok s row a ts Hrow Hts Hnone.
  assert (pending (_nfa_state_transitions st) s) as Hpend
    by (exists a, row, ts; done).
  eapply patch_set_pending in Hpend as [Hnfin Hpend]; [|done].
  apply nfa_from_node_Ok in Hnode as [_ Hinv].
  destruct Hpend as (a' & row' & ts' & Hrow' & Hts' & Hnone'). simpl in Hrow'.
  destruct (decide (s = state_name (size (_nfa_states st1)))) as [->|Hne].
  - rewrite lookup_insert_eq in Hrow'. injection Hrow' as <-.
    by rewrite lookup_empty in Hts'.
  - rewrite lookup_insert_ne in Hrow' by done.
    destruct (inv_pending _ _ _ Hinv s) as [?|Hp0]; [by exists a', row', ts'|done|].
    by apply pending_empty in Hp0.
Qed.

Lemma finalize_no_pending_witness :
  ∃ init final st,
    finalize (XsdGroup "all" (0, None)
                [XsdElement "A" (0, Some 1); XsdElement "B" (1, None)])
      = Ok (init, final, st) ∧
    ∀ s row a ts,
      _nfa_state_transitions st !! s = Some row → row !! a = Some ts →
      None ∉ ts.
Proof.
  eexists _, _, _. split; [vm_compute; reflexivity|].
  refine (finalize_no_pending
            (XsdGroup "all" (0, None)
               [XsdElement "A" (0, Some 1); XsdElement "B" (1, None)])
            _ _ _ _).
  vm_compute. reflexivity.
Defined.

(** ** The alphabet of the NFA *)

Lemma used_symbols_spec (tbl : gmap string (gmap string (gset (option string)))) a :
  a ∈ used_symbols tbl ↔ ∃ s row, tbl !! s = Some row ∧ a ∈ dom row.
Proof.
  unfold used_symbols. rewrite elem_of_union_list. split.
  - intros (X & HX & Ha). apply list_elem_of_fmap in HX as (row & -> & Hrow).
    apply list_elem_of_fmap in Hrow as ([s row'] & -> & Hin).
    apply elem_of_map_to_list in Hin. eauto.
  - intros (s & row & Hrow & Ha). exists (dom row). split; [|done].
    apply list_elem_of_fmap. exists row. split; [done|].
    apply list_elem_of_fmap. exists (s, row). split; [done|].
    by apply elem_of_map_to_list.
Qed.

(** When some transition is labelled by the empty string, the alphabet is the
    set of the other symbols used. *)
Lemma build_nfa_alphabet t init final st :
  finalize t = Ok (init, final, st) →
  eps ∈ used_symbols (_nfa_state_transitions st) →
  ∃ nfa, build_nfa t = Ok (nfa, _elements st) ∧
         nfa_transitions nfa = _nfa_state_transitions st ∧
         ∀ a, a ∈ nfa_input_symbols nfa ↔
              a ≠ eps ∧ ∃ s row, _nfa_state_transitions st !! s = Some row ∧
                                  a ∈ dom row.
Proof.
  intros Hfin Heps. unfold build_nfa. rewrite Hfin. simpl.
  unfold set_remove. rewrite decide_True by done. simpl.
  eexists. split_and!; [done..|]. simpl. intros a.
  rewrite elem_of_difference, elem_of_singleton, used_symbols_spec. tauto.
Qed.

(** When none is, [input_symbols.remove("")] raises. *)
Lemma build_nfa_no_epsilon t init final st :
  finalize t = Ok (init, final, st) →
  eps ∉ used_symbols (_nfa_state_transitions st) →
  build_nfa t = Raise KeyError.
Proof.
  intros Hfin Heps. unfold build_nfa. rewrite Hfin. simpl.
  unfold set_remove. by rewrite decide_False by done.
Qed.

Lemma dfa_from_group_build_Raise `{Countable Q} (trap : Q) from_nfa minimize t e :
  build_nfa t = Raise e → dfa_from_group trap from_nfa minimize t = Raise e.
Proof. intros Heq. unfold dfa_from_group. by rewrite Heq. Qed.

(** C2. The tree is a single element with occurrence (1, 1): the builder
    accepts it and the only symbol used by a transition is ["A"]; the
    alphabet step then raises [KeyError] because no transition carries the
    empty string, and so does [dfa_from_group], whatever the libraries do. *)
Theorem alphabet_raises_without_epsilon :
  first_error (XsdElement "A" (1, Some 1)) = None ∧
  (∃ init final st,
     finalize (XsdElement "A" (1, Some 1)) = Ok (init, final, st) ∧
     used_symbols (_nfa_state_transitions st) = {["A"]}) ∧
  build_nfa (XsdElement "A" (1, Some 1)) = Raise KeyError ∧
  ∀ (Q : Type) `(Countable Q) (trap : Q) from_nfa minimize,
    dfa_from_group trap from_nfa minimize (XsdElement "A" (1, Some 1))
      = Raise KeyError.
Proof.
  split_and!.
  - done.
  - eexists _, _, _. split; [vm_compute; reflexivity|]. by vm_compute.
  - by vm_compute.
  - intros. apply dfa_from_group_build_Raise. by vm_compute.
Qed.

(** C1. The tree is the sequence of the elements A and B, the three nodes
    with occurrence (1, 1): the NFA built is q0 --A--> q1 --B--> q2 with q2
    accepting, and [dfa_from_group] raises [KeyError] at the alphabet step
    instead of returning a record, whatever the libraries do. *)
Theorem sequence_AB_raises :
  (∃ st,
     finalize (XsdGroup "sequence" (1, Some 1)
                 [XsdElement "A" (1, Some 1); XsdElement "B" (1, Some 1)])
       = Ok ("q0", "q2", st) ∧
     _nfa_state_transitions st =
       {[ "q0" := {[ "A" := {[ Some "q1" ]} ]};
          "q1" := {[ "B" := {[ Some "q2" ]} ]};
          "q2" := ∅ ]}) ∧
  ∀ (Q : Type) `(Countable Q) (trap : Q) from_nfa minimize,
    dfa_from_group trap from_nfa minimize
      (XsdGroup "sequence" (1, Some 1)
         [XsdElement "A" (1, Some 1); XsdElement "B" (1, Some 1)])
      = Raise KeyError.
Proof.
  split.
  - eexists. split; [vm_compute; reflexivity|]. by vm_compute.
  - intros. apply dfa_from_group_build_Raise. by vm_compute.
Qed.

(** ** Unsupported occurrence pairs *)

Lemma nfa_from_node_unfold t st :
  _nfa_from_node t st =
  base_fragment t st ≫= λ '((init, vacant), st1),
    apply_occurs (occurs t) init vacant st1.
Proof. by destruct t. Qed.

Lemma apply_occurs_unsupported o init vacant st :
  occurs_supported o = false →
  apply_occurs o init vacant st = Raise (NotImplementedError OccursPair).
Proof. by destruct o as [[|[|n]] [[|[|m]]|]]. Qed.

Lemma first_some_elem {A} (l : list (option A)) :
  first_some l = None → ∀ o, o ∈ l → o = None.
Proof. intros Hnone%first_some_None. by apply Forall_forall. Qed.

Lemma elem_of_concat_map {A B} (f : A → list B) (l : list A) (y : B) :
  y ∈ concat (map f l) ↔ ∃ x, x ∈ l ∧ y ∈ f x.
Proof.
  rewrite list_elem_of_In, in_concat. split.
  - intros (ys & Hys & Hy). apply in_map_iff in Hys as (x & <- & Hx).
    exists x. by rewrite !list_elem_of_In.
  - intros (x & Hx & Hy). exists (f x). rewrite in_map_iff. split.
    + exists x. split; [done|]. by apply list_elem_of_In.
    + by apply list_elem_of_In.
Qed.

(** A tree with an unsupported occurrence pair somewhere raises. *)
Lemma first_error_unsupported t n :
  n ∈ nodes t → occurs_supported (occurs n) = false → first_error t ≠ None.
Proof.
  induction t as [name o|model o group IH] using Node_ind; simpl.
  - intros [->|[]%elem_of_nil]%elem_of_cons Hocc. simpl in Hocc.
    unfold occurs_error. by rewrite Hocc.
  - intros [->|Hin]%elem_of_cons Hocc.
    + simpl in Hocc. unfold occurs_error. rewrite Hocc. clear IH.
      destruct (first_some (map first_error group));
        repeat case_decide; try done; by destruct group.
    + apply elem_of_concat_map in Hin as (c & Hc & Hn).
      rewrite Forall_forall in IH. specialize (IH c Hc Hn Hocc).
      assert (first_some (map first_error group) ≠ None) as Hbelow.
      { intros Hnone. apply IH. eapply first_some_elem; [done|].
        apply list_elem_of_fmap. eauto. }
      destruct group as [|c0 group]; [by apply elem_of_nil in Hc|].
      repeat case_decide; try done;
        by destruct (first_some (map first_error (c0 :: group))).
Qed.

Lemma first_some_Some {A} (l : list (option A)) a :
  first_some l = Some a → Some a ∈ l.
Proof.
  induction l as [|[b|] l IH]; simpl; [done| |].
  - intros [= ->]. by left.
  - intros Ha. right. by apply IH.
Qed.

(** The first exception of a walk is the own error of one of the nodes. *)
Lemma first_error_node t e :
  first_error t = Some e → ∃ m, m ∈ nodes t ∧ node_error m = Some e.
Proof.
  induction t as [name o|model o group IH] using Node_ind.
  - intros Herr. exists (XsdElement name o). split; [by left|done].
  - intros Herr.
    destruct (shape_error (XsdGroup model o group)) as [e'|] eqn:Hshape.
    { exists (XsdGroup model o group). split; [by left|].
      unfold node_error. rewrite Hshape. rewrite <- Herr. simpl in *.
      repeat case_decide; try done; by destruct group. }
    destruct (first_some (map first_error group)) as [x|] eqn:Hbelow.
    + assert (x = e) as ->.
      { simpl in Herr, Hshape. rewrite Hbelow in Herr.
        repeat case_decide; try done; destruct group; congruence. }
      apply first_some_Some, list_elem_of_In, in_map_iff in Hbelow
        as (c & Hc & Hin%list_elem_of_In).
      rewrite Forall_forall in IH. destruct (IH c Hin Hc) as (m & Hm & He).
      exists m. split; [|done]. simpl. right.
      apply elem_of_concat_map. eauto.
    + exists (XsdGroup model o group). split; [by left|].
      unfold node_error. rewrite Hshape. rewrite <- Herr. simpl in *.
      rewrite Hbelow. repeat case_decide; try done; by destruct group.
Qed.

(** C5 (as amended). A tree that contains a node whose occurrence pair is not
    one of (1,1), (0,1), (0,unbounded), (1,unbounded) is never turned into a
    record: the fragment construction raises, the same exception whatever the
    state, and so does [dfa_from_group], whatever the libraries.  The
    exception is [first_error t], the first one a depth-first walk meets: it
    is the own error of one of the nodes of the tree, and it is the "pair not
    supported" [NotImplementedError] whenever no group of the tree is a
    sequence or an "all" group without children or has an unknown model.  At
    the offending node it is the "pair not supported" error as soon as the
    fragment of the node itself is built, since the pair is only looked at
    after that. *)
Theorem unsupported_occurs_raises t n :
  n ∈ nodes t → occurs_supported (occurs n) = false →
  (∃ e, first_error t = Some e ∧
        (∃ m, m ∈ nodes t ∧ node_error m = Some e) ∧
        ((∀ m, m ∈ nodes t → shape_error m = None) →
         e = NotImplementedError OccursPair) ∧
        (∀ st, _nfa_from_node t st = Raise e) ∧
        ∀ (Q : Type) `(Countable Q) (trap : Q) from_nfa minimize,
          dfa_from_group trap from_nfa minimize t = Raise e) ∧
  (∀ st fr st1, base_fragment n st = Ok (fr, st1) →
                _nfa_from_node n st = Raise (NotImplementedError OccursPair)).
Proof.
  intros Hn Hocc. split.
  - destruct (first_error t) as [e|] eqn:Herr;
      [|by destruct (first_error_unsupported t n)].
    exists e. destruct (first_error_node t e Herr) as (m & Hm & He).
    split_and!; [done|by exists m| | |].
    + intros Hshape. unfold node_error in He. rewrite (Hshape m Hm) in He.
      unfold occurs_error in He.
      destruct (occurs_supported (occurs m)); congruence.
    + intros st. by apply nfa_from_node_Raise.
    + intros. apply dfa_from_group_build_Raise. unfold build_nfa, finalize.
      by rewrite (proj2 (nfa_from_node_Raise t _ e)).
  - intros st [init vacant] st1 Hbase. rewrite nfa_from_node_unfold, Hbase.
    simpl. by apply apply_occurs_unsupported.
Qed.

(** For a choice of A and B, with B of occurrence (2, 3): whatever the state
    and the libraries, the build raises the "pair not supported" error. *)
Lemma unsupported_occurs_raises_witness :
  first_error (XsdGroup "choice" (1, Some 1)
                 [XsdElement "A" (1, Some 1); XsdElement "B" (2, Some 3)])
  = Some (NotImplementedError OccursPair) ∧
  (∀ st, _nfa_from_node
           (XsdGroup "choice" (1, Some 1)
              [XsdElement "A" (1, Some 1); XsdElement "B" (2, Some 3)]) st
         = Raise (NotImplementedError OccursPair)) ∧
  (∀ (Q : Type) `(Countable Q) (trap : Q) from_nfa minimize,
     dfa_from_group trap from_nfa minimize
       (XsdGroup "choice" (1, Some 1)
          [XsdElement "A" (1, Some 1); XsdElement "B" (2, Some 3)])
     = Raise (NotImplementedError OccursPair)) ∧
  (∀ st fr st1, base_fragment (XsdElement "B" (2, Some 3)) st = Ok (fr, st1) →
                _nfa_from_node (XsdElement "B" (2, Some 3)) st
                = Raise (NotImplementedError OccursPair)).
Proof.
  destruct (unsupported_occurs_raises
              (XsdGroup "choice" (1, Some 1)
                 [XsdElement "A" (1, Some 1); XsdElement "B" (2, Some 3)])
              (XsdElement "B" (2, Some 3)))
    as [(e & Herr & _ & Hshape & Hnode & Hbuild) Hbase].
  - vm_compute. do 2 right. left.
  - reflexivity.
  - assert (e = NotImplementedError OccursPair) as ->; [|done].
    apply Hshape. intros m Hm. simpl in Hm.
    repeat (apply elem_of_cons in Hm as [->|Hm]; [done|]).
    by apply elem_of_nil in Hm.
Defined.

(** C5 as stated fails: an empty sequence with occurrence (2, 3) raises
    [IndexError], from the subscript [t._group[0]], before the occurrence
    pair is looked at. *)
Lemma empty_sequence_raises_IndexError :
  occurs_supported (2, Some 3) = false ∧
  (∀ st, _nfa_from_node (XsdGroup "sequence" (2, Some 3) []) st = Raise IndexError) ∧
  ∀ (Q : Type) `(Countable Q) (trap : Q) from_nfa minimize,
    dfa_from_group trap from_nfa minimize (XsdGroup "sequence" (2, Some 3) [])
      = Raise IndexError.
Proof.
  split_and!; [done|done|]. intros. by apply dfa_from_group_build_Raise.
Qed.

(** ** The fragments of an "all" group *)

Lemma all_loop_trace perms x vacants st :
  Forall (λ p, p ≠ [] ∧ Forall (builder_ok None) p) perms →
  ∃ frs st',
    all_loop perms x vacants st = Ok ((x, vacants ∪ ⋃ frs.*2), st') ∧
    length frs = length perms ∧
    all_trace x perms st frs st' ∧
    (∀ fr, fr ∈ frs → has_edge (_nfa_state_transitions st') x eps (Some fr.1)) ∧
    (∀ s a q, has_edge (_nfa_state_transitions st) s a (Some q) →
              has_edge (_nfa_state_transitions st') s a (Some q)).
Proof.
  intros Hperms. revert vacants st.
  induction Hperms as [|p perms [Hne Hp] _ IH]; intros vacants st; simpl.
  - exists [], st. split_and!; try done.
    + simpl. by rewrite (right_id_L ∅ (∪)).
    + constructor.
    + by intros fr ?%elem_of_nil.
  - apply Forall_builder_ok_None in Hp as (errs & Hp & Hnone).
    pose proof (sequence_ok errs p Hp st) as Hseq. rewrite Hnone in Hseq.
    destruct (_nfa_from_sequence p st) as [[[init vacant] st1]|y] eqn:Hrun.
    2:{ by destruct p. }
    assert (frag_inv st (init, vacant) st1) as Hinv by (by destruct p, Hseq).
    destruct (IH (vacants ∪ vacant) (_add_transition x eps (Some init) st1))
      as (frs & st' & Hloop & Hlen & Htrace & Hjoin & Hkeep).
    exists ((init, vacant) :: frs), st'. simpl. split_and!.
    + rewrite Hloop. simpl. by rewrite (assoc_L (∪)).
    + by rewrite Hlen.
    + by econstructor.
    + intros fr [->|Hfr]%elem_of_cons; [|by apply Hjoin].
      apply Hkeep. simpl. apply has_edge_add_edge. by left.
    + intros s a q Hq. apply Hkeep. simpl. apply has_edge_add_edge. right.
      by apply (inv_concrete _ _ _ Hinv).
Qed.

(** C6 (as amended). For an "all" group with n >= 1 children, none of which
    raises, [_nfa_from_all] allocates one branch state [x], fresh for the
    state set, and runs the sequence rule once for each of the n! permutations
    of the children, in the order [permutations] lists them; each fragment is
    joined to [x] by an epsilon transition that is still there at the end, and
    the fragment returned is [x] with the union of the vacant sets. *)
Theorem nfa_from_all_permutations (group : list Node) (st : builder_state) :
  group ≠ [] →
  Forall (λ c, first_error c = None) group →
  ∃ frs st',
    _nfa_from_all (map _nfa_from_node group) st
      = Ok (((_new_state st).1, ⋃ frs.*2), st') ∧
    length frs = fact (length group) ∧
    all_trace (_new_state st).1
              (map (map _nfa_from_node) (permutations group))
              (_new_state st).2 frs st' ∧
    (∀ fr, fr ∈ frs →
           has_edge (_nfa_state_transitions st') (_new_state st).1 eps (Some fr.1)) ∧
    (build_state st → (_new_state st).1 ∉ _nfa_states st).
Proof.
  intros Hne Hkids.
  assert (Forall (λ p, p ≠ [] ∧ Forall (builder_ok None) p)
                 (map (map _nfa_from_node) (permutations group))) as Hperms.
  { apply Forall_forall. intros p Hp.
    apply list_elem_of_fmap in Hp as (p' & -> & Hp'%permutations_perm). split.
    - destruct p'; [|done]. by apply Permutation_nil_l in Hp'.
    - apply Forall_forall. intros b Hb.
      apply list_elem_of_fmap in Hb as (c & -> & Hc). rewrite Hp' in Hc.
      rewrite Forall_forall in Hkids. rewrite <- (Hkids c Hc).
      apply nfa_from_node_ok. }
  destruct (all_loop_trace _ (_new_state st).1 ∅ (_new_state st).2 Hperms)
    as (frs & st' & Hloop & Hlen & Htrace & Hjoin & _).
  exists frs, st'. split_and!; try done.
  - unfold _nfa_from_all. simpl. rewrite permutations_map.
    simpl in Hloop. rewrite Hloop. by rewrite (left_id_L ∅ (∪)).
  - by rewrite Hlen, length_map, length_permutations.
  - intros [n Hn]. by apply (allocated_fresh n).
Qed.

Lemma nfa_from_all_permutations_witness :
  ∃ frs st',
    _nfa_from_all
      (map _nfa_from_node [XsdElement "A" (1, Some 1); XsdElement "B" (0, Some 1)])
      initial_builder_state
      = Ok (((_new_state initial_builder_state).1, ⋃ frs.*2), st') ∧
    length frs = fact (length [XsdElement "A" (1, Some 1); XsdElement "B" (0, Some 1)]) ∧
    all_trace (_new_state initial_builder_state).1
              (map (map _nfa_from_node)
                   (permutations [XsdElement "A" (1, Some 1); XsdElement "B" (0, Some 1)]))
              (_new_state initial_builder_state).2 frs st' ∧
    (∀ fr, fr ∈ frs →
           has_edge (_nfa_state_transitions st')
                    (_new_state initial_builder_state).1 eps (Some fr.1)) ∧
    (build_state initial_builder_state →
     (_new_state initial_builder_state).1 ∉ _nfa_states initial_builder_state).
Proof.
  apply (nfa_from_all_permutations
           [XsdElement "A" (1, Some 1); XsdElement "B" (0, Some 1)]
           initial_builder_state).
  - discriminate.
  - repeat constructor.
Defined.

(** C6 as stated fails for n = 0: the one permutation of an empty child list
    is the empty tuple, and the sequence rule raises [IndexError] on it, so no
    fragment is built or returned although 0! = 1. *)
Lemma empty_all_group_raises :
  length (permutations ([] : list Node)) = 1 ∧
  (∀ st, _nfa_from_all (map _nfa_from_node []) st = Raise IndexError) ∧
  (∀ st, _nfa_from_node (XsdGroup "all" (1, Some 1) []) st = Raise IndexError).
Proof. done. Qed.

(** ** The canonical record *)

Section canonical_props.
Context {Q : Type} `{Countable Q}.
Variable trap : Q.
Implicit Types m : gmap Q nat.

Lemma enumerate_from_notin v ks m q :
  q ∉ ks → enumerate_from v ks m !! q = m !! q.
Proof.
  revert v m. induction ks as [|k ks IH]; intros v m Hq; simpl; [done|].
  apply not_elem_of_cons in Hq as [Hne Hq]. rewrite IH by done.
  by rewrite lookup_insert_ne.
Qed.

Lemma enumerate_from_elem v ks m q i :
  enumerate_from v ks m !! q = Some i → q ∈ ks ∨ m !! q = Some i.
Proof.
  destruct (decide (q ∈ ks)); [by left|]. rewrite enumerate_from_notin by done.
  by right.
Qed.

Lemma enumerate_from_lookup v ks m q j :
  NoDup ks → ks !! j = Some q → enumerate_from v ks m !! q = Some (v + j).
Proof.
  intros Hnd. revert v m j.
  induction Hnd as [|k ks Hk _ IH]; intros v m j; simpl; [done|].
  destruct j as [|j]; simpl.
  - intros [= ->]. rewrite enumerate_from_notin by done.
    rewrite lookup_insert_eq. f_equal. lia.
  - intros Hj. rewrite (IH _ _ j) by done. f_equal. lia.
Qed.

Lemma subscript_Ok m x v : subscript m x = Ok v ↔ m !! x = Some v.
Proof.
  unfold subscript. destruct (m !! x); split; try done; congruence.
Qed.

Lemma ids_of_Ok m xs acc ids :
  ids_of trap m xs acc = Ok ids →
  ∀ i, i ∈ ids ↔ i ∈ acc ∨ ∃ x, x ∈ xs ∧ x ≠ trap ∧ m !! x = Some i.
Proof.
  revert acc. induction xs as [|x xs IH]; intros acc; simpl.
  - intros [= <-] i. split; [by left|]. intros [?|(x & []%elem_of_nil & _)]. done.
  - case_decide as Hx.
    + intros Hrest i. rewrite (IH _ Hrest). split.
      * intros [?|(y & Hy & ? & ?)]; [by left|]. right. exists y.
        split; [by right|done].
      * intros [?|(y & [->|Hy]%elem_of_cons & Hne & ?)]; [by left|done|].
        right. eauto.
    + intros (v & Hv%subscript_Ok & Hrest)%bind_Ok i. rewrite (IH _ Hrest).
      rewrite elem_of_union, elem_of_singleton. split.
      * intros [[->|?]|(y & Hy & ? & ?)]; [|by left|].
        -- right. exists x. split; [by left|done].
        -- right. exists y. split; [by right|done].
      * intros [?|(y & [->|Hy]%elem_of_cons & Hne & Hi)]; [by left; right| |].
        -- left. left. congruence.
        -- right. eauto.
Qed.


Lemma table_of_Ok m delta alphabet qs acc tbl :
  table_of trap m delta alphabet qs acc = Ok tbl →
  ∀ v row, tbl !! v = Some row →
           acc !! v = Some row ∨
           ∃ q, q ∈ qs ∧ q ≠ trap ∧ m !! q = Some v ∧
                row_of trap m delta q alphabet ∅ = Ok row.
Proof.
  revert acc. induction qs as [|q qs IH]; intros acc; simpl.
  - intros [= <-] v row ?. by left.
  - case_decide as Htrap.
    + intros Hrest v row Hv.
      destruct (IH _ Hrest v row Hv) as [?|(q' & ? & ?)]; [by left|].
      right. exists q'. split; [by right|done].
    + intros (v0 & Hv0%subscript_Ok & Hrest)%bind_Ok.
      apply bind_Ok in Hrest as (row0 & Hrow0 & Hrest).
      intros v row Hv.
      destruct (IH _ Hrest v row Hv) as [Hacc|(q' & ? & ?)].
      * destruct (decide (v = v0)) as [->|Hne].
        -- rewrite lookup_insert_eq in Hacc. injection Hacc as <-.
           right. exists q. split; [by left|done].
        -- rewrite lookup_insert_ne in Hacc by done. by left.
      * right. exists q'. split; [by right|done].
Qed.

Lemma canonical_Ok pdfa els out :
  canonical trap pdfa els = Ok out →
  let m := enumerate_from 0 (pdfa_states pdfa) ∅ in
  ids_of trap m (pdfa_states pdfa) ∅ = Ok (out_states out) ∧
  subscript m (pdfa_start pdfa) = Ok (out_start out) ∧
  ids_of trap m (pdfa_accepts pdfa) ∅ = Ok (out_accepts out) ∧
  table_of trap m (pdfa_delta pdfa) (pdfa_alphabet pdfa) (pdfa_states pdfa) ∅
    = Ok (out_transitions out) ∧
  out_elements out = els.
Proof.
  unfold canonical. intros (states & Hstates & Hrest)%bind_Ok.
  apply bind_Ok in Hrest as (start & Hstart & Hrest).
  apply bind_Ok in Hrest as (accepts & Haccepts & Hrest).
  apply bind_Ok in Hrest as (transitions & Htrans & [= <-]). done.
Qed.


(** The ids of the states are their positions in [pdfa.states], the trap
    counted. *)
Lemma canonical_states pdfa els out :
  NoDup (pdfa_states pdfa) →
  canonical trap pdfa els = Ok out →
  ∀ i, i ∈ out_states out ↔ ∃ q, pdfa_states pdfa !! i = Some q ∧ q ≠ trap.
Proof.
  intros Hnd (Hstates & _)%canonical_Ok i.
  rewrite (ids_of_Ok _ _ _ _ Hstates). split.
  - intros [[]%not_elem_of_empty|(x & Hx & Hne & Hi)].
    apply list_elem_of_lookup in Hx as [j Hj].
    rewrite (enumerate_from_lookup 0 _ _ x j) in Hi by done.
    injection Hi as <-. eauto.
  - intros (q & Hq & Hne). right. exists q. split_and!; try done.
    + by eapply list_elem_of_lookup_2.
    + by rewrite (enumerate_from_lookup 0 _ _ q i).
Qed.

Lemma canonical_states_dense pdfa els out :
  NoDup (pdfa_states pdfa) →
  canonical trap pdfa els = Ok out →
  (trap ∉ pdfa_states pdfa →
   out_states out = set_seq 0 (length (pdfa_states pdfa))) ∧
  (∀ l, pdfa_states pdfa = l ++ [trap] → out_states out = set_seq 0 (length l)).
Proof.
  intros Hnd Hcan. pose proof (canonical_states _ _ _ Hnd Hcan) as Hids. split.
  - intros Htrap. apply set_eq. intros i. rewrite Hids, elem_of_set_seq. split.
    + intros (q & Hq%lookup_lt_Some & _). lia.
    + intros [_ Hi]. apply lookup_lt_is_Some in Hi as [q Hq]. exists q.
      split; [done|]. intros ->. apply Htrap. by eapply list_elem_of_lookup_2.
  - intros l Hl. apply set_eq. intros i. rewrite Hids, elem_of_set_seq.
    rewrite Hl in *. split.
    + intros (q & Hq & Hne). split; [lia|]. simpl.
      destruct (decide (i < length l)); [done|].
      rewrite lookup_app_r in Hq by lia.
      destruct (i - length l); simpl in Hq; [congruence|done].
    + intros [_ Hi]. simpl in Hi. rewrite lookup_app_l by done.
      apply lookup_lt_is_Some in Hi as [q Hq]. exists q. split; [done|].
      intros ->. apply NoDup_app in Hnd as (_ & Hdisj & _).
      apply (Hdisj trap); [by eapply list_elem_of_lookup_2|by left].
Qed.
End canonical_props.

Lemma dfa_from_group_Ok `{Countable Q} (trap : Q) from_nfa minimize t out :
  dfa_from_group trap from_nfa minimize t = Ok out →
  ∃ nfa els pdfa,
    build_nfa t = Ok (nfa, els) ∧
    minimal_pdfa from_nfa minimize nfa = Ok pdfa ∧
    canonical trap pdfa els = Ok out.
Proof.
  unfold dfa_from_group. intros ([nfa els] & Hbuild & Hrest)%bind_Ok.
  apply bind_Ok in Hrest as (pdfa & Hmin & Hcan). eauto 10.
Qed.



(** C8 (as amended). On every input for which [dfa_from_group] returns a
    record, with the states of the minimized DFA pairwise distinct,
    [out["states"]] is the set of the positions the non-trap states have in
    the enumeration of all the states of the minimized DFA, the trap counted.
    It is [{0, ..., k-1}] when the trap is not among the states or comes
    last. *)
Theorem state_ids_are_positions `{Countable Q} (trap : Q) from_nfa minimize t out :
  dfa_from_group trap from_nfa minimize t = Ok out →
  ∃ nfa els pdfa,
    build_nfa t = Ok (nfa, els) ∧
    minimal_pdfa from_nfa minimize nfa = Ok pdfa ∧
    (NoDup (pdfa_states pdfa) →
     (∀ i, i ∈ out_states out ↔ ∃ q, pdfa_states pdfa !! i = Some q ∧ q ≠ trap) ∧
     (trap ∉ pdfa_states pdfa →
      out_states out = set_seq 0 (length (pdfa_states pdfa))) ∧
     (∀ l, pdfa_states pdfa = l ++ [trap] →
           out_states out = set_seq 0 (length l))).
Proof.
  intros (nfa & els & pdfa & Hbuild & Hmin & Hcan)%dfa_from_group_Ok.
  exists nfa, els, pdfa. split_and!; try done. intros Hnd. split.
  - by eapply canonical_states.
  - by eapply canonical_states_dense.
Qed.

Lemma state_ids_are_positions_witness :
  ∃ out,
    dfa_from_group_model
      (XsdGroup "sequence" (1, Some 1)
         [XsdElement "A" (1, Some 1); XsdElement "B" (0, Some 1)]) = Ok out ∧
    ∃ nfa els pdfa,
      build_nfa (XsdGroup "sequence" (1, Some 1)
                   [XsdElement "A" (1, Some 1); XsdElement "B" (0, Some 1)])
        = Ok (nfa, els) ∧
      minimal_pdfa DFA_from_nfa pDFA_minimize nfa = Ok pdfa ∧
      (NoDup (pdfa_states pdfa) →
       (∀ i, i ∈ out_states out ↔ ∃ q, pdfa_states pdfa !! i = Some q ∧ q ≠ ∅) ∧
       (∅ ∉ pdfa_states pdfa →
        out_states out = set_seq 0 (length (pdfa_states pdfa))) ∧
       (∀ l, pdfa_states pdfa = l ++ [∅] →
             out_states out = set_seq 0 (length l))).
Proof.
  eexists. split; [vm_compute; reflexivity|].
  refine (state_ids_are_positions (∅ : gset string) DFA_from_nfa pDFA_minimize
            (XsdGroup "sequence" (1, Some 1)
               [XsdElement "A" (1, Some 1); XsdElement "B" (0, Some 1)]) _ _).
  vm_compute. reflexivity.
Defined.

(** C8 as stated fails: the ids are positions in the enumeration of all
    states, so a trap that is not enumerated last leaves a gap.  For the
    sequence of A and an optional B the record has the three states 0, 1 and
    3, both with the libraries as modelled here and for the same automaton
    with string labels and the trap labelled ["{}"]. *)
Lemma state_ids_not_dense :
  (∃ out,
     dfa_from_group_model
       (XsdGroup "sequence" (1, Some 1)
          [XsdElement "A" (1, Some 1); XsdElement "B" (0, Some 1)]) = Ok out ∧
     out_states out = {[0; 1; 3]} ∧
     out_states out ≠ set_seq 0 (size (out_states out))) ∧
  (∃ out,
     canonical "{}" ab_pdfa ∅ = Ok out ∧
     out_states out = {[0; 1; 3]} ∧
     out_states out ≠ set_seq 0 (size (out_states out))).
Proof.
  split; eexists; (split; [vm_compute; reflexivity|]); split;
    try (by vm_compute); by apply (bool_decide_eq_false_1 _).
Qed.

(** ** The tree is left as it was found *)

Lemma view_cons_Some children i p c :
  children !! i = Some c → view children (i :: p) = c :: view children p.
Proof. intros Hc. unfold view. simpl. by rewrite Hc. Qed.

Lemma view_total d children p :
  Forall (λ i, i < length children) p →
  view children p = map (λ i, default d (children !! i)) p.
Proof.
  induction 1 as [|i p Hi _ IH]; [done|].
  apply lookup_lt_is_Some in Hi as [c Hc].
  rewrite (view_cons_Some _ _ _ c) by done. simpl. by rewrite Hc, IH.
Qed.

Lemma map_lookup_seq d (l : list Node) :
  map (λ i, default d (l !! i)) (seq 0 (length l)) = l.
Proof.
  induction l as [|x l IH]; [done|]. simpl. f_equal.
  rewrite <- seq_shift, map_map. simpl. done.
Qed.

Lemma view_seq children : view children (seq 0 (length children)) = children.
Proof.
  rewrite (view_total (XsdElement EmptyString (0, None))).
  - apply map_lookup_seq.
  - apply Forall_forall. intros i Hi%list_elem_of_In%in_seq. lia.
Qed.

Lemma positions_valid n p : p ≡ₚ seq 0 n → Forall (λ i, i < n) p.
Proof.
  intros Hp. apply Forall_forall. intros i Hi. rewrite Hp in Hi.
  apply list_elem_of_In, in_seq in Hi. lia.
Qed.

Lemma view_perm children p :
  p ≡ₚ seq 0 (length children) → view children p ≡ₚ children.
Proof.
  intros Hp. rewrite <- (view_seq children) at 2. unfold view. by rewrite Hp.
Qed.

Lemma write_back_view children p :
  Forall (λ i, i < length children) p →
  write_back p (view children p) children = children.
Proof.
  induction 1 as [|i p Hi _ IH]; [done|].
  apply lookup_lt_is_Some in Hi as [c Hc].
  rewrite (view_cons_Some _ _ _ c) by done. simpl.
  by rewrite list_insert_id.
Qed.

(** The permutations of the child list, as the views of the list through the
    permutations of its positions. *)
Lemma permutations_view children :
  map (view children) (permutations (seq 0 (length children)))
  = permutations children.
Proof.
  set (d := XsdElement EmptyString (0, None)).
  rewrite <- (map_lookup_seq d children) at 3. rewrite permutations_map.
  apply map_ext_in. intros p Hp%list_elem_of_In%permutations_perm.
  apply view_total. by apply positions_valid.
Qed.

Lemma height_child model o group c :
  c ∈ group → height c < height (XsdGroup model o group).
Proof.
  simpl. induction group as [|c' group IH]; [by intros ?%elem_of_nil|].
  intros [->|Hc]%elem_of_cons; simpl; [lia|]. specialize (IH Hc). lia.
Qed.

Section mutable_props.
Variable run : Node → builder_state → option (Node * outcome).

(** The children of the group at hand: on them the recursive call hands the
    node back as it was and returns what [_nfa_from_node] returns. *)
Variable family : list Node.
Hypothesis run_family :
  ∀ c st, c ∈ family → run c st = Some (c, _nfa_from_node c st).

Lemma m_sequence_loop_eq rest init vacant st :
  rest ⊆ family →
  m_sequence_loop run rest init vacant st
  = Some (rest, sequence_loop (map _nfa_from_node rest) init vacant st).
Proof using run_family.
  revert init vacant st. induction rest as [|e rest IH]; intros init vacant st Hsub;
    simpl; [done|].
  rewrite run_family by (apply Hsub; by left).
  destruct (_nfa_from_node e st) as [[[init2 vacant2] st1]|x]; simpl; [|done].
  destruct (patch_set vacant init2 st1) as [st2|x]; simpl; [|done].
  rewrite IH; [done|]. intros c Hc. apply Hsub. by right.
Qed.

Lemma m_nfa_from_sequence_eq group st :
  group ⊆ family →
  m_nfa_from_sequence run group st
  = Some (group, _nfa_from_sequence (map _nfa_from_node group) st).
Proof using run_family.
  destruct group as [|first rest]; intros Hsub; simpl; [done|].
  rewrite run_family by (apply Hsub; by left).
  destruct (_nfa_from_node first st) as [[[init vacant] st1]|x]; simpl; [|done].
  rewrite m_sequence_loop_eq; [done|]. intros c Hc. apply Hsub. by right.
Qed.

Lemma m_choice_loop_eq group x vacants st :
  group ⊆ family →
  m_choice_loop run group x vacants st
  = Some (group, choice_loop (map _nfa_from_node group) x vacants st).
Proof using run_family.
  revert vacants st. induction group as [|e rest IH]; intros vacants st Hsub;
    simpl; [done|].
  rewrite run_family by (apply Hsub; by left).
  destruct (_nfa_from_node e st) as [[[init vacant] st1]|y]; simpl; [|done].
  rewrite IH; [done|]. intros c Hc. apply Hsub. by right.
Qed.

Lemma m_nfa_from_choice_eq group st :
  group ⊆ family →
  m_nfa_from_choice run group st
  = Some (group, _nfa_from_choice (map _nfa_from_node group) st).
Proof using run_family.
  intros Hsub. unfold m_nfa_from_choice, _nfa_from_choice. simpl.
  by apply m_choice_loop_eq.
Qed.

(** When no child raises, no permutation does, and [t._group] is
    [original_group] again after the loop. *)
Lemma m_all_loop_eq perms x vacants st :
  family ≠ [] →
  Forall (λ c, first_error c = None) family →
  Forall (λ p, p ≡ₚ seq 0 (length family)) perms →
  m_all_loop run perms family x vacants st
  = Some (family,
          all_loop (map (map _nfa_from_node) (map (view family) perms))
                   x vacants st).
Proof using run_family.
  intros Hne Hfine Hperms. revert vacants st.
  induction Hperms as [|p perms Hp _ IH]; intros vacants st; simpl; [done|].
  pose proof (view_perm _ _ Hp) as Hview.
  rewrite m_nfa_from_sequence_eq by (intros c Hc; by rewrite Hview in Hc).
  assert (Forall2 builder_ok (map first_error (view family p))
                  (map _nfa_from_node (view family p))) as Hkids.
  { clear. induction (view family p); simpl; constructor; [|done].
    apply nfa_from_node_ok. }
  pose proof (sequence_ok _ _ Hkids st) as Hseq.
  assert (first_some (map first_error (view family p)) = None) as Hnone.
  { apply first_some_None, Forall_forall. intros o Ho.
    apply list_elem_of_fmap in Ho as (c & -> & Hc). rewrite Hview in Hc.
    by apply (proj1 (Forall_forall _ _) Hfine). }
  rewrite Hnone in Hseq.
  destruct (_nfa_from_sequence (map _nfa_from_node (view family p)) st)
    as [[[init vacant] st1]|y]; simpl.
  - rewrite write_back_view by (by apply positions_valid). apply IH.
  - destruct (view family p) eqn:Hv; simpl in Hseq; [|done].
    by apply Permutation_nil_l in Hview.
Qed.

Lemma m_nfa_from_all_eq st :
  m_nfa_from_all run family st
  = Some (family, _nfa_from_all (map _nfa_from_node family) st).
Proof using run_family.
  unfold m_nfa_from_all, _nfa_from_all. simpl.
  set (x := state_name _). set (st0 := BuilderState _ _ _).
  assert (Forall2 builder_ok (map first_error family)
                  (map _nfa_from_node family)) as Hkids.
  { clear. induction family; simpl; constructor; [|done].
    apply nfa_from_node_ok. }
  destruct (first_some (map first_error family)) as [e|] eqn:Herr;
    [|destruct (decide (family = [])) as [Hnil|Hne]].
  - (* a child raises: the first permutation, the list itself, raises *)
    destruct (permutations_head (seq 0 (length family))) as [tl ->].
    destruct (permutations_head (map _nfa_from_node family)) as [tl' ->].
    simpl. rewrite view_seq, m_nfa_from_sequence_eq by done.
    pose proof (sequence_ok _ _ Hkids st0) as Hseq. rewrite Herr in Hseq.
    destruct (_nfa_from_sequence (map _nfa_from_node family) st0)
      as [[[init vacant] st1]|y]; simpl; [|done].
    by destruct family, Hseq.
  - (* no child at all: the empty tuple raises *)
    by rewrite Hnil.
  - rewrite m_all_loop_eq; try done.
    + by rewrite permutations_view, permutations_map.
    + apply Forall_forall. intros o Ho. apply first_some_None in Herr.
      rewrite Forall_forall in Herr. apply Herr, list_elem_of_fmap. eauto.
    + apply Forall_forall. intros p Hp. by apply permutations_perm.
Qed.

Lemma m_group_fragment_eq model st :
  m_group_fragment run model family st
  = Some (family, group_fragment model (map _nfa_from_node family) st).
Proof using run_family.
  unfold m_group_fragment, group_fragment. repeat case_decide; try done.
  - by apply m_nfa_from_sequence_eq.
  - by apply m_nfa_from_choice_eq.
  - by apply m_nfa_from_all_eq.
Qed.
End mutable_props.

(** C9. A call of [_nfa_from_node] hands the tree back as it found it,
    whether it returns or raises, and returns or raises what the construction
    on an immutable tree does; this holds for every state of the shared
    collections and as soon as the recursion depth allowed exceeds the height
    of the tree.  The tree is touched nowhere else in [dfa_from_group]. *)
Theorem tree_unchanged fuel t st :
  height t < fuel →
  run_node fuel t st = Some (t, _nfa_from_node t st).
Proof.
  revert t st. induction fuel as [|fuel IH]; intros t st Hfuel; [lia|].
  simpl. unfold m_nfa_from_node. destruct t as [name o|model o group].
  - by rewrite nfa_from_node_unfold.
  - rewrite (m_group_fragment_eq (run_node fuel) group).
    + by rewrite nfa_from_node_unfold.
    + intros c st' Hc. apply IH.
      pose proof (height_child model o group c Hc). lia.
Qed.

Lemma tree_unchanged_witness :
  run_node 3
    (XsdGroup "all" (0, None)
       [XsdElement "A" (1, Some 1);
        XsdGroup "all" (1, Some 1)
          [XsdElement "B" (0, Some 1); XsdElement "C" (2, Some 3)]])
    initial_builder_state
  = Some (XsdGroup "all" (0, None)
            [XsdElement "A" (1, Some 1);
             XsdGroup "all" (1, Some 1)
               [XsdElement "B" (0, Some 1); XsdElement "C" (2, Some 3)]],
          _nfa_from_node
            (XsdGroup "all" (0, None)
               [XsdElement "A" (1, Some 1);
                XsdGroup "all" (1, Some 1)
                  [XsdElement "B" (0, Some 1); XsdElement "C" (2, Some 3)]])
            initial_builder_state).
Proof.
  apply (tree_unchanged 3
           (XsdGroup "all" (0, None)
              [XsdElement "A" (1, Some 1);
               XsdGroup "all" (1, Some 1)
                 [XsdElement "B" (0, Some 1); XsdElement "C" (2, Some 3)]])
           initial_builder_state).
  simpl. lia.
Defined.

(** ** Bounded iteration reaches its answer *)

Section iterate.
Context {A B : Type}.
Variable step : A → A + B.
(** An invariant of the work state, and a measure every step decreases. *)
Variable I : A → Prop.
Variable μ : A → nat.
Hypothesis step_inl : ∀ a a', I a → step a = inl a' → I a' ∧ μ a' < μ a.

Lemma iterate_progress n a :
  I a →
  (∃ b a', iterate step n a = inr b ∧ I a' ∧ step a' = inr b) ∨
  (∃ a', iterate step n a = inl a' ∧ I a' ∧ μ a' + 2 ^ n ≤ μ a).
Proof using step_inl.
  revert a. induction n as [|n IH]; intros a Ha; simpl.
  - destruct (step a) as [a'|b] eqn:Hstep.
    + right. destruct (step_inl a a' Ha Hstep). exists a'. split_and!; (done || lia).
    + left. eauto.
  - destruct (IH a Ha) as [(b & a' & -> & ?)|(a' & -> & Ha' & Hμ)]; [left; eauto|].
    destruct (IH a' Ha') as [(b & a'' & -> & ?)|(a'' & -> & Ha'' & Hμ')];
      [left; eauto|].
    right. exists a''. split_and!; (done || lia).
Qed.

Lemma iterate_finishes n a :
  I a → μ a < 2 ^ n →
  ∃ b a', iterate step n a = inr b ∧ I a' ∧ step a' = inr b.
Proof using step_inl.
  intros Ha Hμ. destruct (iterate_progress n a Ha) as [?|(a' & _ & _ & ?)]; [done|lia].
Qed.
End iterate.

(** ** Counting sets *)

Lemma length_filter_split {A} (P : A → Prop) `{∀ x, Decision (P x)} (l : list A) :
  length (filter P l) + length (filter (λ x, ¬ P x) l) = length l.
Proof.
  induction l as [|x l IH]; [done|].
  rewrite !filter_cons. destruct (decide (P x)), (decide (¬ P x)); simpl; try done; lia.
Qed.

(** There are at most [2 ^ size U] different subsets of [U]. *)
Lemma length_subsets (U : gset string) (l : list (gset string)) :
  NoDup l → (∀ X, X ∈ l → X ⊆ U) → length l ≤ 2 ^ size U.
Proof.
  revert l. induction U as [|x U Hx IH] using set_ind_L; intros l Hnd Hsub.
  - rewrite size_empty. simpl. destruct l as [|X [|Y l]]; simpl; [lia..|].
    assert (X = ∅) as -> by (apply set_eq; intros y; specialize (Hsub X); set_solver).
    assert (Y = ∅) as -> by (apply set_eq; intros y; specialize (Hsub Y); set_solver).
    apply NoDup_cons in Hnd as [Hnd _]. destruct Hnd. by left.
  - rewrite size_union, size_singleton by set_solver.
    rewrite <- (length_filter_split (λ X, x ∈ X) l).
    assert (length (filter (λ X, x ∈ X) l) ≤ 2 ^ size U) as H1.
    { rewrite <- (length_fmap (λ X, X ∖ {[x]})). apply IH.
      - apply NoDup_fmap_2_strong; [|by apply NoDup_filter].
        intros X Y [HX _]%list_elem_of_filter [HY _]%list_elem_of_filter Heq.
        apply set_eq. intros y. destruct (decide (y = x)) as [->|]; [done|].
        assert (y ∈ X ∖ {[x]} ↔ y ∈ Y ∖ {[x]}) by (by rewrite Heq). set_solver.
      - intros X' (X & -> & [_ HX]%list_elem_of_filter)%list_elem_of_fmap.
        specialize (Hsub X HX). set_solver. }
    assert (length (filter (λ X, ¬ x ∈ X) l) ≤ 2 ^ size U) as H2.
    { apply IH; [by apply NoDup_filter|].
      intros X [HxX HX]%list_elem_of_filter. specialize (Hsub X HX). set_solver. }
    simpl. lia.
Qed.

(** ** Epsilon closure *)

Section closure.
Variable nfa : NFA.

Lemma nfa_targets_all s a : nfa_targets nfa s a ⊆ nfa_all_targets nfa.
Proof.
  unfold nfa_targets, nfa_all_targets.
  destruct (nfa_transitions nfa !! s) as [row|] eqn:Hs; [|set_solver].
  destruct (row !! a) as [ts|] eqn:Ha; [|set_solver].
  intros q Hq. apply elem_of_union_list. eexists. split.
  - apply list_elem_of_fmap. exists row. split; [done|].
    apply list_elem_of_fmap. exists (s, row). split; [done|].
    by apply elem_of_map_to_list.
  - apply elem_of_union_list. exists (set_omap id ts). split; [|done].
    apply list_elem_of_fmap. exists ts. split; [done|].
    apply list_elem_of_fmap. exists (a, ts). split; [done|].
    by apply elem_of_map_to_list.
Qed.

Lemma elem_of_nfa_move S a q :
  q ∈ nfa_move nfa S a ↔ ∃ s, s ∈ S ∧ q ∈ nfa_targets nfa s a.
Proof. unfold nfa_move. rewrite elem_of_set_bind. naive_solver. Qed.

Lemma nfa_move_all S a : nfa_move nfa S a ⊆ nfa_all_targets nfa.
Proof.
  intros q (s & _ & Hq)%elem_of_nfa_move. by eapply nfa_targets_all.
Qed.

Lemma nfa_move_mono S T a : S ⊆ T → nfa_move nfa S a ⊆ nfa_move nfa T a.
Proof.
  intros Hsub q (s & Hs & Hq)%elem_of_nfa_move. apply elem_of_nfa_move. eauto.
Qed.

Lemma nfa_move_empty a : nfa_move nfa ∅ a = ∅.
Proof. apply set_eq. intros q. rewrite elem_of_nfa_move. set_solver. Qed.

Lemma closure_loop_extensive fuel S : S ⊆ closure_loop fuel nfa S.
Proof.
  revert S. induction fuel as [|fuel IH]; intros S; simpl; [done|].
  case_decide; [done|]. etrans; [|apply IH]. set_solver.
Qed.

Lemma closure_loop_least fuel S T :
  S ⊆ T → nfa_move nfa T eps ⊆ T → closure_loop fuel nfa S ⊆ T.
Proof.
  revert S. induction fuel as [|fuel IH]; intros S HS HT; simpl; [done|].
  case_decide; [done|]. apply IH; [|done].
  pose proof (nfa_move_mono S T eps HS). set_solver.
Qed.

Lemma closure_loop_closed fuel S :
  size (nfa_all_targets nfa ∖ S) ≤ fuel →
  nfa_move nfa (closure_loop fuel nfa S) eps ⊆ closure_loop fuel nfa S.
Proof.
  revert S. induction fuel as [|fuel IH]; intros S Hfuel; simpl.
  - assert (nfa_all_targets nfa ∖ S = ∅) as Hempty
      by (apply leibniz_equiv, size_empty_inv; lia).
    pose proof (nfa_move_all S eps). set_solver.
  - case_decide as Hfix; [set_solver|]. apply IH.
    assert (nfa_all_targets nfa ∖ (S ∪ nfa_move nfa S eps)
            ⊂ nfa_all_targets nfa ∖ S) as Hlt%subset_size; [|lia].
    pose proof (nfa_move_all S eps). split; [set_solver|].
    intros Hsub. apply Hfix. apply set_eq. intros q. split; [|set_solver].
    intros [?|Hq]%elem_of_union; [done|].
    destruct (decide (q ∈ S)); [done|]. set_solver.
Qed.

(** The closure is the least set that contains [S] and is closed under
    epsilon transitions. *)
Lemma epsilon_closure_spec S :
  S ⊆ epsilon_closure nfa S ∧
  nfa_move nfa (epsilon_closure nfa S) eps ⊆ epsilon_closure nfa S ∧
  ∀ T, S ⊆ T → nfa_move nfa T eps ⊆ T → epsilon_closure nfa S ⊆ T.
Proof.
  unfold epsilon_closure. split_and!.
  - apply closure_loop_extensive.
  - apply closure_loop_closed, subseteq_size. set_solver.
  - intros T. apply closure_loop_least.
Qed.

Lemma epsilon_closure_empty : epsilon_closure nfa ∅ = ∅.
Proof.
  apply set_eq. intros q. split; [|set_solver].
  apply (proj2 (proj2 (epsilon_closure_spec ∅))); [done|].
  by rewrite nfa_move_empty.
Qed.

Lemma epsilon_closure_universe S :
  epsilon_closure nfa S ⊆ S ∪ nfa_all_targets nfa.
Proof.
  apply epsilon_closure_spec; [set_solver|].
  pose proof (nfa_move_all (S ∪ nfa_all_targets nfa) eps). set_solver.
Qed.

Lemma nfa_start_universe : nfa_start nfa ⊆ nfa_universe nfa.
Proof. apply epsilon_closure_universe. Qed.

Lemma dfa_successor_universe X a : dfa_successor nfa X a ⊆ nfa_universe nfa.
Proof.
  unfold dfa_successor, nfa_universe.
  pose proof (epsilon_closure_universe (nfa_move nfa X a)).
  pose proof (nfa_move_all X a). set_solver.
Qed.

Lemma dfa_successor_empty a : dfa_successor nfa ∅ a = ∅.
Proof. unfold dfa_successor. by rewrite nfa_move_empty, epsilon_closure_empty. Qed.
End closure.

(** ** Subset construction *)

Lemma discover_elem seen ys y : y ∈ discover seen ys → y ∈ ys ∧ y ∉ seen.
Proof.
  revert seen. induction ys as [|y0 ys IH]; intros seen; simpl.
  - by intros ?%elem_of_nil.
  - case_decide as Hy0.
    + intros [? ?]%IH. split; [by right|done].
    + intros [->|[? Hn]%IH]%elem_of_cons; [split; [by left|done]|].
      split; [by right|]. intros ?. apply Hn, elem_of_app. by left.
Qed.

Lemma discover_NoDup seen ys : NoDup seen → NoDup (seen ++ discover seen ys).
Proof.
  revert seen. induction ys as [|y0 ys IH]; intros seen Hnd; simpl.
  - by rewrite app_nil_r.
  - case_decide as Hy0; [by apply IH|].
    rewrite cons_middle, (assoc_L (++)). apply IH.
    apply NoDup_app. split_and!; [done| |apply NoDup_singleton].
    intros x Hx Heq%list_elem_of_singleton. by subst x.
Qed.

Lemma discover_cover seen ys y : y ∈ ys → y ∈ seen ∨ y ∈ discover seen ys.
Proof.
  revert seen. induction ys as [|y0 ys IH]; intros seen; simpl.
  - by intros ?%elem_of_nil.
  - intros [->|Hy]%elem_of_cons.
    + case_decide; [by left|right; by left].
    + case_decide; [by apply IH|].
      destruct (IH (seen ++ [y0]) Hy) as [[?|Heq%list_elem_of_singleton]%elem_of_app|?].
      * by left.
      * subst y. right. by left.
      * right. by right.
Qed.

Lemma lookup_row {V} (f : string → V) (l : list string) (a : string) :
  (list_to_map ((λ a, (a, f a)) <$> l) : gmap string V) !! a
  = if decide (a ∈ l) then Some (f a) else None.
Proof.
  induction l as [|b l IH].
  - destruct (decide (a ∈ [])) as [[]%elem_of_nil|]. apply lookup_empty.
  - rewrite fmap_cons, list_to_map_cons.
    destruct (decide (a = b)) as [->|Hne].
    + rewrite lookup_insert_eq. destruct (decide (b ∈ b :: l)) as [|[]]; [done|by left].
    + rewrite lookup_insert_ne by done. rewrite IH.
      destruct (decide (a ∈ l)), (decide (a ∈ b :: l)) as [Hin|Hnin]; try done.
      * destruct Hnin. by right.
      * by apply elem_of_cons in Hin as [->|?].
Qed.

Section explore.
Variable nfa : NFA.

Lemma explore_inv_initial :
  explore_inv nfa (MkExploration [] [nfa_start nfa] ∅).
Proof.
  split; simpl.
  - apply NoDup_singleton.
  - by left.
  - intros X HX%list_elem_of_singleton. subst X. apply nfa_start_universe.
  - by intros X ?%elem_of_nil.
  - by intros X a ?%elem_of_nil.
Qed.

Lemma elem_of_dfa_row X Y :
  Y ∈ (dfa_row nfa X).*2 ↔
  ∃ a, a ∈ nfa_input_symbols nfa ∧ Y = dfa_successor nfa X a.
Proof.
  unfold dfa_row. rewrite <- list_fmap_compose, list_elem_of_fmap. split.
  - intros (a & -> & Ha). exists a. split; [|done]. by apply elem_of_elements in Ha.
  - intros (a & Ha & ->). exists a. split; [done|]. by apply elem_of_elements.
Qed.

Lemma explore_step_inl e e' :
  explore_inv nfa e → explore_step nfa e = inl e' →
  explore_inv nfa e' ∧ explore_measure nfa e' < explore_measure nfa e.
Proof.
  intros [Hnd Hstart Huniv Hrows Hclosed]. unfold explore_step.
  destruct (ex_todo e) as [|X todo] eqn:Htodo; [done|]. intros [= <-].
  set (new := discover (ex_done e ++ X :: todo) (dfa_row nfa X).*2).
  assert ((ex_done e ++ [X]) ++ todo ++ new = (ex_done e ++ X :: todo) ++ new)
    as Heq by (by rewrite <- !(assoc_L (++)), <- cons_middle).
  split; [split; simpl|].
  - rewrite Heq. by apply discover_NoDup.
  - rewrite Heq. apply elem_of_app. by left.
  - rewrite Heq. intros Y [?|HY]%elem_of_app; [by apply Huniv|].
    apply discover_elem in HY as [(a & _ & ->)%elem_of_dfa_row _].
    apply dfa_successor_universe.
  - intros Y [HY|HY%list_elem_of_singleton]%elem_of_app; [|subst Y].
    + rewrite lookup_insert_ne; [by apply Hrows|].
      intros ->. apply NoDup_app in Hnd as (_ & Hdisj & _).
      apply (Hdisj Y HY). by left.
    + by rewrite lookup_insert_eq.
  - rewrite Heq. intros Y a [HY|HY%list_elem_of_singleton]%elem_of_app Ha;
      [|subst Y].
    + apply elem_of_app. left. by apply Hclosed.
    + apply elem_of_app.
      apply (discover_cover (ex_done e ++ X :: todo) (dfa_row nfa X).*2).
      apply elem_of_dfa_row. eauto.
  - unfold explore_measure. simpl. rewrite length_app. simpl.
    assert (length (ex_done e) ≤ 2 ^ size (nfa_universe nfa)); [|lia].
    apply length_subsets.
    + by apply NoDup_app in Hnd as (? & _).
    + intros Y HY. apply Huniv, elem_of_app. by left.
Qed.

Lemma nfa_universe_size : 1 ≤ size (nfa_universe nfa).
Proof.
  assert (size (nfa_universe nfa) ≠ 0); [|lia].
  intros Hsize%size_empty_inv. unfold nfa_universe in Hsize. set_solver.
Qed.

(** The exploration ends with every discovered state expanded. *)
Lemma explore_spec :
  NoDup (explore nfa).1 ∧
  nfa_start nfa ∈ (explore nfa).1 ∧
  (∀ X, X ∈ (explore nfa).1 →
        (explore nfa).2 !! X = Some (list_to_map (dfa_row nfa X))) ∧
  (∀ X a, X ∈ (explore nfa).1 → a ∈ nfa_input_symbols nfa →
          dfa_successor nfa X a ∈ (explore nfa).1).
Proof.
  unfold explore.
  destruct (iterate_finishes (explore_step nfa) (explore_inv nfa)
              (explore_measure nfa)
              explore_step_inl (S (size (nfa_universe nfa)))
              (MkExploration [] [nfa_start nfa] ∅) explore_inv_initial)
    as ([states table] & e & -> & [Hnd Hstart Huniv Hrows Hclosed] & Hlast).
  { unfold explore_measure. simpl.
    pose proof nfa_universe_size.
    assert (2 ^ 1 ≤ 2 ^ size (nfa_universe nfa))
      by (apply Nat.pow_le_mono_r; lia).
    simpl in *. lia. }
  unfold explore_step in Hlast.
  destruct (ex_todo e) as [|X todo] eqn:Htodo; [|done].
  injection Hlast as <- <-. rewrite app_nil_r in *. simpl. done.
Qed.

(** What the determinized automaton, wrapped as a [pDFA], looks like. *)
Lemma from_nfa_spec :
  ∃ dfa, DFA_from_nfa nfa = Ok dfa ∧
    NoDup (pdfa_states (to_pdfa dfa)) ∧
    pdfa_alphabet (to_pdfa dfa) = elements (nfa_input_symbols nfa) ∧
    pdfa_start (to_pdfa dfa) = nfa_start nfa ∧
    nfa_start nfa ∈ pdfa_states (to_pdfa dfa) ∧
    (∀ X a, X ∈ pdfa_states (to_pdfa dfa) → a ∈ nfa_input_symbols nfa →
            pdfa_delta (to_pdfa dfa) X a = Ok (dfa_successor nfa X a) ∧
            dfa_successor nfa X a ∈ pdfa_states (to_pdfa dfa)) ∧
    (∀ X a, X ∈ pdfa_states (to_pdfa dfa) → a ∉ nfa_input_symbols nfa →
            pdfa_delta (to_pdfa dfa) X a = Raise KeyError) ∧
    (∀ X, X ∈ pdfa_accepts (to_pdfa dfa) ↔
          X ∈ pdfa_states (to_pdfa dfa) ∧ nfa_final_states nfa ∩ X ≠ ∅).
Proof.
  destruct explore_spec as (Hnd & Hstart & Hrows & Hclosed).
  unfold DFA_from_nfa. destruct (explore nfa) as [states table]. simpl in *.
  eexists. split; [done|]. simpl. split_and!; try done.
  - intros X a HX Ha. split; [|by apply Hclosed].
    unfold dfa_delta. simpl. rewrite (Hrows X HX). unfold dfa_row.
    rewrite lookup_row. by rewrite decide_True by (by apply elem_of_elements).
  - intros X a HX Ha. unfold dfa_delta. simpl. rewrite (Hrows X HX).
    unfold dfa_row. rewrite lookup_row.
    by rewrite decide_False by (by rewrite elem_of_elements).
  - intros X. rewrite list_elem_of_filter. tauto.
Qed.
End explore.

(** ** The determinized automaton accepts what the NFA accepts *)

Lemma pdfa_run_cons {Q} (pdfa : pDFA Q) q a w :
  pdfa_run pdfa q (a :: w)
  = pdfa_delta pdfa q a ≫= λ q', pdfa_run pdfa q' w.
Proof. done. Qed.

Section determinize_language.
Variable nfa : NFA.

Lemma nfa_read_empty a : nfa_read nfa ∅ a = ∅.
Proof.
  unfold nfa_read. case_decide; [|done]. apply (dfa_successor_empty nfa a).
Qed.

Lemma nfa_run_empty w : nfa_run nfa ∅ w = ∅.
Proof.
  unfold nfa_run. induction w as [|a w IH]; simpl; [done|].
  by rewrite nfa_read_empty.
Qed.

Lemma nfa_run_cons S a w :
  nfa_run nfa S (a :: w) = nfa_run nfa (nfa_read nfa S a) w.
Proof. done. Qed.

Lemma pdfa_run_simulates dfa w X :
  DFA_from_nfa nfa = Ok dfa →
  X ∈ pdfa_states (to_pdfa dfa) →
  (pdfa_run (to_pdfa dfa) X w = Ok (nfa_run nfa X w) ∧
   nfa_run nfa X w ∈ pdfa_states (to_pdfa dfa)) ∨
  (pdfa_run (to_pdfa dfa) X w = Raise KeyError ∧ nfa_run nfa X w = ∅).
Proof.
  intros Hdfa. destruct (from_nfa_spec nfa)
    as (dfa' & Hdfa' & _ & _ & _ & _ & Hin & Hout & _).
  rewrite Hdfa in Hdfa'. injection Hdfa' as <-.
  revert X. induction w as [|a w IH]; intros X HX.
  - left. done.
  - rewrite nfa_run_cons, pdfa_run_cons. unfold nfa_read.
    destruct (decide (a ∈ nfa_input_symbols nfa)) as [Ha|Ha].
    + destruct (Hin X a HX Ha) as [-> Hsucc]. by apply IH.
    + right. rewrite (Hout X a HX Ha). split; [done|]. apply nfa_run_empty.
Qed.

Lemma determinize_language dfa w :
  DFA_from_nfa nfa = Ok dfa →
  nfa_accepts nfa w ↔ pdfa_accepts_word (to_pdfa dfa) w.
Proof.
  intros Hdfa. destruct (from_nfa_spec nfa)
    as (dfa' & Hdfa' & _ & _ & Hstart & Hstart_in & _ & _ & Hacc).
  rewrite Hdfa in Hdfa'. injection Hdfa' as <-.
  unfold nfa_accepts, pdfa_accepts_word. rewrite Hstart.
  destruct (pdfa_run_simulates dfa w (nfa_start nfa) Hdfa Hstart_in)
    as [[-> Hin]|[-> Hempty]].
  - split.
    + intros (f & Hf & Hrun). eexists. split; [done|]. apply Hacc.
      split; [done|]. set_solver.
    + intros (q & [= <-] & [_ Hne]%Hacc).
      apply set_choose_L in Hne as [f Hf]. exists f. set_solver.
  - rewrite Hempty. split.
    + intros (f & _ & []%not_elem_of_empty).
    + by intros (q & [=] & _).
Qed.
End determinize_language.

(** ** Partition refinement *)

Lemma concat_perm_filter {A} (P : A → Prop) `{∀ x, Decision (P x)} (l : list A) :
  filter P l ++ filter (λ x, ¬ P x) l ≡ₚ l.
Proof.
  induction l as [|x l IH]; [done|]. rewrite !filter_cons.
  destruct (decide (P x)), (decide (¬ P x)); try done; simpl.
  - by rewrite IH.
  - rewrite <- Permutation_middle. by rewrite IH.
Qed.

Lemma elem_of_concat {A} (ls : list (list A)) (x : A) :
  x ∈ concat ls ↔ ∃ l, l ∈ ls ∧ x ∈ l.
Proof.
  rewrite list_elem_of_In, in_concat. split.
  - intros (l & Hl & Hx). exists l. by rewrite !list_elem_of_In.
  - intros (l & Hl & Hx). exists l. by rewrite <- !list_elem_of_In.
Qed.

Lemma length_concat_blocks {A} (ls : list (list A)) :
  Forall (λ l, l ≠ []) ls → length ls ≤ length (concat ls).
Proof.
  induction 1 as [|l ls Hl _ IH]; simpl; [done|].
  rewrite length_app. destruct l; [done|]. simpl. lia.
Qed.

Lemma singleton_blocks {A} (ls : list (list A)) :
  Forall (λ l, l ≠ []) ls → length (concat ls) ≤ length ls →
  Forall (λ l, ∃ x, l = [x]) ls.
Proof.
  induction 1 as [|l ls Hl Hls IH]; simpl; [done|]. rewrite length_app.
  intros Hlen. pose proof (length_concat_blocks ls Hls).
  destruct l as [|x [|y l]]; simpl in *; [done| |lia].
  constructor; [eauto|]. apply IH. lia.
Qed.

Section minimize_props.
Context {Q : Type} `{Countable Q}.
Implicit Types P : list (list Q).
Implicit Types tab : gmap (Q * string) Q.

Lemma tabulate_row_Ok delta q ks acc tab (S : Q → string → Prop) :
  tabulate_row delta q ks acc = Ok tab →
  (∀ p a r, acc !! (p, a) = Some r ↔ S p a ∧ delta p a = Ok r) →
  ∀ p a r, tab !! (p, a) = Some r ↔
           (S p a ∨ (p = q ∧ a ∈ ks)) ∧ delta p a = Ok r.
Proof.
  revert acc S. induction ks as [|k ks IH]; intros acc S; simpl.
  - intros [= <-] Hacc p a r. rewrite Hacc. split.
    + intros [? ?]. split; [by left|done].
    + intros [[?|[_ []%elem_of_nil]] ?]. done.
  - intros (r0 & Hr0 & Hrest)%bind_Ok Hacc p a r.
    rewrite (IH _ (λ p a, S p a ∨ (p = q ∧ a = k)) Hrest).
    + rewrite elem_of_cons. naive_solver.
    + intros p' a' r'. destruct (decide ((p', a') = (q, k))) as [[= -> ->]|Hne].
      * rewrite lookup_insert_eq. split.
        -- intros [= <-]. split; [by right|done].
        -- intros [_ ?]. congruence.
      * rewrite lookup_insert_ne by done. rewrite Hacc. split.
        -- intros [? ?]. split; [by left|done].
        -- intros [[?|[-> ->]] ?]; done.
Qed.

Lemma tabulate_Ok_gen delta alphabet qs acc tab (S : Q → string → Prop) :
  tabulate delta alphabet qs acc = Ok tab →
  (∀ p a r, acc !! (p, a) = Some r ↔ S p a ∧ delta p a = Ok r) →
  ∀ p a r, tab !! (p, a) = Some r ↔
           (S p a ∨ (p ∈ qs ∧ a ∈ alphabet)) ∧ delta p a = Ok r.
Proof.
  revert acc S. induction qs as [|q qs IH]; intros acc S; simpl.
  - intros [= <-] Hacc p a r. rewrite Hacc. split.
    + intros [? ?]. split; [by left|done].
    + intros [[?|[[]%elem_of_nil _]] ?]. done.
  - intros (acc' & Hrow & Hrest)%bind_Ok Hacc p a r.
    rewrite (IH _ (λ p a, S p a ∨ (p = q ∧ a ∈ alphabet)) Hrest).
    + rewrite elem_of_cons. naive_solver.
    + by apply (tabulate_row_Ok _ _ _ _ _ _ Hrow).
Qed.

(** The table holds [delta] on [states] x [alphabet] and nothing else. *)
Lemma tabulate_Ok delta alphabet qs tab :
  tabulate delta alphabet qs ∅ = Ok tab →
  ∀ p a r, tab !! (p, a) = Some r ↔
           p ∈ qs ∧ a ∈ alphabet ∧ delta p a = Ok r.
Proof.
  intros Htab p a r.
  rewrite (tabulate_Ok_gen _ _ _ _ _ (λ _ _, False) Htab); [naive_solver|].
  intros p' a' r'. rewrite lookup_empty. naive_solver.
Qed.

(** *** Blocks *)

Lemma block_index_Some P q i :
  block_index P q = Some i → ∃ B, P !! i = Some B ∧ q ∈ B.
Proof.
  unfold block_index. destruct (list_find _ P) as [[j B]|] eqn:Hfind; [|done].
  intros [= <-]. apply list_find_Some in Hfind as (? & ? & _). eauto.
Qed.

Lemma block_index_is_Some P q B :
  B ∈ P → q ∈ B → is_Some (block_index P q).
Proof.
  intros HB Hq. unfold block_index.
  destruct (list_find_elem_of (λ B, q ∈ B) P B HB Hq) as [[i B'] ->]. by eexists.
Qed.

(** *** Splitting one block *)

Section split.
Variable sig : Q → list (option nat).

Lemma place_ok q groups :
  groups_ok sig groups → groups_ok sig (place (sig q) q groups).
Proof.
  induction 1 as [|g groups [Hne Hsig] Hrest IH]; simpl.
  - repeat constructor; [done|]. intros x Hx%list_elem_of_singleton. by subst x.
  - case_decide as Hkey.
    + constructor; [|done]. simpl. split.
      * by destruct (g.2).
      * intros x [?|Hx%list_elem_of_singleton]%elem_of_app; [by apply Hsig|].
        by subst x.
    + by constructor.
Qed.

Lemma place_perm key (q : Q) (groups : list (list (option nat) * list Q)) :
  concat (place key q groups).*2 ≡ₚ q :: concat groups.*2.
Proof.
  induction groups as [|g groups IH]; simpl; [done|].
  case_decide; simpl.
  - rewrite <- (assoc_L (++)). simpl. symmetry. apply Permutation_middle.
  - rewrite IH. symmetry. apply Permutation_middle.
Qed.

Lemma place_length key (q : Q) (groups : list (list (option nat) * list Q)) :
  length groups ≤ length (place key q groups) ∧ 1 ≤ length (place key q groups).
Proof.
  induction groups as [|g groups IH]; simpl; [lia|].
  case_decide; simpl; lia.
Qed.

Lemma fold_place_spec B groups :
  groups_ok sig groups →
  groups_ok sig (foldl (λ gs q, place (sig q) q gs) groups B) ∧
  concat (foldl (λ gs q, place (sig q) q gs) groups B).*2
    ≡ₚ concat groups.*2 ++ B ∧
  length groups ≤ length (foldl (λ gs q, place (sig q) q gs) groups B) ∧
  (B ≠ [] → 1 ≤ length (foldl (λ gs q, place (sig q) q gs) groups B)).
Proof.
  revert groups. induction B as [|q B IH]; intros groups Hok; simpl.
  - split_and!; try done. by rewrite app_nil_r.
  - destruct (IH (place (sig q) q groups) (place_ok q groups Hok))
      as (Hok' & Hperm & Hlen & _).
    pose proof (place_length (sig q) q groups) as [? ?].
    split_and!; try done; try lia.
    rewrite Hperm, place_perm. simpl. apply Permutation_middle.
Qed.

(** The groups are not empty, their members agree on [sig], and together
    they are the block. *)
Lemma split_block_spec B :
  Forall (λ g, g ≠ [] ∧ ∀ x y, x ∈ g → y ∈ g → sig x = sig y)
         (split_block sig B) ∧
  concat (split_block sig B) ≡ₚ B ∧
  (B ≠ [] → 1 ≤ length (split_block sig B)).
Proof.
  unfold split_block.
  destruct (fold_place_spec B []) as (Hok & Hperm & _ & Hlen); [constructor|].
  split_and!.
  - apply Forall_fmap. eapply Forall_impl; [exact Hok|].
    intros g [Hne Hsig]. split; [done|]. intros x y Hx Hy. simpl.
    by rewrite (Hsig x Hx), (Hsig y Hy).
  - by rewrite Hperm.
  - intros Hne. rewrite length_fmap. by apply Hlen.
Qed.
End split.
End minimize_props.

(** *** The refinement loop *)

Lemma concat_filter_nonempty {A} (ls : list (list A)) :
  concat (filter (λ l, l ≠ []) ls) = concat ls.
Proof.
  induction ls as [|l ls IH]; [done|]. rewrite filter_cons.
  destruct (decide (l ≠ [])) as [Hl|Hl]; simpl; [by rewrite IH|].
  assert (l = []) as Hnil by (by apply dec_stable).
  rewrite IH. by rewrite Hnil.
Qed.

Section refine_props.
Context {Q : Type} `{Countable Q}.
Variable states accepts : list Q.
Variable alphabet : list string.
Variable tab : gmap (Q * string) Q.
Implicit Types P : list (list Q).

Lemma initial_partition_ok :
  partition_ok states accepts (initial_partition states accepts).
Proof.
  unfold initial_partition. split.
  - apply Forall_forall. by intros B [? _]%list_elem_of_filter.
  - rewrite concat_filter_nonempty. simpl. rewrite app_nil_r.
    apply (concat_perm_filter (λ q, q ∈ accepts)).
  - apply Forall_forall. intros B [_ HB]%list_elem_of_filter p q Hp Hq.
    apply elem_of_cons in HB as [->|HB%list_elem_of_singleton].
    + apply list_elem_of_filter in Hp as [? _].
      apply list_elem_of_filter in Hq as [? _]. tauto.
    + subst B. apply list_elem_of_filter in Hp as [? _].
      apply list_elem_of_filter in Hq as [? _]. tauto.
Qed.

Lemma bind_split_length sig (L : list (list Q)) :
  Forall (λ B, B ≠ []) L → length L ≤ length (L ≫= split_block sig).
Proof.
  induction 1 as [|B L HB _ IH]; [done|].
  change ((B :: L) ≫= split_block sig)
    with (split_block sig B ++ (L ≫= split_block sig)).
  rewrite length_app. simpl.
  destruct (split_block_spec sig B) as (_ & _ & Hlen). specialize (Hlen HB). lia.
Qed.

Lemma bind_split_perm sig (L : list (list Q)) :
  concat (L ≫= split_block sig) ≡ₚ concat L.
Proof.
  induction L as [|B L IH]; [done|].
  change ((B :: L) ≫= split_block sig)
    with (split_block sig B ++ (L ≫= split_block sig)).
  rewrite concat_app. simpl. rewrite IH.
  destruct (split_block_spec sig B) as (_ & -> & _). done.
Qed.

Lemma bind_split_elem sig (L : list (list Q)) B' :
  B' ∈ L ≫= split_block sig →
  B' ≠ [] ∧ (∀ x y, x ∈ B' → y ∈ B' → sig x = sig y) ∧
  ∃ B, B ∈ L ∧ ∀ x, x ∈ B' → x ∈ B.
Proof.
  intros (B & HB' & HB)%list_elem_of_bind.
  destruct (split_block_spec sig B) as (Hgroups & Hperm & _).
  rewrite Forall_forall in Hgroups. destruct (Hgroups B' HB') as [? ?].
  split_and!; try done. exists B. split; [done|]. intros x Hx.
  rewrite <- Hperm. apply elem_of_concat. eauto.
Qed.

Lemma bind_split_no_split sig (L : list (list Q)) :
  Forall (λ B, B ≠ []) L →
  length (L ≫= split_block sig) = length L →
  Forall (λ B, ∀ p q, p ∈ B → q ∈ B → sig p = sig q) L.
Proof.
  induction 1 as [|B L HB HL IH]; [done|].
  change ((B :: L) ≫= split_block sig)
    with (split_block sig B ++ (L ≫= split_block sig)).
  rewrite length_app. simpl. intros Hlen.
  destruct (split_block_spec sig B) as (Hgroups & Hperm & Hone).
  specialize (Hone HB). pose proof (bind_split_length sig L HL).
  constructor; [|apply IH; lia].
  destruct (split_block sig B) as [|g [|g' gs]]; simpl in *; [lia| |lia].
  apply Forall_cons in Hgroups as [[_ Hsig] _]. rewrite app_nil_r in Hperm.
  intros p q Hp Hq. apply Hsig; by rewrite Hperm.
Qed.

Lemma refine_ok P :
  partition_ok states accepts P →
  partition_ok states accepts (refine tab alphabet P).
Proof.
  intros [Hne Hperm Hacc]. unfold refine. split.
  - apply Forall_forall. by intros B' [? _]%bind_split_elem.
  - by rewrite bind_split_perm.
  - apply Forall_forall. intros B' (_ & _ & B & HB & Hsub)%bind_split_elem p q Hp Hq.
    rewrite Forall_forall in Hacc. apply (Hacc B HB); by apply Hsub.
Qed.

Lemma refine_length P :
  partition_ok states accepts P → length P ≤ length (refine tab alphabet P).
Proof. intros [Hne _ _]. by apply bind_split_length. Qed.

Lemma refine_no_split P :
  partition_ok states accepts P →
  length (refine tab alphabet P) = length P → stable alphabet tab P.
Proof. intros [Hne _ _]. by apply bind_split_no_split. Qed.

Lemma partition_size P :
  partition_ok states accepts P → length P ≤ length states.
Proof.
  intros [Hne Hperm _]. rewrite <- Hperm. by apply length_concat_blocks.
Qed.

Lemma singletons_stable P :
  partition_ok states accepts P →
  length states ≤ length P → stable alphabet tab P.
Proof.
  intros [Hne Hperm _] Hlen. rewrite <- Hperm in Hlen.
  pose proof (singleton_blocks P Hne Hlen) as Hsingle.
  eapply Forall_impl; [exact Hsingle|]. intros B [x ->] p q Hp Hq.
  apply list_elem_of_singleton in Hp, Hq. by subst.
Qed.

(** With as many passes as there are states the loop ends on a partition
    that no pass can split. *)
Lemma refine_loop_spec fuel P :
  partition_ok states accepts P → length states ≤ length P + fuel →
  partition_ok states accepts (refine_loop fuel tab alphabet P) ∧
  stable alphabet tab (refine_loop fuel tab alphabet P).
Proof.
  revert P. induction fuel as [|fuel IH]; intros P Hok Hfuel; simpl.
  - split; [done|]. apply singletons_stable; [done|lia].
  - case_decide as Hsame.
    + split; [done|]. by apply refine_no_split.
    + apply IH; [by apply refine_ok|].
      pose proof (refine_length P Hok). lia.
Qed.
End refine_props.

(** *** Merging the blocks *)

Lemma fmap_eq_elem {A B} (f g : A → B) (l : list A) (a : A) :
  f <$> l = g <$> l → a ∈ l → f a = g a.
Proof.
  induction l as [|b l IH]; [by intros _ ?%elem_of_nil|].
  rewrite !fmap_cons. intros [= Hb Hl] [->|Ha]%elem_of_cons; auto.
Qed.

Section merge_props.
Context {Q : Type} `{Countable Q}.
Variable pdfa : pDFA Q.

(** The automaton is closed and total over its states and alphabet, and
    rejects the other symbols. *)
Hypothesis start_state : pdfa_start pdfa ∈ pdfa_states pdfa.
Hypothesis delta_closed :
  ∀ q a, q ∈ pdfa_states pdfa → a ∈ pdfa_alphabet pdfa →
         ∃ r, pdfa_delta pdfa q a = Ok r ∧ r ∈ pdfa_states pdfa.
Hypothesis delta_foreign :
  ∀ q a, q ∈ pdfa_states pdfa → a ∉ pdfa_alphabet pdfa →
         ∃ e, pdfa_delta pdfa q a = Raise e.

Variable tab : gmap (Q * string) Q.
Hypothesis tab_delta :
  ∀ p a r, tab !! (p, a) = Some r ↔
           p ∈ pdfa_states pdfa ∧ a ∈ pdfa_alphabet pdfa ∧
           pdfa_delta pdfa p a = Ok r.

Variable P : list (list Q).
Hypothesis P_ok : partition_ok (pdfa_states pdfa) (pdfa_accepts pdfa) P.
Hypothesis P_stable : stable (pdfa_alphabet pdfa) tab P.

Lemma state_block q : q ∈ pdfa_states pdfa → is_Some (block_index P q).
Proof using P_ok.
  intros Hq. rewrite <- (blocks_perm _ _ _ P_ok) in Hq.
  apply elem_of_concat in Hq as (B & HB & Hq). by eapply block_index_is_Some.
Qed.

Lemma same_block p q i :
  block_index P p = Some i → block_index P q = Some i →
  ∃ B, B ∈ P ∧ p ∈ B ∧ q ∈ B.
Proof.
  intros (B & HB & Hp)%block_index_Some (B' & HB' & Hq)%block_index_Some.
  rewrite HB in HB'. injection HB' as <-. exists B. split_and!; try done.
  by eapply list_elem_of_lookup_2.
Qed.

Lemma rep_Some q r :
  representative (pdfa_states pdfa) P q = Some r →
  r ∈ pdfa_states pdfa ∧ block_index P r = block_index P q ∧
  representative (pdfa_states pdfa) P r = Some r.
Proof.
  unfold representative. destruct (block_index P q) as [i|] eqn:Hi; [|done].
  destruct (list_find _ (pdfa_states pdfa)) as [[j r']|] eqn:Hfind; [|done].
  intros [= <-]. pose proof Hfind as (Hj & Hr & _)%list_find_Some.
  split_and!; [by eapply list_elem_of_lookup_2|done|].
  by rewrite Hr, Hfind.
Qed.

Lemma rep_is_Some q :
  q ∈ pdfa_states pdfa → ∃ r, representative (pdfa_states pdfa) P q = Some r.
Proof using P_ok.
  intros Hq. destruct (state_block q Hq) as [i Hi].
  unfold representative. rewrite Hi.
  destruct (list_find_elem_of (λ s, block_index P s = Some i) (pdfa_states pdfa) q Hq Hi)
    as [[j r] ->]. by eexists.
Qed.

Lemma block_accepts p q :
  p ∈ pdfa_states pdfa → block_index P p = block_index P q →
  p ∈ pdfa_accepts pdfa ↔ q ∈ pdfa_accepts pdfa.
Proof using P_ok.
  intros [i Hi]%state_block Heq. rewrite Hi in Heq.
  destruct (same_block p q i Hi (eq_sym Heq)) as (B & HB & Hp & Hq).
  pose proof (blocks_accepts _ _ _ P_ok) as Hacc. rewrite Forall_forall in Hacc.
  by apply (Hacc B HB).
Qed.

Lemma block_successor p q a p' q' :
  p ∈ pdfa_states pdfa → block_index P p = block_index P q →
  tab !! (p, a) = Some p' → tab !! (q, a) = Some q' →
  block_index P p' = block_index P q'.
Proof using P_ok P_stable tab_delta.
  intros [i Hi]%state_block Heq Hp' Hq'. rewrite Hi in Heq.
  destruct (same_block p q i Hi (eq_sym Heq)) as (B & HB & Hp & Hq).
  unfold stable in P_stable. rewrite Forall_forall in P_stable.
  pose proof (P_stable B HB p q Hp Hq) as Hsig. unfold signature in Hsig.
  assert (a ∈ pdfa_alphabet pdfa) as Ha
    by (by apply tab_delta in Hp' as (_ & ? & _)).
  pose proof (fmap_eq_elem _ _ _ a Hsig Ha) as Hsucc. simpl in Hsucc.
  by rewrite Hp', Hq' in Hsucc.
Qed.

(** A run from a state and the run of the merged automaton from its
    representative stay in the same block. *)
Lemma merged_run start accepts w q r :
  q ∈ pdfa_states pdfa → r ∈ pdfa_states pdfa →
  representative (pdfa_states pdfa) P r = Some r →
  block_index P r = block_index P q →
  match pdfa_run pdfa q w with
  | Ok q' =>
      ∃ r', pdfa_run (merge_blocks (pdfa_states pdfa) (pdfa_alphabet pdfa)
                                   tab P start accepts) r w = Ok r' ∧
            q' ∈ pdfa_states pdfa ∧ r' ∈ pdfa_states pdfa ∧
            representative (pdfa_states pdfa) P r' = Some r' ∧
            block_index P r' = block_index P q'
  | Raise _ =>
      ∃ e, pdfa_run (merge_blocks (pdfa_states pdfa) (pdfa_alphabet pdfa)
                                  tab P start accepts) r w = Raise e
  end.
Proof using P_ok P_stable tab_delta delta_closed delta_foreign.
  revert q r. induction w as [|a w IH]; intros q r Hq Hr Hrep Hblock.
  - simpl. eauto 10.
  - rewrite !pdfa_run_cons.
    change (pdfa_delta (merge_blocks (pdfa_states pdfa) (pdfa_alphabet pdfa) tab P start accepts) r a)
      with (merged_delta (pdfa_states pdfa) (pdfa_alphabet pdfa) tab P r a).
    unfold merged_delta. rewrite decide_True by done.
    destruct (decide (a ∈ pdfa_alphabet pdfa)) as [Ha|Ha].
    + destruct (delta_closed q a Hq Ha) as (q1 & Hq1 & Hq1s).
      destruct (delta_closed r a Hr Ha) as (r1 & Hr1 & Hr1s).
      assert (tab !! (q, a) = Some q1) as Htq by (by apply tab_delta).
      assert (tab !! (r, a) = Some r1) as Htr by (by apply tab_delta).
      rewrite Hq1, Htr. simpl.
      destruct (rep_is_Some r1 Hr1s) as [r2 Hr2]. rewrite Hr2. simpl.
      apply rep_Some in Hr2 as (Hr2s & Hr2b & Hr2r).
      apply IH; try done. rewrite Hr2b.
      by apply (block_successor r q a r1 q1).
    + destruct (delta_foreign q a Hq Ha) as [e ->]. simpl.
      assert (tab !! (r, a) = None) as ->.
      { destruct (tab !! (r, a)) as [r1|] eqn:Htr; [|done].
        by apply tab_delta in Htr as (_ & ? & _). }
      simpl. eauto.
Qed.
End merge_props.

Section minimize_language.
Context {Q : Type} `{Countable Q}.
Variable pdfa : pDFA Q.
Hypothesis start_state : pdfa_start pdfa ∈ pdfa_states pdfa.
Hypothesis delta_closed :
  ∀ q a, q ∈ pdfa_states pdfa → a ∈ pdfa_alphabet pdfa →
         ∃ r, pdfa_delta pdfa q a = Ok r ∧ r ∈ pdfa_states pdfa.
Hypothesis delta_foreign :
  ∀ q a, q ∈ pdfa_states pdfa → a ∉ pdfa_alphabet pdfa →
         ∃ e, pdfa_delta pdfa q a = Raise e.

(** Minimization does not change the language. *)
Lemma minimize_language pdfa' w :
  pDFA_minimize pdfa = Ok pdfa' →
  pdfa_accepts_word pdfa w ↔ pdfa_accepts_word pdfa' w.
Proof using start_state delta_closed delta_foreign.
  unfold pDFA_minimize. intros (tab & Htab & Hrest)%bind_Ok.
  pose proof (tabulate_Ok _ _ _ _ Htab) as Htab_delta.
  set (P := refine_loop _ tab _ _) in Hrest.
  destruct (refine_loop_spec (pdfa_states pdfa) (pdfa_accepts pdfa)
              (pdfa_alphabet pdfa) tab (length (pdfa_states pdfa))
              (initial_partition (pdfa_states pdfa) (pdfa_accepts pdfa)))
    as [HP_ok HP_stable]; [apply initial_partition_ok|lia|]. fold P in HP_ok, HP_stable.
  destruct (representative (pdfa_states pdfa) P (pdfa_start pdfa))
    as [start'|] eqn:Hstart; [|done].
  injection Hrest as <-.
  apply rep_Some in Hstart as (Hstart_s & Hstart_b & Hstart_r).
  pose proof (merged_run pdfa delta_closed delta_foreign tab Htab_delta P
                HP_ok HP_stable start' (pdfa_accepts pdfa)
                w (pdfa_start pdfa) start' start_state Hstart_s Hstart_r Hstart_b)
    as Hrun.
  unfold pdfa_accepts_word. simpl.
  destruct (pdfa_run pdfa (pdfa_start pdfa) w) as [q'|e].
  - destruct Hrun as (r' & -> & Hq' & Hr' & Hrep & Hblock). split.
    + intros (q & [= <-] & Hacc). exists r'. split; [done|].
      rewrite !list_elem_of_filter. split_and!; try done.
      by apply (block_accepts pdfa P HP_ok r' q').
    + intros (r & [= <-] & [Hacc _]%list_elem_of_filter). exists q'.
      split; [done|]. by apply (block_accepts pdfa P HP_ok r' q').
  - destruct Hrun as [e' ->]. split; by intros (? & [=] & _).
Qed.

(** Minimization returns an automaton. *)
Lemma minimize_is_Ok : ∃ pdfa', pDFA_minimize pdfa = Ok pdfa'.
Proof using start_state delta_closed.
  assert (∀ s ks acc, s ∈ pdfa_states pdfa →
            (∀ k, k ∈ ks → k ∈ pdfa_alphabet pdfa) →
            ∃ tab, tabulate_row (pdfa_delta pdfa) s ks acc = Ok tab) as Hrow.
  { intros s ks. induction ks as [|k ks IH]; intros acc Hs Hks; simpl; [eauto|].
    destruct (delta_closed s k Hs) as (r & Hr & _); [apply Hks; by left|].
    rewrite Hr. simpl. apply IH; [done|]. intros k' ?. apply Hks. by right. }
  assert (∀ qs acc, (∀ s, s ∈ qs → s ∈ pdfa_states pdfa) →
            ∃ tab, tabulate (pdfa_delta pdfa) (pdfa_alphabet pdfa) qs acc = Ok tab)
    as Htab.
  { intros qs. induction qs as [|s qs IH]; intros acc Hqs; simpl; [eauto|].
    destruct (Hrow s (pdfa_alphabet pdfa) acc) as [acc' Hacc'];
      [apply Hqs; by left|done|].
    rewrite Hacc'. simpl. apply IH. intros s' ?. apply Hqs. by right. }
  destruct (Htab (pdfa_states pdfa) ∅) as [tab Htab']; [done|].
  unfold pDFA_minimize. rewrite Htab'. simpl.
  set (P := refine_loop _ tab _ _).
  destruct (refine_loop_spec (pdfa_states pdfa) (pdfa_accepts pdfa)
              (pdfa_alphabet pdfa) tab (length (pdfa_states pdfa))
              (initial_partition (pdfa_states pdfa) (pdfa_accepts pdfa)))
    as [HP_ok _]; [apply initial_partition_ok|lia|]. fold P in HP_ok.
  destruct (rep_is_Some pdfa P HP_ok (pdfa_start pdfa) start_state) as [r ->].
  eauto.
Qed.
End minimize_language.

(** ** The minimized automaton accepts what the NFA accepts *)

Lemma to_pdfa_well_formed nfa dfa :
  DFA_from_nfa nfa = Ok dfa →
  pdfa_start (to_pdfa dfa) ∈ pdfa_states (to_pdfa dfa) ∧
  (∀ q a, q ∈ pdfa_states (to_pdfa dfa) → a ∈ pdfa_alphabet (to_pdfa dfa) →
          ∃ r, pdfa_delta (to_pdfa dfa) q a = Ok r ∧ r ∈ pdfa_states (to_pdfa dfa)) ∧
  (∀ q a, q ∈ pdfa_states (to_pdfa dfa) → a ∉ pdfa_alphabet (to_pdfa dfa) →
          ∃ e, pdfa_delta (to_pdfa dfa) q a = Raise e).
Proof.
  intros Hdfa. destruct (from_nfa_spec nfa)
    as (dfa' & Hdfa' & _ & Halpha & Hstart & Hstart_in & Hin & Hout & _).
  rewrite Hdfa in Hdfa'. injection Hdfa' as <-. split_and!.
  - by rewrite Hstart.
  - intros q a Hq Ha. rewrite Halpha in Ha. apply elem_of_elements in Ha.
    destruct (Hin q a Hq Ha). eauto.
  - intros q a Hq Ha. rewrite Halpha, elem_of_elements in Ha.
    rewrite (Hout q a Hq Ha). eauto.
Qed.

Lemma minimal_pdfa_language nfa pdfa w :
  minimal_pdfa DFA_from_nfa pDFA_minimize nfa = Ok pdfa →
  nfa_accepts nfa w ↔ pdfa_accepts_word pdfa w.
Proof.
  unfold minimal_pdfa. intros (dfa & Hdfa & Hmin)%bind_Ok.
  rewrite (determinize_language nfa dfa w Hdfa).
  destruct (to_pdfa_well_formed nfa dfa Hdfa) as (Hstart & Hclosed & Hforeign).
  by apply (minimize_language (to_pdfa dfa) Hstart Hclosed Hforeign).
Qed.

(** The libraries as modelled never raise. *)
Lemma minimal_pdfa_is_Ok nfa :
  ∃ pdfa, minimal_pdfa DFA_from_nfa pDFA_minimize nfa = Ok pdfa.
Proof.
  unfold minimal_pdfa. destruct (from_nfa_spec nfa) as (dfa & Hdfa & _).
  rewrite Hdfa. simpl.
  destruct (to_pdfa_well_formed nfa dfa Hdfa) as (Hstart & Hclosed & _).
  by apply (minimize_is_Ok (to_pdfa dfa)).
Qed.

(** C3. For every tree on which [dfa_from_group] returns a record, the
    epsilon-NFA built from the tree and the minimized DFA the record is made
    from accept the same sequences of symbols: the NFA by epsilon-closure
    simulation, the DFA by running its transition function from the start
    state. *)
Theorem language_equivalence t out :
  dfa_from_group_model t = Ok out →
  ∃ nfa els pdfa,
    build_nfa t = Ok (nfa, els) ∧
    minimal_pdfa DFA_from_nfa pDFA_minimize nfa = Ok pdfa ∧
    canonical ∅ pdfa els = Ok out ∧
    ∀ w, nfa_accepts nfa w ↔ pdfa_accepts_word pdfa w.
Proof.
  intros (nfa & els & pdfa & Hbuild & Hmin & Hcan)%dfa_from_group_Ok.
  exists nfa, els, pdfa. split_and!; try done.
  intros w. by apply minimal_pdfa_language.
Qed.

Lemma language_equivalence_witness :
  ∃ out,
    dfa_from_group_model
      (XsdGroup "choice" (0, None)
         [XsdElement "A" (1, Some 1); XsdElement "B" (0, Some 1)]) = Ok out ∧
    ∃ nfa els pdfa,
      build_nfa (XsdGroup "choice" (0, None)
                   [XsdElement "A" (1, Some 1); XsdElement "B" (0, Some 1)])
        = Ok (nfa, els) ∧
      minimal_pdfa DFA_from_nfa pDFA_minimize nfa = Ok pdfa ∧
      canonical ∅ pdfa els = Ok out ∧
      ∀ w, nfa_accepts nfa w ↔ pdfa_accepts_word pdfa w.
Proof.
  eexists. split; [vm_compute; reflexivity|].
  refine (language_equivalence
            (XsdGroup "choice" (0, None)
               [XsdElement "A" (1, Some 1); XsdElement "B" (0, Some 1)]) _ _).
  vm_compute. reflexivity.
Defined.

(** ** When a record is returned *)

Section canonical_total.
Context {Q : Type} `{Countable Q}.
Variable trap : Q.
Variable pdfa : pDFA Q.
Hypothesis start_state : pdfa_start pdfa ∈ pdfa_states pdfa.
Hypothesis accepts_states : ∀ q, q ∈ pdfa_accepts pdfa → q ∈ pdfa_states pdfa.
Hypothesis delta_closed :
  ∀ q a, q ∈ pdfa_states pdfa → a ∈ pdfa_alphabet pdfa →
         ∃ r, pdfa_delta pdfa q a = Ok r ∧ r ∈ pdfa_states pdfa.

Lemma enumerate_from_is_Some v ks (m : gmap Q nat) q :
  q ∈ ks → is_Some (enumerate_from v ks m !! q).
Proof.
  revert v m. induction ks as [|k ks IH]; intros v m; [by intros ?%elem_of_nil|].
  simpl. destruct (decide (q ∈ ks)) as [Hin|Hnin]; [intros _; by apply IH|].
  intros [->|?]%elem_of_cons; [|done].
  rewrite enumerate_from_notin by done. rewrite lookup_insert_eq. by eexists.
Qed.

Lemma subscript_is_Ok q :
  q ∈ pdfa_states pdfa →
  ∃ v, subscript (enumerate_from 0 (pdfa_states pdfa) ∅) q = Ok v.
Proof.
  intros Hq. destruct (enumerate_from_is_Some 0 _ ∅ q Hq) as [v Hv].
  exists v. by apply subscript_Ok.
Qed.

Lemma ids_of_is_Ok xs acc :
  (∀ x, x ∈ xs → x ∈ pdfa_states pdfa) →
  ∃ ids, ids_of trap (enumerate_from 0 (pdfa_states pdfa) ∅) xs acc = Ok ids.
Proof using Type.
  revert acc. induction xs as [|x xs IH]; intros acc Hxs; simpl; [eauto|].
  assert (∀ y, y ∈ xs → y ∈ pdfa_states pdfa) by (intros; apply Hxs; by right).
  case_decide; [by apply IH|].
  destruct (subscript_is_Ok x) as [v ->]; [apply Hxs; by left|]. simpl.
  by apply IH.
Qed.

Lemma row_of_is_Ok q ks acc :
  q ∈ pdfa_states pdfa → (∀ k, k ∈ ks → k ∈ pdfa_alphabet pdfa) →
  ∃ row, row_of trap (enumerate_from 0 (pdfa_states pdfa) ∅)
                (pdfa_delta pdfa) q ks acc = Ok row.
Proof using delta_closed.
  intros Hq. revert acc. induction ks as [|k ks IH]; intros acc Hks; simpl; [eauto|].
  assert (∀ k', k' ∈ ks → k' ∈ pdfa_alphabet pdfa) by (intros; apply Hks; by right).
  destruct (delta_closed q k Hq) as (r & Hr & Hrs); [apply Hks; by left|].
  rewrite Hr. simpl. case_decide; [by apply IH|].
  destruct (subscript_is_Ok r Hrs) as [v ->]. simpl. by apply IH.
Qed.

Lemma table_of_is_Ok qs acc :
  (∀ q, q ∈ qs → q ∈ pdfa_states pdfa) →
  ∃ tbl, table_of trap (enumerate_from 0 (pdfa_states pdfa) ∅)
                  (pdfa_delta pdfa) (pdfa_alphabet pdfa) qs acc = Ok tbl.
Proof using delta_closed.
  revert acc. induction qs as [|q qs IH]; intros acc Hqs; simpl; [eauto|].
  assert (∀ q', q' ∈ qs → q' ∈ pdfa_states pdfa) by (intros; apply Hqs; by right).
  assert (q ∈ pdfa_states pdfa) as Hq by (apply Hqs; by left).
  case_decide; [by apply IH|].
  destruct (subscript_is_Ok q Hq) as [v ->]. simpl.
  destruct (row_of_is_Ok q (pdfa_alphabet pdfa) ∅ Hq) as [row ->]; [done|].
  simpl. by apply IH.
Qed.

(** On an automaton closed over its states the record is always built. *)
Lemma canonical_is_Ok els : ∃ out, canonical trap pdfa els = Ok out.
Proof using start_state accepts_states delta_closed.
  unfold canonical.
  destruct (ids_of_is_Ok (pdfa_states pdfa) ∅) as [states ->]; [done|].
  destruct (subscript_is_Ok (pdfa_start pdfa) start_state) as [start ->].
  destruct (ids_of_is_Ok (pdfa_accepts pdfa) ∅) as [accepts ->]; [done|].
  destruct (table_of_is_Ok (pdfa_states pdfa) ∅) as [tbl ->]; [done|].
  simpl. eauto.
Qed.
End canonical_total.

(** The minimized automaton is closed over its states. *)
Lemma minimize_well_formed `{Countable Q} (pdfa pdfa' : pDFA Q) :
  pdfa_start pdfa ∈ pdfa_states pdfa →
  (∀ q a, q ∈ pdfa_states pdfa → a ∈ pdfa_alphabet pdfa →
          ∃ r, pdfa_delta pdfa q a = Ok r ∧ r ∈ pdfa_states pdfa) →
  pDFA_minimize pdfa = Ok pdfa' →
  pdfa_start pdfa' ∈ pdfa_states pdfa' ∧
  (∀ q, q ∈ pdfa_accepts pdfa' → q ∈ pdfa_states pdfa') ∧
  (∀ q a, q ∈ pdfa_states pdfa' → a ∈ pdfa_alphabet pdfa' →
          ∃ r, pdfa_delta pdfa' q a = Ok r ∧ r ∈ pdfa_states pdfa').
Proof.
  intros Hstart Hclosed. unfold pDFA_minimize.
  intros (tab & Htab & Hrest)%bind_Ok.
  pose proof (tabulate_Ok _ _ _ _ Htab) as Htab_delta.
  set (P := refine_loop _ tab _ _) in Hrest.
  destruct (refine_loop_spec (pdfa_states pdfa) (pdfa_accepts pdfa)
              (pdfa_alphabet pdfa) tab (length (pdfa_states pdfa))
              (initial_partition (pdfa_states pdfa) (pdfa_accepts pdfa)))
    as [HP_ok _]; [apply initial_partition_ok|lia|]. fold P in HP_ok.
  destruct (representative (pdfa_states pdfa) P (pdfa_start pdfa))
    as [start'|] eqn:Hrep; [|done].
  injection Hrest as <-. simpl.
  apply rep_Some in Hrep as (Hs & _ & Hr). split_and!.
  - by apply list_elem_of_filter.
  - by intros q [_ ?]%list_elem_of_filter.
  - intros q a [Hq Hqs]%list_elem_of_filter Ha.
    destruct (Hclosed q a Hqs Ha) as (r & Hr1 & Hrs).
    unfold merged_delta. rewrite decide_True by done.
    rewrite (proj2 (Htab_delta q a r)) by done. simpl.
    destruct (rep_is_Some pdfa P HP_ok r Hrs) as [r' Hr']. rewrite Hr'.
    exists r'. split; [done|].
    apply rep_Some in Hr' as (? & _ & ?). by apply list_elem_of_filter.
Qed.

(** With the libraries as modelled, [dfa_from_group] returns a record exactly
    when the NFA and its alphabet are built: the determinization, the
    minimization and the renumbering never raise. *)
Lemma dfa_from_group_model_returns t nfa els :
  build_nfa t = Ok (nfa, els) → ∃ out, dfa_from_group_model t = Ok out.
Proof.
  intros Hbuild. unfold dfa_from_group_model, dfa_from_group.
  rewrite Hbuild. simpl. unfold minimal_pdfa.
  destruct (from_nfa_spec nfa) as (dfa & Hdfa & _). rewrite Hdfa. simpl.
  destruct (to_pdfa_well_formed nfa dfa Hdfa) as (Hstart & Hclosed & _).
  destruct (minimize_is_Ok (to_pdfa dfa) Hstart Hclosed) as [pdfa' Hmin].
  rewrite Hmin. simpl.
  destruct (minimize_well_formed _ _ Hstart Hclosed Hmin) as (? & ? & ?).
  by apply canonical_is_Ok.
Qed.

(** * More of the code *)

(** ** The operations on the transition table *)

Section rows.
Implicit Types tbl : gmap string (gmap string (gset (option string))).
Implicit Types row : gmap string (gset (option string)).

(** The three branches of [_add_transition] as one update. *)
Lemma add_edge_insert tbl s a n :
  add_edge s a n tbl =
  <[s := <[a := default ∅ (default ∅ (tbl !! s) !! a) ∪ {[n]}]>
           (default ∅ (tbl !! s))]> tbl.
Proof.
  unfold add_edge. destruct (tbl !! s) as [d|]; simpl.
  - destruct (d !! a) as [ts|]; simpl; [done|]. by rewrite (left_id_L ∅ (∪)).
  - rewrite lookup_empty. simpl. rewrite (left_id_L ∅ (∪)).
    by rewrite insert_empty.
Qed.

Lemma add_edge_lookup_ne tbl s a n s' :
  s' ≠ s → add_edge s a n tbl !! s' = tbl !! s'.
Proof. intros. rewrite add_edge_insert. by rewrite lookup_insert_ne. Qed.

Lemma add_edge_lookup_eq tbl s a n :
  ∃ row, add_edge s a n tbl !! s = Some row ∧
         dom row = {[a]} ∪ dom (default ∅ (tbl !! s)).
Proof.
  rewrite add_edge_insert, lookup_insert_eq. eexists. split; [done|].
  by rewrite dom_insert_L.
Qed.

Lemma add_edge_comm tbl s a n s' a' n' :
  add_edge s a n (add_edge s' a' n' tbl) =
  add_edge s' a' n' (add_edge s a n tbl).
Proof.
  destruct (decide (s = s')) as [->|Hs].
  - rewrite (add_edge_insert (add_edge s' a' n' tbl)).
    rewrite (add_edge_insert (add_edge s' a n tbl)).
    rewrite !(add_edge_insert tbl), !lookup_insert_eq, !insert_insert_eq.
    simpl. f_equal. destruct (decide (a = a')) as [->|Ha].
    + rewrite !lookup_insert_eq, !insert_insert_eq. simpl. f_equal.
      set_solver.
    + rewrite !lookup_insert_ne by done.
      by rewrite insert_insert_ne by done.
  - rewrite (add_edge_insert (add_edge s' a' n' tbl)).
    rewrite (add_edge_insert (add_edge s a n tbl)).
    rewrite !add_edge_lookup_ne by done.
    rewrite !(add_edge_insert tbl). by rewrite insert_insert_ne by done.
Qed.

Lemma add_edge_idemp tbl s a n :
  add_edge s a n (add_edge s a n tbl) = add_edge s a n tbl.
Proof.
  rewrite (add_edge_insert (add_edge s a n tbl)).
  rewrite !(add_edge_insert tbl), !lookup_insert_eq, !insert_insert_eq.
  simpl. rewrite lookup_insert_eq, insert_insert_eq. simpl.
  do 2 f_equal. set_solver.
Qed.

Lemma used_symbols_add_edge tbl s a n :
  used_symbols (add_edge s a n tbl) = used_symbols tbl ∪ {[a]}.
Proof.
  apply set_eq. intros b.
  rewrite elem_of_union, elem_of_singleton, !used_symbols_spec. split.
  - intros (s' & row & Hrow & Hb). destruct (decide (s' = s)) as [->|Hne].
    + destruct (add_edge_lookup_eq tbl s a n) as (row' & Hrow' & Hdom).
      rewrite Hrow in Hrow'. injection Hrow' as <-. rewrite Hdom in Hb.
      apply elem_of_union in Hb as [Hb%elem_of_singleton|Hb]; [by right|].
      left. destruct (tbl !! s) as [d|] eqn:Hd; simpl in Hb; [eauto|].
      by rewrite dom_empty_L in Hb.
    + rewrite add_edge_lookup_ne in Hrow by done. eauto.
  - destruct (add_edge_lookup_eq tbl s a n) as (row' & Hrow' & Hdom).
    intros [(s' & row & Hrow & Hb)| ->].
    + destruct (decide (s' = s)) as [->|Hne].
      * exists s, row'. split; [done|]. rewrite Hdom, Hrow. simpl. set_solver.
      * exists s', row. by rewrite add_edge_lookup_ne.
    + exists s, row'. split; [done|]. rewrite Hdom. set_solver.
Qed.

Lemma patch_row_absorbs next next' row :
  patch_row next' (patch_row next row) = patch_row next row.
Proof.
  unfold patch_row. apply map_eq. intros a. rewrite !lookup_fmap.
  destruct (row !! a) as [ts|]; simpl; [|done]. f_equal.
  apply set_eq. intros n. rewrite !elem_of_map. split.
  - intros (n1 & -> & (n0 & -> & Hn0)%elem_of_map). exists n0. by destruct n0.
  - intros (n0 & -> & Hn0). exists (resolve next n0). split; [by destruct n0|].
    apply elem_of_map. eauto.
Qed.

Lemma dom_patch_row next row : dom (patch_row next row) = dom row.
Proof. unfold patch_row. by rewrite dom_fmap_L. Qed.
End rows.

Lemma patch_lookup state next st st' s :
  _patch state next st = Ok st' →
  _nfa_state_transitions st' !! s =
    if decide (s = state)
    then patch_row next <$> _nfa_state_transitions st !! s
    else _nfa_state_transitions st !! s.
Proof.
  unfold _patch.
  destruct (_nfa_state_transitions st !! state) as [d|] eqn:Hd; [|done].
  intros [= <-]. simpl. case_decide as Hs.
  - subst s. by rewrite lookup_insert_eq, Hd.
  - by rewrite lookup_insert_ne.
Qed.

Lemma patch_each_lookup vs next st st' s :
  patch_each vs next st = Ok st' →
  _nfa_state_transitions st' !! s =
    if decide (s ∈ vs)
    then patch_row next <$> _nfa_state_transitions st !! s
    else _nfa_state_transitions st !! s.
Proof.
  revert st. induction vs as [|v vs IH]; intros st; simpl.
  - intros [= <-]. by destruct (decide (s ∈ [])) as [?%elem_of_nil|].
  - intros (st1 & Hp & Hrest)%bind_Ok. rewrite (IH _ Hrest).
    rewrite (patch_lookup _ _ _ _ s Hp).
    destruct (decide (s = v)) as [->|Hne].
    + rewrite (decide_True (P := v ∈ v :: vs)) by (by left).
      case_decide; [|done].
      destruct (_nfa_state_transitions st !! v) as [d|]; simpl; [|done].
      by rewrite patch_row_absorbs.
    + destruct (decide (s ∈ vs)) as [Hin|Hnin].
      * by rewrite decide_True by (by right).
      * rewrite decide_False; [done|]. by intros [?|?]%elem_of_cons.
Qed.

Lemma patch_set_lookup vacant next st st' s :
  patch_set vacant next st = Ok st' →
  _nfa_state_transitions st' !! s =
    if decide (s ∈ vacant)
    then patch_row next <$> _nfa_state_transitions st !! s
    else _nfa_state_transitions st !! s.
Proof.
  intros Hp. rewrite (patch_each_lookup _ _ _ _ s Hp).
  destruct (decide (s ∈ vacant)) as [Hin|Hnin].
  - by rewrite decide_True by (by apply elem_of_elements).
  - by rewrite decide_False by (by rewrite elem_of_elements).
Qed.

Lemma used_symbols_patch_set vacant next st st' :
  patch_set vacant next st = Ok st' →
  used_symbols (_nfa_state_transitions st')
  = used_symbols (_nfa_state_transitions st).
Proof.
  intros Hp. apply set_eq. intros a. rewrite !used_symbols_spec.
  split; intros (s & row & Hrow & Ha).
  - rewrite (patch_set_lookup _ _ _ _ s Hp) in Hrow.
    case_decide; [|by exists s, row].
    destruct (_nfa_state_transitions st !! s) as [d|] eqn:Hd;
      simpl in Hrow; [|done].
    injection Hrow as <-. rewrite dom_patch_row in Ha. by exists s, d.
  - destruct (decide (s ∈ vacant)) as [Hin|Hnin].
    + exists s, (patch_row next row). rewrite (patch_set_lookup _ _ _ _ s Hp).
      rewrite decide_True by done. rewrite Hrow. simpl.
      by rewrite dom_patch_row.
    + exists s, row. rewrite (patch_set_lookup _ _ _ _ s Hp).
      by rewrite decide_False by done.
Qed.

(** X1. [_add_transition(state, input, next)] adds the transition
    [state --input--> next] and nothing else: the table afterwards holds the
    transitions it held before and the new one, whichever of the three
    branches is taken, and the state set and the elements are untouched. *)
Theorem add_transition_adds_one_edge st state input next :
  _nfa_states (_add_transition state input next st) = _nfa_states st ∧
  _elements (_add_transition state input next st) = _elements st ∧
  ∀ s a n,
    has_edge (_nfa_state_transitions (_add_transition state input next st)) s a n
    ↔ (s = state ∧ a = input ∧ n = next) ∨
      has_edge (_nfa_state_transitions st) s a n.
Proof.
  split_and!; [done..|]. intros s a n. simpl. apply has_edge_add_edge.
Qed.

(** X2. The table is a set of transitions: as mappings, the insertion order
    of the dicts aside, the collections are the same whichever of two
    transitions is added first, and adding a transition a second time changes
    nothing. *)
Theorem add_transition_order_irrelevant st s a n s' a' n' :
  _add_transition s a n (_add_transition s' a' n' st)
  = _add_transition s' a' n' (_add_transition s a n st) ∧
  _add_transition s a n (_add_transition s a n st) = _add_transition s a n st.
Proof.
  unfold _add_transition. simpl. split; f_equal.
  - apply add_edge_comm.
  - apply add_edge_idemp.
Qed.

(** X3. [_patch(state, next)] raises [KeyError] when [state] has no row, and
    changes nothing then.  Otherwise it redirects to [next] the pending
    transitions of [state] and changes nothing else: the state set and the
    elements are the same; the row of every other state is the same; the row
    of [state] has the same symbols, and under each symbol the targets it had,
    with [next] in the place of the pending marker.  So the concrete
    transitions are kept, [state] has no pending transition left, and no
    symbol is added or removed. *)
Theorem patch_redirects_pending st state next :
  match _patch state next st with
  | Raise e => e = KeyError ∧ _nfa_state_transitions st !! state = None
  | Ok st' =>
      _nfa_states st' = _nfa_states st ∧
      _elements st' = _elements st ∧
      (∀ s, s ≠ state →
            _nfa_state_transitions st' !! s = _nfa_state_transitions st !! s) ∧
      (∃ row row',
         _nfa_state_transitions st !! state = Some row ∧
         _nfa_state_transitions st' !! state = Some row' ∧
         dom row' = dom row ∧
         ∀ a n,
           (∃ ts', row' !! a = Some ts' ∧ n ∈ ts') ↔
           (∃ ts n0, row !! a = Some ts ∧ n0 ∈ ts ∧
                     n = match n0 with
                         | None => Some next
                         | Some q => Some q
                         end)) ∧
      ¬ pending (_nfa_state_transitions st') state ∧
      used_symbols (_nfa_state_transitions st')
      = used_symbols (_nfa_state_transitions st) ∧
      ∀ s a q,
        has_edge (_nfa_state_transitions st') s a (Some q) ↔
        has_edge (_nfa_state_transitions st) s a (Some q) ∨
        (s = state ∧ q = next ∧ has_edge (_nfa_state_transitions st) s a None)
  end.
Proof.
  destruct (_patch state next st) as [st'|e] eqn:Hp.
  - pose proof (patch_Ok _ _ _ _ Hp) as (Hdom & Hst & Hel & _ & Hedge).
    split_and!; try done.
    + intros s Hs. rewrite (patch_lookup _ _ _ _ s Hp). by rewrite decide_False.
    + apply elem_of_dom in Hdom as [row Hrow]. exists row, (patch_row next row).
      split_and!; [done| |apply dom_patch_row|apply has_edge_patch_row].
      rewrite (patch_lookup _ _ _ _ state Hp), decide_True by done.
      by rewrite Hrow.
    + intros [a Ha]. apply Hedge in Ha. rewrite decide_True in Ha by done.
      by destruct Ha as ([q|] & _ & ?).
    + apply (used_symbols_patch_set {[state]} next). unfold patch_set.
      rewrite elements_singleton. simpl. by rewrite Hp.
    + intros s a q. rewrite Hedge. case_decide as Hs.
      * subst s. split.
        -- intros ([q0|] & Hq0 & [= ->]); [by left|right; done].
        -- intros [?|(_ & -> & ?)]; [by exists (Some q)|by exists None].
      * split; [by left|]. by intros [?|(? & _)].
  - apply patch_Raise in Hp as [-> Hdom]. split; [done|].
    by apply not_elem_of_dom.
Qed.

(** X4. Once [_patch(state, next)] has returned, a second [_patch] of the
    same state, to any target, changes nothing: no pending transition is left
    to redirect. *)
Theorem patch_twice_is_patch_once st state next next' st' :
  _patch state next st = Ok st' → _patch state next' st' = Ok st'.
Proof.
  unfold _patch.
  destruct (_nfa_state_transitions st !! state) as [d|] eqn:Hd; [|done].
  intros [= <-]. simpl. rewrite lookup_insert_eq, insert_insert_eq.
  by rewrite patch_row_absorbs.
Qed.

Lemma patch_twice_is_patch_once_witness :
  _patch "q0" "q2"
    (BuilderState {["q0"]} {["q0" := {["A" := {[Some "q1"]}]}]} ∅)
  = Ok (BuilderState {["q0"]} {["q0" := {["A" := {[Some "q1"]}]}]} ∅).
Proof.
  apply (patch_twice_is_patch_once
           (_add_transition "q0" "A" None (_new_state initial_builder_state).2)
           "q0" "q1" "q2").
  vm_compute. reflexivity.
Defined.

(** ** [_remove_state] *)




(** X6. [_remove_state] undoes [_new_state] followed by an
    [_add_transition] from the new state: when the name handed out is new to
    the state set and to the table, removing the state gives back the
    collections as they were. *)
Theorem remove_state_undoes_new_state st a n :
  (_new_state st).1 ∉ _nfa_states st →
  _nfa_state_transitions st !! (_new_state st).1 = None →
  _remove_state (_new_state st).1
    (_add_transition (_new_state st).1 a n (_new_state st).2) = Ok st.
Proof.
  intros Hfresh Hrow. destruct st as [states tbl els]. simpl in *.
  unfold _remove_state. simpl. rewrite decide_True by set_solver.
  destruct (add_edge_lookup_eq tbl (state_name (size states)) a n)
    as (row & -> & _).
  f_equal. f_equal.
  - set_solver.
  - rewrite add_edge_insert. by apply delete_insert_id.
Qed.

Lemma remove_state_undoes_new_state_witness :
  _remove_state "q0"
    (_add_transition "q0" "A" None (_new_state initial_builder_state).2)
  = Ok initial_builder_state.
Proof.
  apply (remove_state_undoes_new_state initial_builder_state "A" None).
  - vm_compute. set_solver.
  - reflexivity.
Defined.

(** X7. Why the build never calls [_remove_state]: after a state other than
    the last one allocated is removed, the name [_new_state] hands out next
    is already in the state set, and the set does not grow. *)
Theorem remove_state_breaks_freshness n i st st' :
  allocated n st → S i < n →
  _remove_state (state_name i) st = Ok st' →
  (_new_state st').1 ∈ _nfa_states st' ∧
  _nfa_states (_new_state st').2 = _nfa_states st'.
Proof.
  intros [Hsize Hmem]%allocated_dense Hi. unfold _remove_state.
  case_decide as Hin; [|done].
  destruct (_nfa_state_transitions st !! state_name i); [|done].
  intros [= <-]. simpl.
  assert (size (_nfa_states st ∖ {[state_name i]}) = n - 1) as ->.
  { rewrite size_difference by set_solver. rewrite size_singleton. lia. }
  assert (state_name (n - 1) ∈ _nfa_states st ∖ {[state_name i]}) as Hold.
  { apply elem_of_difference. split.
    - apply Hmem. exists (n - 1). split; [lia|done].
    - intros Heq%elem_of_singleton%state_name_inj. lia. }
  split; [done|]. set_solver.
Qed.

Lemma remove_state_breaks_freshness_witness :
  (_new_state
     (BuilderState {["q1"]} ∅ ∅)).1 ∈ _nfa_states (BuilderState {["q1"]} ∅ ∅) ∧
  _nfa_states (_new_state (BuilderState {["q1"]} ∅ ∅)).2
  = _nfa_states (BuilderState {["q1"]} ∅ ∅).
Proof.
  apply (remove_state_breaks_freshness 2 0
           (_add_transition "q0" "A" None
              (_new_state (_new_state initial_builder_state).2).2)).
  - apply alloc_add_transition, alloc_new_state, alloc_new_state, alloc_initial.
  - lia.
  - vm_compute. reflexivity.
Defined.

(** ** How the shared collections grow *)

Lemma closed_initial : closed_state 0 initial_builder_state.
Proof.
  split_and!; [constructor|done|]. by intros s a q (row & ? & [=] & _).
Qed.

Lemma closed_state_mem n st :
  closed_state n st →
  ∀ s, s ∈ _nfa_states st ↔ ∃ i, i < n ∧ s = state_name i.
Proof. intros [Halloc _]. by apply allocated_dense. Qed.

Lemma closed_state_fresh n st i :
  closed_state n st → n ≤ i → state_name i ∉ _nfa_states st.
Proof.
  intros Hst Hi. rewrite (closed_state_mem _ _ Hst).
  intros (j & Hj & ->%state_name_inj). lia.
Qed.

Lemma closed_state_old n st i :
  closed_state n st → i < n → state_name i ∈ _nfa_states st.
Proof. intros Hst Hi. apply (closed_state_mem _ _ Hst). eauto. Qed.

Lemma new_state_name n st : closed_state n st → (_new_state st).1 = state_name n.
Proof. intros [[Hsize _]%allocated_dense _]. simpl. by rewrite Hsize. Qed.

Lemma pending_closed n st s :
  closed_state n st → pending (_nfa_state_transitions st) s → s ∈ _nfa_states st.
Proof. intros (_ & Hdom & _) [a Ha%has_edge_dom]. by apply Hdom. Qed.

Lemma pending_row (tbl tbl' : gmap string (gmap string (gset (option string)))) s :
  tbl' !! s = tbl !! s → pending tbl' s ↔ pending tbl s.
Proof. intros Heq. unfold pending, has_edge. by rewrite Heq. Qed.

Lemma pending_add_edge tbl s a n s' :
  pending (add_edge s a n tbl) s' ↔ (s' = s ∧ n = None) ∨ pending tbl s'.
Proof.
  unfold pending. split.
  - intros [a' [(-> & _ & <-)|Ha]%has_edge_add_edge]; [by left|right; eauto].
  - intros [[-> ->]|[a' Ha]].
    + exists a. apply has_edge_add_edge. by left.
    + exists a'. apply has_edge_add_edge. by right.
Qed.

Lemma pending_patch_set vacant next st st' s :
  patch_set vacant next st = Ok st' →
  pending (_nfa_state_transitions st') s ↔
  s ∉ vacant ∧ pending (_nfa_state_transitions st) s.
Proof.
  intros Hp. split; [apply (patch_set_pending _ _ _ _ _ Hp)|].
  intros [Hs [a Ha]]. exists a.
  apply patch_set_Ok in Hp as (_ & _ & _ & _ & Hedge). apply Hedge.
  by rewrite decide_False.
Qed.

Lemma allocated_patch_each n vs next st st' :
  patch_each vs next st = Ok st' → allocated n st → allocated n st'.
Proof.
  revert st. induction vs as [|v vs IH]; intros st; simpl.
  - by intros [= <-].
  - intros (st1 & Hp & Hrest)%bind_Ok Hst. eapply IH; [done|].
    by eapply alloc_patch.
Qed.

Section grows.
Variable B : gset string.
Variable E : Node → Prop.

Lemma grows_eq k k' syms syms' names names' n st st' :
  grows B k syms names E n st st' →
  k = k' → syms = syms' → names = names' →
  grows B k' syms' names' E n st st'.
Proof. by intros ? -> -> ->. Qed.

Lemma grows_refl n st : closed_state n st → grows B 0 ∅ ∅ E n st st.
Proof.
  intros Hst. split; try done.
  - by rewrite Nat.add_0_r.
  - by rewrite (right_id_L ∅ (∪)).
Qed.

Lemma grows_trans k1 k2 syms1 syms2 names1 names2 n st st1 st2 :
  grows B k1 syms1 names1 E n st st1 →
  grows B k2 syms2 names2 E (n + k1) st1 st2 →
  grows B (k1 + k2) (syms1 ∪ syms2) (names1 ∪ names2) E n st st2.
Proof.
  intros [_ Hst1 Hfr1 Hsy1 Hna1 Hot1] [Hcl2 Hst2 Hfr2 Hsy2 Hna2 Hot2]. split.
  - by rewrite Nat.add_assoc.
  - set_solver.
  - intros s Hs. rewrite Hfr2 by done. by apply Hfr1.
  - rewrite Hsy2, Hsy1. by rewrite (assoc_L (∪)).
  - intros name Hname. destruct (decide (name ∈ names2)) as [Hin|Hnin].
    + by apply Hna2.
    + rewrite Hot2 by done. apply Hna1. set_solver.
  - intros name Hname. rewrite Hot2, Hot1; set_solver.
Qed.

Lemma grows_new_state n st :
  closed_state n st → grows B 1 ∅ ∅ E n st (_new_state st).2.
Proof.
  intros (Halloc & Hdom & Htargets). split; simpl; try done.
  - rewrite Nat.add_1_r. split_and!; simpl.
    + by apply (alloc_new_state n st).
    + set_solver.
    + intros s a q Hq. apply elem_of_union. right. eauto.
  - set_solver.
  - by rewrite (right_id_L ∅ (∪)).
Qed.

Lemma grows_add_transition n st s a next :
  closed_state n st → s ∈ _nfa_states st → s ∉ B →
  (∀ q, next = Some q → q ∈ _nfa_states st) →
  grows B 0 {[a]} ∅ E n st (_add_transition s a next st).
Proof.
  intros (Halloc & Hdom & Htargets) Hs HsB Hnext. split; simpl; try done.
  - rewrite Nat.add_0_r. split_and!; simpl.
    + by constructor.
    + rewrite dom_add_edge. set_solver.
    + intros s' a' q [(_ & _ & ?)|?]%has_edge_add_edge; eauto.
  - intros s' Hs'. apply add_edge_lookup_ne. by intros ->.
  - apply used_symbols_add_edge.
Qed.

Lemma grows_register n st name o :
  closed_state n st → E (XsdElement name o) →
  grows B 0 ∅ {[name]} E n st (register_element name (XsdElement name o) st).
Proof.
  intros (Halloc & Hdom & Htargets) HE. split; simpl; try done.
  - rewrite Nat.add_0_r. split_and!; try done. by constructor.
  - by rewrite (right_id_L ∅ (∪)).
  - intros name' ->%elem_of_singleton. exists o. by rewrite lookup_insert_eq.
  - intros name' Hne%not_elem_of_singleton. by rewrite lookup_insert_ne.
Qed.

Lemma grows_patch_set n st vacant next st' :
  closed_state n st → patch_set vacant next st = Ok st' →
  next ∈ _nfa_states st → (∀ s, s ∈ vacant → s ∉ B) →
  grows B 0 ∅ ∅ E n st st'.
Proof.
  intros (Halloc & Hdom & Htargets) Hp Hnext Hdisj.
  pose proof (patch_set_Ok _ _ _ _ Hp) as (_ & Hst & Hel & Hdom' & Hedge).
  split.
  - rewrite Nat.add_0_r. split_and!.
    + by apply (allocated_patch_each n _ _ _ _ Hp).
    + by rewrite Hdom', Hst.
    + intros s a q Hq. rewrite Hst. apply Hedge in Hq. case_decide; [|eauto].
      destruct Hq as ([q0|] & Hq0 & [= ->]); eauto.
  - by rewrite Hst.
  - intros s Hs. rewrite (patch_set_lookup _ _ _ _ s Hp).
    rewrite decide_False; [done|]. intros ?. by apply (Hdisj s).
  - rewrite (used_symbols_patch_set _ _ _ _ Hp). by rewrite (right_id_L ∅ (∪)).
  - set_solver.
  - intros name _. by rewrite Hel.
Qed.

Lemma grows_clear_row n st s :
  closed_state n st → s ∈ _nfa_states st →
  s ∉ dom (_nfa_state_transitions st) → s ∉ B →
  grows B 0 ∅ ∅ E n st (clear_row s st).
Proof.
  intros (Halloc & Hdom & Htargets) Hs Hrow HsB. split; simpl; try done.
  - rewrite Nat.add_0_r. split_and!; simpl.
    + by constructor.
    + rewrite dom_insert_L. set_solver.
    + intros s' a q Hq. destruct (decide (s' = s)) as [->|Hne].
      * apply has_edge_insert_eq in Hq as (ts & Hts & _).
        by rewrite lookup_empty in Hts.
      * rewrite has_edge_insert_ne in Hq by done. eauto.
  - intros s' Hs'. apply lookup_insert_ne. by intros ->.
  - rewrite (right_id_L ∅ (∪)). apply set_eq. intros a.
    rewrite !used_symbols_spec. split; intros (s' & row & Hrow' & Ha).
    + destruct (decide (s' = s)) as [->|Hne].
      * rewrite lookup_insert_eq in Hrow'. injection Hrow' as <-.
        by rewrite dom_empty_L in Ha.
      * rewrite lookup_insert_ne in Hrow' by done. eauto.
    + exists s', row. split; [|done]. rewrite lookup_insert_ne; [done|].
      intros ->. apply Hrow. apply elem_of_dom. eauto.
Qed.
End grows.

Lemma grows_weaken B B' (E E' : Node → Prop) k syms names n st st' :
  B' ⊆ B → (∀ e, E e → E' e) →
  grows B k syms names E n st st' → grows B' k syms names E' n st st'.
Proof.
  intros HB HE [Hcl Hst Hfr Hsy Hna Hot]. split; try done.
  - intros s Hs. apply Hfr. by apply HB.
  - intros name Hname. destruct (Hna name Hname) as (o & ? & ?). eauto.
Qed.

(** ** What the construction of a fragment does *)

Section built.
Variable E : Node → Prop.

Lemma built_eq k k' syms syms' names names' n st fr st' :
  built k syms names E n st fr st' →
  k = k' → syms = syms' → names = names' →
  built k' syms' names' E n st fr st'.
Proof. by intros ? -> -> ->. Qed.

Lemma built_closed k syms names n st fr st' :
  built k syms names E n st fr st' → closed_state (n + k) st'.
Proof. by intros [[? _ _ _ _ _] _ _ _ _]. Qed.

Lemma built_init k syms names n st fr st' :
  closed_state n st → built k syms names E n st fr st' →
  fr.1 ∈ _nfa_states st' ∧ fr.1 ∉ _nfa_states st.
Proof.
  intros Hst Hb. rewrite (b_init _ _ _ _ _ _ _ _ Hb). split.
  - apply (closed_state_old (n + k)); [by eapply built_closed|].
    pose proof (b_positive _ _ _ _ _ _ _ _ Hb). lia.
  - by apply (closed_state_fresh n).
Qed.

(** [x = _new_state()] at the start of a choice or "all" group. *)
Lemma built_branch_state n st :
  closed_state n st →
  built 1 ∅ ∅ E n st ((_new_state st).1, ∅) (_new_state st).2.
Proof.
  intros Hst. split.
  - by apply grows_new_state.
  - lia.
  - by apply new_state_name.
  - by intros s ?%not_elem_of_empty.
  - intros s Hs. simpl. split; [|by intros ?%not_elem_of_empty].
    intros Hp. destruct Hs. by eapply pending_closed.
Qed.

Lemma built_element n st name o fr st' :
  closed_state n st → E (XsdElement name o) →
  _nfa_from_element (XsdElement name o) name st = Ok (fr, st') →
  built 1 {[name]} {[name]} E n st fr st'.
Proof.
  intros Hst HE. unfold _nfa_from_element.
  pose proof (new_state_name _ _ Hst) as Hx.
  pose proof (grows_new_state (_nfa_states st) E _ _ Hst) as Hnew.
  destruct (_new_state st) as [x st1] eqn:Hst1. simpl in Hx, Hnew. subst x.
  intros [= <- <-].
  assert (_nfa_states st1 = {[state_name n]} ∪ _nfa_states st) as Hstates.
  { unfold _new_state in Hst1. injection Hst1 as Hx <-. simpl.
    destruct Hst as [[Hsize _]%allocated_dense _]. by rewrite Hsize. }
  assert (_nfa_state_transitions st1 = _nfa_state_transitions st) as Htbl.
  { unfold _new_state in Hst1. by injection Hst1 as _ <-. }
  pose proof (g_closed _ _ _ _ _ _ _ _ Hnew) as Hcl1.
  pose proof (closed_state_fresh n st n Hst (le_n n)) as Hfresh.
  assert (grows (_nfa_states st) 0 {[name]} ∅ E (n + 1) st1
            (_add_transition (state_name n) name None st1)) as Hadd.
  { apply grows_add_transition; try done. rewrite Hstates. set_solver. }
  pose proof (grows_trans _ _ _ _ _ _ _ _ _ _ _ _ Hnew Hadd) as Hboth.
  pose proof (g_closed _ _ _ _ _ _ _ _ Hboth) as Hcl2.
  pose proof (grows_register (_nfa_states st) E _ _ name o Hcl2 HE) as Hreg.
  split.
  - eapply grows_eq; [eapply grows_trans; [exact Hboth|exact Hreg]|..];
      [lia|set_solver..].
  - lia.
  - done.
  - simpl. intros s ->%elem_of_singleton. split; [|done].
    rewrite Hstates. set_solver.
  - simpl. intros s Hs. rewrite Htbl, pending_add_edge, elem_of_singleton.
    split; [|by left]. intros [[? _]|Hp]; [done|].
    destruct Hs. by eapply pending_closed.
Qed.

(** One round of the loop of [_nfa_from_sequence]: the next child is built
    and the vacant states of the fragment so far are patched to its start. *)
Lemma built_then k k2 syms syms2 names names2 n st0 init vacant st
    init2 vac2 st2 st3 :
  built k syms names E n st0 (init, vacant) st →
  built k2 syms2 names2 E (n + k) st (init2, vac2) st2 →
  patch_set vacant init2 st2 = Ok st3 →
  built (k + k2) (syms ∪ syms2) (names ∪ names2) E n st0 (init, vac2) st3.
Proof.
  intros H1 H2 Hp.
  pose proof (built_closed _ _ _ _ _ _ _ H1) as Hcl1.
  pose proof (built_closed _ _ _ _ _ _ _ H2) as Hcl2.
  destruct (built_init _ _ _ _ _ _ _ Hcl1 H2) as [Hinit2 _].
  destruct H1 as [Hg1 Hk1 Hi1 Hv1 Hp1]. destruct H2 as [Hg2 Hk2 Hi2 Hv2 Hp2].
  simpl in *.
  pose proof (g_states _ _ _ _ _ _ _ _ Hg1) as Hsub1.
  pose proof (g_states _ _ _ _ _ _ _ _ Hg2) as Hsub2.
  pose proof (patch_set_Ok _ _ _ _ Hp) as (_ & Hst3 & _).
  assert (grows (_nfa_states st0) (k + k2) (syms ∪ syms2) (names ∪ names2)
            E n st0 st2) as Hg12.
  { eapply grows_trans; [done|]. by eapply grows_weaken. }
  assert (grows (_nfa_states st0) 0 ∅ ∅ E (n + (k + k2)) st2 st3) as Hpatch.
  { eapply grows_patch_set; [|done..|].
    - by apply (g_closed _ _ _ _ _ _ _ _ Hg12).
    - intros s Hs. by apply Hv1. }
  split; simpl.
  - eapply grows_eq; [eapply grows_trans; [exact Hg12|exact Hpatch]|..];
      [lia|set_solver..].
  - lia.
  - done.
  - intros s Hs. destruct (Hv2 s Hs). rewrite Hst3. split; [done|]. set_solver.
  - intros s Hs. rewrite (pending_patch_set _ _ _ _ s Hp).
    destruct (decide (s ∈ _nfa_states st)) as [Hold|Hnew].
    + rewrite (pending_row _ _ s (g_frame _ _ _ _ _ _ _ _ Hg2 s Hold)).
      rewrite (Hp1 s Hs). split; [tauto|]. intros Hs2.
      by destruct (Hv2 s Hs2).
    + rewrite (Hp2 s Hnew). split; [tauto|]. intros Hs2. split; [|done].
      intros Hvac. by destruct (Hv1 s Hvac).
Qed.

(** One round of the loop of [_nfa_from_choice] or [_nfa_from_all]: the next
    branch is built and joined to [x]. *)
Lemma built_join k k2 syms syms2 names names2 n st0 x vacants st
    init2 vac2 st2 :
  closed_state n st0 →
  built k syms names E n st0 (x, vacants) st →
  built k2 syms2 names2 E (n + k) st (init2, vac2) st2 →
  built (k + k2) (syms ∪ syms2 ∪ {[eps]}) (names ∪ names2) E n st0
        (x, vacants ∪ vac2) (_add_transition x eps (Some init2) st2).
Proof.
  intros Hst0 H1 H2.
  pose proof (built_closed _ _ _ _ _ _ _ H1) as Hcl1.
  pose proof (built_closed _ _ _ _ _ _ _ H2) as Hcl2.
  destruct (built_init _ _ _ _ _ _ _ Hcl1 H2) as [Hinit2 _].
  destruct (built_init _ _ _ _ _ _ _ Hst0 H1) as [Hx Hxnew].
  destruct H1 as [Hg1 Hk1 Hi1 Hv1 Hp1]. destruct H2 as [Hg2 Hk2 Hi2 Hv2 Hp2].
  simpl in *.
  pose proof (g_states _ _ _ _ _ _ _ _ Hg1) as Hsub1.
  pose proof (g_states _ _ _ _ _ _ _ _ Hg2) as Hsub2.
  assert (grows (_nfa_states st0) (k + k2) (syms ∪ syms2) (names ∪ names2)
            E n st0 st2) as Hg12.
  { eapply grows_trans; [done|]. by eapply grows_weaken. }
  assert (grows (_nfa_states st0) 0 {[eps]} ∅ E (n + (k + k2)) st2
            (_add_transition x eps (Some init2) st2)) as Hadd.
  { apply grows_add_transition.
    - by apply (g_closed _ _ _ _ _ _ _ _ Hg12).
    - set_solver.
    - done.
    - by intros q [= <-]. }
  split; simpl.
  - eapply grows_eq; [eapply grows_trans; [exact Hg12|exact Hadd]|..];
      [lia|set_solver..].
  - lia.
  - done.
  - intros s [Hs|Hs]%elem_of_union.
    + destruct (Hv1 s Hs). split; [set_solver|done].
    + destruct (Hv2 s Hs). split; [done|set_solver].
  - intros s Hs. rewrite pending_add_edge, elem_of_union.
    destruct (decide (s ∈ _nfa_states st)) as [Hold|Hnew].
    + rewrite (pending_row _ _ s (g_frame _ _ _ _ _ _ _ _ Hg2 s Hold)).
      rewrite (Hp1 s Hs). split; [intros [[_ [=]]|?]; by left|].
      intros [?|Hs2]; [by right|]. by destruct (Hv2 s Hs2).
    + rewrite (Hp2 s Hnew). split; [intros [[_ [=]]|?]; by right|].
      intros [Hs1|?]; [|by right]. by destruct (Hv1 s Hs1).
Qed.

Lemma apply_occurs_unbounded init vacant st :
  apply_occurs (1, None) init vacant st =
  st2 ← patch_set vacant (_new_state st).1 (_new_state st).2;
  Ok ((init, {[(_new_state st).1]}),
      _add_transition (_new_state st).1 eps None
        (_add_transition (_new_state st).1 eps (Some init) st2)).
Proof. done. Qed.

(** The dispatch on [t.occurs]. *)
Lemma built_occurs o k syms names n st0 init vacant st fr st' :
  closed_state n st0 →
  built k syms names E n st0 (init, vacant) st →
  apply_occurs o init vacant st = Ok (fr, st') →
  built (k + occurs_states o) (syms ∪ occurs_symbols o) names E n st0 fr st'.
Proof.
  intros Hst0 Hb Hocc.
  pose proof (built_closed _ _ _ _ _ _ _ Hb) as Hcl.
  destruct (built_init _ _ _ _ _ _ _ Hst0 Hb) as [Hinit Hinitnew].
  pose proof Hb as [Hg Hk Hi Hv Hpend]. simpl in *.
  destruct o as [[|[|?]] [[|[|?]]|]]; try (by simpl in Hocc).
  - (* [0, 1] *)
    simpl in Hocc. injection Hocc as <- <-.
    assert (grows (_nfa_states st0) 0 {[eps]} ∅ E (n + k) st
              (_add_transition init eps None st)) as Hadd.
    { by apply grows_add_transition. }
    split; simpl.
    + eapply grows_eq; [eapply grows_trans; [exact Hg|exact Hadd]|..];
        [lia|set_solver..].
    + lia.
    + done.
    + intros s [Hs|Hs%elem_of_singleton]%elem_of_union; [by apply Hv|].
      by subst s.
    + intros s Hs. rewrite pending_add_edge, (Hpend s Hs), elem_of_union,
        elem_of_singleton. naive_solver.
  - (* [0, None] *)
    simpl in Hocc. apply bind_Ok in Hocc as (st1 & Hp & [= <- <-]).
    pose proof (patch_set_Ok _ _ _ _ Hp) as (_ & Hst1 & _).
    assert (grows (_nfa_states st0) 0 ∅ ∅ E (n + k) st st1) as Hpatch.
    { eapply grows_patch_set; [done..|]. intros s Hs. by apply Hv. }
    pose proof (grows_trans _ _ _ _ _ _ _ _ _ _ _ _ Hg Hpatch) as Hg1.
    assert (grows (_nfa_states st0) 0 {[eps]} ∅ E (n + (k + 0)) st1
              (_add_transition init eps None st1)) as Hadd.
    { apply grows_add_transition; try done.
      - by apply (g_closed _ _ _ _ _ _ _ _ Hg1).
      - by rewrite Hst1. }
    split; simpl.
    + eapply grows_eq; [eapply grows_trans; [exact Hg1|exact Hadd]|..];
        [lia|set_solver..].
    + lia.
    + done.
    + intros s ->%elem_of_singleton. by rewrite Hst1.
    + intros s Hs. rewrite pending_add_edge, (pending_patch_set _ _ _ _ s Hp),
        (Hpend s Hs), elem_of_singleton. naive_solver.
  - (* [1, 1] *)
    simpl in Hocc. injection Hocc as <- <-.
    eapply built_eq; [exact Hb|simpl; lia|simpl; set_solver..].
  - (* [1, None] *)
    pose proof (new_state_name _ _ Hcl) as Hnext.
    pose proof (grows_new_state (_nfa_states st0) E _ _ Hcl) as Hnew.
    pose proof (closed_state_fresh _ _ (n + k) Hcl (le_n _)) as Hfresh.
    assert (_nfa_states (_new_state st).2 = {[state_name (n + k)]} ∪ _nfa_states st)
      as Hstates by (by rewrite <- Hnext).
    assert (_nfa_state_transitions (_new_state st).2 = _nfa_state_transitions st)
      as Htbl by done.
    rewrite apply_occurs_unbounded in Hocc.
    destruct (_new_state st) as [next st1]. simpl in Hnext, Hnew, Hstates, Htbl.
    subst next. simpl in Hocc.
    apply bind_Ok in Hocc as (st2 & Hp & [= <- <-]).
    pose proof (patch_set_Ok _ _ _ _ Hp) as (_ & Hst2 & _).
    pose proof (grows_trans _ _ _ _ _ _ _ _ _ _ _ _ Hg Hnew) as Hg1.
    assert (grows (_nfa_states st0) 0 ∅ ∅ E (n + (k + 1)) st1 st2) as Hpatch.
    { eapply grows_patch_set; [|done| |].
      - by apply (g_closed _ _ _ _ _ _ _ _ Hg1).
      - rewrite Hstates. set_solver.
      - intros s Hs. by apply Hv. }
    pose proof (grows_trans _ _ _ _ _ _ _ _ _ _ _ _ Hg1 Hpatch) as Hg2.
    assert (state_name (n + k) ∉ _nfa_states st0) as Hnextnew.
    { intros Hin. apply Hfresh. by apply (g_states _ _ _ _ _ _ _ _ Hg). }
    assert (grows (_nfa_states st0) 0 {[eps]} ∅ E (n + (k + 1 + 0)) st2
              (_add_transition (state_name (n + k)) eps (Some init) st2))
      as Hadd1.
    { apply grows_add_transition; try done.
      - by apply (g_closed _ _ _ _ _ _ _ _ Hg2).
      - rewrite Hst2, Hstates. set_solver.
      - intros q [= <-]. rewrite Hst2, Hstates. set_solver. }
    pose proof (grows_trans _ _ _ _ _ _ _ _ _ _ _ _ Hg2 Hadd1) as Hg3.
    assert (grows (_nfa_states st0) 0 {[eps]} ∅ E (n + (k + 1 + 0 + 0))
              (_add_transition (state_name (n + k)) eps (Some init) st2)
              (_add_transition (state_name (n + k)) eps None
                 (_add_transition (state_name (n + k)) eps (Some init) st2)))
      as Hadd2.
    { apply grows_add_transition; try done.
      - by apply (g_closed _ _ _ _ _ _ _ _ Hg3).
      - simpl. rewrite Hst2, Hstates. set_solver. }
    split; simpl.
    + eapply grows_eq; [eapply grows_trans; [exact Hg3|exact Hadd2]|..];
        [lia|set_solver..].
    + lia.
    + done.
    + intros s ->%elem_of_singleton. rewrite Hst2, Hstates.
      split; [set_solver|done].
    + intros s Hs.
      rewrite !pending_add_edge, (pending_patch_set _ _ _ _ s Hp), Htbl,
        elem_of_singleton.
      split; [intros [[? _]|[[_ [=]]|[Hnv Hps]]]; [done|]|by left].
      apply (Hpend s Hs) in Hps. done.
Qed.
End built.

Lemma built_weaken (E E' : Node → Prop) k syms names n st fr st' :
  (∀ e, E e → E' e) →
  built k syms names E n st fr st' → built k syms names E' n st fr st'.
Proof.
  intros HE [Hg ? ? ? ?]. split; try done. by eapply grows_weaken.
Qed.

(** ** Every node builds a fragment *)

Lemma sum_list_perm (l l' : list nat) : l ≡ₚ l' → sum_list l = sum_list l'.
Proof. induction 1; simpl; lia. Qed.

Lemma union_list_perm (l l' : list (gset string)) : l ≡ₚ l' → ⋃ l = ⋃ l'.
Proof. induction 1; simpl; set_solver. Qed.

Section loops.
Variable E : Node → Prop.

Lemma built_child t n st fr st' :
  node_built t ∧ (∀ e, e ∈ nodes t → E e) →
  closed_state n st → _nfa_from_node t st = Ok (fr, st') →
  built (state_count t) (tree_symbols t) (element_names t) E n st fr st'.
Proof.
  intros [Ht HE] Hst Hnode. eapply built_weaken; [exact HE|]. by apply Ht.
Qed.

Lemma built_sequence_loop ts :
  Forall (λ t, node_built t ∧ ∀ e, e ∈ nodes t → E e) ts →
  ∀ k syms names n st0 init vacant st fr st',
    built k syms names E n st0 (init, vacant) st →
    sequence_loop (map _nfa_from_node ts) init vacant st = Ok (fr, st') →
    built (k + sum_list (map state_count ts))
          (syms ∪ ⋃ (map tree_symbols ts))
          (names ∪ ⋃ (map element_names ts)) E n st0 fr st'.
Proof.
  induction 1 as [|t ts Ht _ IH];
    intros k syms names n st0 init vacant st fr st' Hb; simpl.
  - intros [= <- <-]. eapply built_eq; [exact Hb|lia|set_solver..].
  - intros ([[init2 vac2] st2] & Hchild & Hrest)%bind_Ok. simpl in Hrest.
    apply bind_Ok in Hrest as (st3 & Hp & Hloop).
    pose proof (built_child _ _ _ _ _ Ht (built_closed _ _ _ _ _ _ _ _ Hb) Hchild)
      as Hb2.
    pose proof (built_then _ _ _ _ _ _ _ _ _ _ _ _ _ _ _ _ Hb Hb2 Hp) as Hb3.
    eapply built_eq; [exact (IH _ _ _ _ _ _ _ _ _ _ Hb3 Hloop)|lia|set_solver..].
Qed.

Lemma built_sequence ts n st fr st' :
  Forall (λ t, node_built t ∧ ∀ e, e ∈ nodes t → E e) ts →
  closed_state n st →
  _nfa_from_sequence (map _nfa_from_node ts) st = Ok (fr, st') →
  ts ≠ [] ∧
  built (sum_list (map state_count ts)) (⋃ (map tree_symbols ts))
        (⋃ (map element_names ts)) E n st fr st'.
Proof.
  intros Hts Hst. destruct ts as [|t ts]; simpl; [done|].
  apply Forall_cons in Hts as [Ht Hts].
  intros ([[init vacant] st1] & Hchild & Hloop)%bind_Ok. simpl in Hloop.
  split; [done|].
  pose proof (built_child _ _ _ _ _ Ht Hst Hchild) as Hb.
  apply (built_sequence_loop _ Hts _ _ _ _ _ _ _ _ _ _ Hb Hloop).
Qed.

Lemma built_choice_loop ts :
  Forall (λ t, node_built t ∧ ∀ e, e ∈ nodes t → E e) ts →
  ∀ k syms names n st0 x vacants st fr st',
    closed_state n st0 →
    built k syms names E n st0 (x, vacants) st →
    choice_loop (map _nfa_from_node ts) x vacants st = Ok (fr, st') →
    built (k + sum_list (map state_count ts))
          (syms ∪ match ts with [] => ∅ | _ => {[eps]} end
                ∪ ⋃ (map tree_symbols ts))
          (names ∪ ⋃ (map element_names ts)) E n st0 fr st'.
Proof.
  induction 1 as [|t ts Ht _ IH];
    intros k syms names n st0 x vacants st fr st' Hst0 Hb; simpl.
  - intros [= <- <-]. eapply built_eq; [exact Hb|lia|set_solver..].
  - intros ([[init2 vac2] st2] & Hchild & Hloop)%bind_Ok. simpl in Hloop.
    pose proof (built_child _ _ _ _ _ Ht (built_closed _ _ _ _ _ _ _ _ Hb) Hchild)
      as Hb2.
    pose proof (built_join _ _ _ _ _ _ _ _ _ _ _ _ _ _ _ Hst0 Hb Hb2) as Hb3.
    eapply built_eq; [exact (IH _ _ _ _ _ _ _ _ _ _ Hst0 Hb3 Hloop)|lia|..].
    + destruct ts; set_solver.
    + set_solver.
Qed.

Lemma built_all_loop group ps :
  Forall (λ t, node_built t ∧ ∀ e, e ∈ nodes t → E e) group →
  Forall (λ p, p ≡ₚ group) ps →
  ∀ k syms names n st0 x vacants st fr st',
    closed_state n st0 →
    built k syms names E n st0 (x, vacants) st →
    all_loop (map (map _nfa_from_node) ps) x vacants st = Ok (fr, st') →
    built (k + length ps * sum_list (map state_count group))
          (syms ∪ match ps with
                  | [] => ∅
                  | _ => {[eps]} ∪ ⋃ (map tree_symbols group)
                  end)
          (names ∪ match ps with
                   | [] => ∅
                   | _ => ⋃ (map element_names group)
                   end) E n st0 fr st'.
Proof.
  intros Hgroup. induction 1 as [|p ps Hperm _ IH];
    intros k syms names n st0 x vacants st fr st' Hst0 Hb; simpl.
  - intros [= <- <-]. eapply built_eq; [exact Hb|lia|set_solver..].
  - intros ([[init2 vac2] st2] & Hseq & Hloop)%bind_Ok. simpl in Hloop.
    assert (Forall (λ t, node_built t ∧ ∀ e, e ∈ nodes t → E e) p) as Hp.
    { apply Forall_forall. intros t Ht. rewrite Forall_forall in Hgroup.
      apply Hgroup. by rewrite <- Hperm. }
    destruct (built_sequence _ _ _ _ _ Hp (built_closed _ _ _ _ _ _ _ _ Hb) Hseq)
      as [_ Hb2].
    rewrite (sum_list_perm (map state_count p) (map state_count group)) in Hb2
      by (by apply Permutation_map).
    rewrite (union_list_perm (map tree_symbols p) (map tree_symbols group))
      in Hb2 by (by apply Permutation_map).
    rewrite (union_list_perm (map element_names p) (map element_names group))
      in Hb2 by (by apply Permutation_map).
    pose proof (built_join _ _ _ _ _ _ _ _ _ _ _ _ _ _ _ Hst0 Hb Hb2) as Hb3.
    eapply built_eq; [exact (IH _ _ _ _ _ _ _ _ _ _ Hst0 Hb3 Hloop)|lia|..].
    + destruct ps; set_solver.
    + destruct ps; set_solver.
Qed.
End loops.

Lemma nodes_child model o group t e :
  t ∈ group → e ∈ nodes t → e ∈ nodes (XsdGroup model o group).
Proof.
  intros Ht He. simpl. apply elem_of_cons. right.
  apply elem_of_concat_map. eauto.
Qed.

Lemma state_count_group model o group :
  state_count (XsdGroup model o group) =
  (if decide (model = "sequence") then sum_list (map state_count group)
   else if decide (model = "choice") then 1 + sum_list (map state_count group)
   else 1 + fact (length group) * sum_list (map state_count group))
  + occurs_states o.
Proof. done. Qed.

Lemma tree_symbols_group model o group :
  tree_symbols (XsdGroup model o group) =
  (if decide (model = "sequence") then ⋃ (map tree_symbols group)
   else if decide (model = "choice") then
     match group with
     | [] => ⋃ (map tree_symbols group)
     | _ => {[eps]} ∪ ⋃ (map tree_symbols group)
     end
   else {[eps]} ∪ ⋃ (map tree_symbols group))
  ∪ occurs_symbols o.
Proof. done. Qed.

Lemma base_fragment_built model o group n st fr st' :
  Forall node_built group →
  closed_state n st →
  group_fragment model (map _nfa_from_node group) st = Ok (fr, st') →
  built (state_count (XsdGroup model (1, Some 1) group))
        (tree_symbols (XsdGroup model (1, Some 1) group))
        (⋃ (map element_names group))
        (λ e, e ∈ nodes (XsdGroup model o group)) n st fr st'.
Proof.
  intros IH Hst. rewrite state_count_group, tree_symbols_group.
  set (E := λ e, e ∈ nodes (XsdGroup model o group)).
  assert (Forall (λ t, node_built t ∧ ∀ e, e ∈ nodes t → E e) group) as Hgroup.
  { rewrite Forall_forall in IH. apply Forall_forall. intros t Ht.
    split; [by apply IH|]. intros e He. by eapply nodes_child. }
  unfold group_fragment. simpl.
  destruct (decide (model = "sequence")) as [->|Hseq].
  { intros Hrun.
    destruct (built_sequence E _ _ _ _ _ Hgroup Hst Hrun) as [_ Hb].
    eapply built_eq; [exact Hb|lia|set_solver..]. }
  destruct (decide (model = "choice")) as [->|Hchoice].
  { unfold _nfa_from_choice.
    pose proof (built_branch_state E _ _ Hst) as Hx.
    destruct (_new_state st) as [x st1]. simpl in Hx. intros Hloop.
    pose proof (built_choice_loop E _ Hgroup _ _ _ _ _ _ _ _ _ _ Hst Hx Hloop)
      as Hb.
    eapply built_eq; [exact Hb|lia|..].
    - destruct group; set_solver.
    - set_solver. }
  destruct (decide (model = "all")) as [->|Hall]; [|done].
  unfold _nfa_from_all. rewrite permutations_map.
  pose proof (built_branch_state E _ _ Hst) as Hx.
  destruct (_new_state st) as [x st1]. simpl in Hx. intros Hloop.
  assert (Forall (λ p, p ≡ₚ group) (permutations group)) as Hperms.
  { apply Forall_forall. intros p. apply permutations_perm. }
  pose proof (built_all_loop E group _ Hgroup Hperms _ _ _ _ _ _ _ _ _ _
                Hst Hx Hloop) as Hb.
  rewrite length_permutations in Hb.
  eapply built_eq; [exact Hb|lia|..].
  - pose proof (length_permutations group) as Hlen.
    pose proof (lt_O_fact (length group)).
    destruct (permutations group); [simpl in Hlen; lia|set_solver].
  - pose proof (length_permutations group) as Hlen.
    pose proof (lt_O_fact (length group)).
    destruct (permutations group); [simpl in Hlen; lia|set_solver].
Qed.

(** From every closed state, [_nfa_from_node t] allocates
    [state_count t] states, the first of them the start of the fragment, and
    touches no row of an older state. *)
Lemma node_built_all t : node_built t.
Proof.
  induction t as [name o|model o group IH] using Node_ind;
    intros n st fr st' Hst Hnode; rewrite nfa_from_node_unfold in Hnode;
    apply bind_Ok in Hnode as ([[init vacant] st1] & Hbase & Hocc).
  - simpl in Hbase.
    assert (XsdElement name o ∈ nodes (XsdElement name o)) as HE by (by left).
    pose proof (built_element (λ e, e ∈ nodes (XsdElement name o))
                  _ _ _ _ _ _ Hst HE Hbase) as Hb.
    apply (built_occurs _ _ _ _ _ _ _ _ _ _ _ _ Hst Hb Hocc).
  - simpl in Hbase.
    pose proof (base_fragment_built _ o _ _ _ _ _ IH Hst Hbase) as Hb.
    pose proof (built_occurs _ _ _ _ _ _ _ _ _ _ _ _ Hst Hb Hocc) as Hb'.
    eapply built_eq; [exact Hb'| | |done].
    + rewrite !state_count_group. simpl. lia.
    + rewrite !tree_symbols_group. simpl. set_solver.
Qed.

(** ** The NFA handed to automata-lib *)

Lemma used_symbols_empty : used_symbols ∅ = ∅.
Proof.
  apply set_eq. intros a. rewrite used_symbols_spec. split.
  - intros (s & row & Hrow & _). by rewrite lookup_empty in Hrow.
  - by intros ?%not_elem_of_empty.
Qed.

Lemma elem_of_union_map {A} (f : A → gset string) (l : list A) a :
  a ∈ ⋃ (map f l) ↔ ∃ x, x ∈ l ∧ a ∈ f x.
Proof.
  rewrite elem_of_union_list. split.
  - intros (X & HX & Ha). apply list_elem_of_In, in_map_iff in HX
      as (x & <- & Hx%list_elem_of_In). eauto.
  - intros (x & Hx & Ha). exists (f x). split; [|done].
    apply list_elem_of_In, in_map_iff. exists x. by rewrite <- list_elem_of_In.
Qed.

(** Apart from the empty string, the symbols on the transitions are the
    names of the elements. *)
Lemma tree_symbols_names t a :
  a ≠ eps → a ∈ tree_symbols t ↔ a ∈ element_names t.
Proof.
  intros Ha. induction t as [name o|model o group IH] using Node_ind.
  - simpl. destruct o as [[|[|?]] [[|[|?]]|]]; simpl; set_solver.
  - rewrite tree_symbols_group. simpl.
    assert (a ∈ ⋃ map tree_symbols group ↔ a ∈ ⋃ map element_names group)
      as Hbelow.
    { rewrite !elem_of_union_map. rewrite Forall_forall in IH.
      split; intros (c & Hc & Hin); exists c; (split; [done|]);
        by apply (IH c Hc). }
    assert (a ∉ occurs_symbols o) as Hocc.
    { destruct o as [[|[|?]] [[|[|?]]|]]; simpl; set_solver. }
    repeat case_decide; destruct group; set_solver.
Qed.

Lemma first_error_children model o group c :
  first_error (XsdGroup model o group) = None → c ∈ group →
  first_error c = None.
Proof.
  intros Herr Hc. simpl in Herr.
  assert (first_some (map first_error group) = None) as Hnone.
  { destruct (first_some (map first_error group)); [|done].
    repeat case_decide; try done; by destruct group. }
  eapply first_some_elem; [done|].
  apply list_elem_of_In, in_map_iff. exists c. by rewrite <- list_elem_of_In.
Qed.

(** A tree the builder accepts has at least one state. *)
Lemma state_count_positive t : first_error t = None → 0 < state_count t.
Proof.
  induction t as [name o|model o group IH] using Node_ind; intros Herr.
  - simpl. lia.
  - rewrite state_count_group. repeat case_decide; try lia. subst model.
    destruct group as [|c group]; [done|].
    apply Forall_cons in IH as [IH _]. simpl.
    assert (0 < state_count c); [|lia].
    apply IH. eapply first_error_children; [done|by left].
Qed.

Lemma finalize_is_Ok t :
  first_error t = None → ∃ init final st, finalize t = Ok (init, final, st).
Proof.
  intros Herr. unfold finalize.
  destruct (nfa_from_node_is_Ok t initial_builder_state Herr)
    as ([init finals] & st1 & Hnode).
  rewrite Hnode. simpl.
  apply nfa_from_node_Ok in Hnode as [_ Hinv].
  destruct (patch_set_is_Ok finals (state_name (size (_nfa_states st1)))
              (clear_row (state_name (size (_nfa_states st1)))
                 (_new_state st1).2)) as [st Hst].
  - simpl. rewrite dom_insert_L. pose proof (inv_vacant _ _ _ Hinv) as Hv.
    simpl in Hv. set_solver.
  - simpl in Hst. rewrite Hst. simpl. eauto.
Qed.

(** The shared collections when the NFA is read from them. *)
Lemma finalize_shape t init final st :
  finalize t = Ok (init, final, st) →
  closed_state (S (state_count t)) st ∧
  init = state_name 0 ∧
  final = state_name (state_count t) ∧
  used_symbols (_nfa_state_transitions st) = tree_symbols t ∧
  (∀ name, name ∈ element_names t →
     ∃ o, _elements st !! name = Some (XsdElement name o) ∧
          XsdElement name o ∈ nodes t) ∧
  (∀ name, name ∉ element_names t → _elements st !! name = None) ∧
  (∀ s, ¬ pending (_nfa_state_transitions st) s) ∧
  _nfa_state_transitions st !! final = Some ∅.
Proof.
  intros (finals & st1 & Hnode & -> & Hpatch)%finalize_Ok.
  pose proof (node_built_all t 0 _ _ _ closed_initial Hnode) as Hb.
  pose proof (built_closed _ _ _ _ _ _ _ _ Hb) as Hcl1. simpl in Hcl1.
  pose proof (new_state_name _ _ Hcl1) as Hfinal.
  pose proof (closed_state_fresh _ _ _ Hcl1 (le_n _)) as Hfresh.
  destruct Hb as [Hg Hk Hinit Hvac Hpend]. simpl in Hg, Hinit, Hvac, Hpend.
  set (E := λ e : Node, e ∈ nodes t) in *.
  pose proof (grows_new_state ∅ E _ _ Hcl1) as Hnew.
  assert (_nfa_states (_new_state st1).2
          = {[state_name (state_count t)]} ∪ _nfa_states st1) as Hstates
    by (by rewrite <- Hfinal).
  assert (_nfa_state_transitions (_new_state st1).2
          = _nfa_state_transitions st1) as Htbl by done.
  rewrite Hfinal in *. clear Hfinal.
  set (final := state_name (state_count t)) in *.
  destruct (_new_state st1) as [x st2]. simpl in Hnew, Hstates, Htbl, Hpatch.
  clear x.
  assert (final ∉ dom (_nfa_state_transitions st2)) as Hrowless.
  { rewrite Htbl. intros Hin. apply Hfresh. by apply Hcl1. }
  pose proof (g_closed _ _ _ _ _ _ _ _ Hnew) as Hcl2.
  assert (grows ∅ 0 ∅ ∅ E (state_count t + 1) st2 (clear_row final st2))
    as Hclear.
  { apply grows_clear_row; try done. rewrite Hstates. set_solver. }
  pose proof (grows_trans _ _ _ _ _ _ _ _ _ _ _ _ Hnew Hclear) as Hg2.
  assert (grows ∅ 0 ∅ ∅ E (state_count t + (1 + 0)) (clear_row final st2) st)
    as Hlast.
  { eapply grows_patch_set; [|done| |set_solver].
    - by apply (g_closed _ _ _ _ _ _ _ _ Hg2).
    - simpl. rewrite Hstates. set_solver. }
  pose proof (grows_trans _ _ _ _ _ _ _ _ _ _ _ _ Hg2 Hlast) as Hg3.
  pose proof (grows_trans _ _ _ _ _ _ _ _ _ _ _ _ Hg Hg3) as Hall.
  destruct Hall as [Hcl _ _ Hsyms Hnames Hothers]. simpl in *.
  split_and!.
  - by replace (S (state_count t)) with (state_count t + (1 + 0 + 0)) by lia.
  - done.
  - done.
  - rewrite Hsyms, used_symbols_empty. set_solver.
  - intros name Hname. apply Hnames. set_solver.
  - intros name Hname. rewrite Hothers by set_solver. apply lookup_empty.
  - intros s. rewrite (pending_patch_set _ _ _ _ s Hpatch). intros [Hs Hp].
    simpl in Hp. destruct (decide (s = final)) as [->|Hne].
    + destruct Hp as (a & row & ts & Hrow & Hts & _).
      rewrite lookup_insert_eq in Hrow. injection Hrow as <-.
      by rewrite lookup_empty in Hts.
    + apply Hs. apply Hpend; [set_solver|].
      destruct Hp as (a & row & ts & Hrow & Hts & Hn).
      rewrite lookup_insert_ne in Hrow by done. rewrite Htbl in Hrow.
      by exists a, row, ts.
  - rewrite (patch_set_lookup _ _ _ _ final Hpatch).
    rewrite decide_False.
    + simpl. by rewrite lookup_insert_eq.
    + intros Hin. apply Hfresh. by apply Hvac.
Qed.

Lemma build_nfa_Ok t nfa els :
  build_nfa t = Ok (nfa, els) →
  ∃ init final st,
    finalize t = Ok (init, final, st) ∧
    eps ∈ used_symbols (_nfa_state_transitions st) ∧
    nfa = MkNFA (_nfa_states st)
                (used_symbols (_nfa_state_transitions st) ∖ {[eps]})
                (_nfa_state_transitions st) init {[final]} ∧
    els = _elements st.
Proof.
  unfold build_nfa. intros ([[init final] st] & Hfin & Hrest)%bind_Ok.
  simpl in Hrest. apply bind_Ok in Hrest as (syms & Hsyms & [= <- <-]).
  unfold set_remove in Hsyms. case_decide; [|done]. injection Hsyms as <-.
  eauto 10.
Qed.

Lemma length_le_sum {A} (f : A → nat) (l : list A) :
  Forall (λ x, 0 < f x) l → length l ≤ sum_list (map f l).
Proof. induction 1; simpl; lia. Qed.

Lemma raise_is_not_ok {A} (m : result A) e :
  m = Raise e → is_ok m = true → False.
Proof. by intros ->. Qed.

(** A state reached during a build: [q0] allocated, with one pending
    transition on ["A"]. *)
Lemma closed_example :
  closed_state 1
    (_add_transition "q0" "A" None (_new_state initial_builder_state).2).
Proof.
  pose proof (grows_new_state ∅ (λ _, True) 0 _ closed_initial) as Hnew.
  pose proof (g_closed _ _ _ _ _ _ _ _ Hnew) as Hcl.
  refine (g_closed _ _ _ _ _ _ _ _
            (grows_add_transition ∅ (λ _, True) 1 _ "q0" "A" None Hcl _ _ _)).
  - vm_compute. set_solver.
  - set_solver.
  - done.
Qed.

(** X8. A fragment is built from fresh states only: called when [n] states
    exist, [_nfa_from_node(t)] allocates the [state_count t] names
    ["q<n>"], ["q<n+1>"], ... one after the other, and the start state of the
    fragment it returns is the first of them. *)
Theorem fragment_states_are_consecutive t n st fr st' :
  closed_state n st →
  _nfa_from_node t st = Ok (fr, st') →
  fr.1 = state_name n ∧
  size (_nfa_states st') = n + state_count t ∧
  ∀ s, s ∈ _nfa_states st' ↔ ∃ i, i < n + state_count t ∧ s = state_name i.
Proof.
  intros Hst Hnode. pose proof (node_built_all t n _ _ _ Hst Hnode) as Hb.
  pose proof (built_closed _ _ _ _ _ _ _ _ Hb) as [Halloc _].
  apply allocated_dense in Halloc as [Hsize Hmem].
  split_and!; [|done..]. by destruct Hb.
Qed.

Lemma fragment_states_are_consecutive_witness :
  ∃ fr st',
    _nfa_from_node
      (XsdGroup "choice" (1, None)
         [XsdElement "B" (1, Some 1); XsdElement "C" (0, None)])
      (_add_transition "q0" "A" None (_new_state initial_builder_state).2)
    = Ok (fr, st') ∧
    fr.1 = state_name 1 ∧
    size (_nfa_states st')
    = 1 + state_count
            (XsdGroup "choice" (1, None)
               [XsdElement "B" (1, Some 1); XsdElement "C" (0, None)]) ∧
    ∀ s, s ∈ _nfa_states st' ↔
         ∃ i, i < 1 + state_count
                        (XsdGroup "choice" (1, None)
                           [XsdElement "B" (1, Some 1); XsdElement "C" (0, None)])
              ∧ s = state_name i.
Proof.
  destruct (_nfa_from_node
              (XsdGroup "choice" (1, None)
         [XsdElement "B" (1, Some 1); XsdElement "C" (0, None)])
              (_add_transition "q0" "A" None (_new_state initial_builder_state).2))
    as [[fr st']|e] eqn:Hrun.
  - exists fr, st'. split; [done|].
    exact (fragment_states_are_consecutive _ 1 _ fr st' closed_example Hrun).
  - exfalso. apply (raise_is_not_ok _ e Hrun). vm_compute. reflexivity.
Defined.

(** X9. Building a fragment leaves the rows of the states that existed
    before the call exactly as they were: [_add_transition] and [_patch] are
    only ever applied to states allocated during the call. *)
Theorem fragment_keeps_older_rows t n st fr st' :
  closed_state n st →
  _nfa_from_node t st = Ok (fr, st') →
  ∀ s, s ∈ _nfa_states st →
       _nfa_state_transitions st' !! s = _nfa_state_transitions st !! s.
Proof.
  intros Hst Hnode. pose proof (node_built_all t n _ _ _ Hst Hnode) as Hb.
  destruct Hb as [Hg _ _ _ _]. apply (g_frame _ _ _ _ _ _ _ _ Hg).
Qed.

Lemma fragment_keeps_older_rows_witness :
  ∃ fr st',
    _nfa_from_node
      (XsdGroup "sequence" (0, None)
         [XsdElement "B" (1, Some 1); XsdElement "C" (1, None)])
      (_add_transition "q0" "A" None (_new_state initial_builder_state).2)
    = Ok (fr, st') ∧
    ∀ s,
      s ∈ _nfa_states
            (_add_transition "q0" "A" None (_new_state initial_builder_state).2) →
      _nfa_state_transitions st' !! s
      = _nfa_state_transitions
          (_add_transition "q0" "A" None (_new_state initial_builder_state).2)
        !! s.
Proof.
  destruct (_nfa_from_node
              (XsdGroup "sequence" (0, None)
         [XsdElement "B" (1, Some 1); XsdElement "C" (1, None)])
              (_add_transition "q0" "A" None (_new_state initial_builder_state).2))
    as [[fr st']|e] eqn:Hrun.
  - exists fr, st'. split; [done|].
    exact (fragment_keeps_older_rows _ 1 _ fr st' closed_example Hrun).
  - exfalso. apply (raise_is_not_ok _ e Hrun). vm_compute. reflexivity.
Defined.

(** X10. The vacant set a fragment is returned with is exactly the set of
    the states allocated for it that still hold a pending transition: what
    the caller has to patch, no more and no less. *)
Theorem vacant_states_are_the_pending_ones t n st fr st' :
  closed_state n st →
  _nfa_from_node t st = Ok (fr, st') →
  ∀ s, s ∈ fr.2 ↔
       s ∉ _nfa_states st ∧ pending (_nfa_state_transitions st') s.
Proof.
  intros Hst Hnode. pose proof (node_built_all t n _ _ _ Hst Hnode) as Hb.
  destruct Hb as [_ _ _ Hv Hp]. intros s. split.
  - intros Hs. destruct (Hv s Hs) as [_ Hnew]. split; [done|]. by apply Hp.
  - intros [Hnew Hs]. by apply Hp.
Qed.

Lemma vacant_states_are_the_pending_ones_witness :
  ∃ fr st',
    _nfa_from_node
      (XsdGroup "choice" (0, Some 1)
         [XsdElement "B" (1, Some 1); XsdElement "C" (1, None)])
      (_add_transition "q0" "A" None (_new_state initial_builder_state).2)
    = Ok (fr, st') ∧
    ∀ s, s ∈ fr.2 ↔
         s ∉ _nfa_states
               (_add_transition "q0" "A" None (_new_state initial_builder_state).2) ∧
         pending (_nfa_state_transitions st') s.
Proof.
  destruct (_nfa_from_node
              (XsdGroup "choice" (0, Some 1)
         [XsdElement "B" (1, Some 1); XsdElement "C" (1, None)])
              (_add_transition "q0" "A" None (_new_state initial_builder_state).2))
    as [[fr st']|e] eqn:Hrun.
  - exists fr, st'. split; [done|].
    exact (vacant_states_are_the_pending_ones _ 1 _ fr st' closed_example Hrun).
  - exfalso. apply (raise_is_not_ok _ e Hrun). vm_compute. reflexivity.
Defined.

(** X11. "This grows factorially": an "all" group with [m] children, once
    built, has added at least [m * m! + 1] states to the state set. *)
Theorem all_group_grows_factorially o group n st fr st' :
  closed_state n st →
  _nfa_from_node (XsdGroup "all" o group) st = Ok (fr, st') →
  size (_nfa_states st) + length group * fact (length group) + 1
  ≤ size (_nfa_states st').
Proof.
  intros Hst Hnode.
  pose proof (node_built_all _ n _ _ _ Hst Hnode) as Hb.
  pose proof (built_closed _ _ _ _ _ _ _ _ Hb) as [Halloc _].
  apply allocated_dense in Halloc as [-> _].
  destruct Hst as [[-> _]%allocated_dense _].
  apply nfa_from_node_Ok in Hnode as [Herr _].
  assert (length group ≤ sum_list (map state_count group)) as Hsum.
  { apply length_le_sum, Forall_forall. intros c Hc.
    apply state_count_positive. by eapply first_error_children. }
  rewrite state_count_group. repeat case_decide; try done.
  pose proof (lt_O_fact (length group)). nia.
Qed.

Lemma all_group_grows_factorially_witness :
  ∃ fr st',
    _nfa_from_node
      (XsdGroup "all" (1, Some 1)
         [XsdElement "B" (1, Some 1); XsdElement "C" (1, Some 1);
          XsdElement "D" (0, Some 1)])
      (_add_transition "q0" "A" None (_new_state initial_builder_state).2)
    = Ok (fr, st') ∧
    size (_nfa_states
            (_add_transition "q0" "A" None (_new_state initial_builder_state).2))
    + length [XsdElement "B" (1, Some 1); XsdElement "C" (1, Some 1);
              XsdElement "D" (0, Some 1)]
      * fact (length [XsdElement "B" (1, Some 1); XsdElement "C" (1, Some 1);
                      XsdElement "D" (0, Some 1)]) + 1
    ≤ size (_nfa_states st').
Proof.
  destruct (_nfa_from_node
              (XsdGroup "all" (1, Some 1)
         [XsdElement "B" (1, Some 1); XsdElement "C" (1, Some 1);
          XsdElement "D" (0, Some 1)])
              (_add_transition "q0" "A" None (_new_state initial_builder_state).2))
    as [[fr st']|e] eqn:Hrun.
  - exists fr, st'. split; [done|].
    exact (all_group_grows_factorially _ _ 1 _ fr st' closed_example Hrun).
  - exfalso. apply (raise_is_not_ok _ e Hrun). vm_compute. reflexivity.
Defined.

(** X12. During a build the table only ever mentions allocated states: when
    every row belongs to a state of the set and every concrete target is in
    the set before [_nfa_from_node(t)] is called, the same holds when it
    returns. *)
Theorem fragment_stays_within_the_states t n st fr st' :
  closed_state n st →
  _nfa_from_node t st = Ok (fr, st') →
  dom (_nfa_state_transitions st') ⊆ _nfa_states st' ∧
  (∀ s a q, has_edge (_nfa_state_transitions st') s a (Some q) →
            s ∈ _nfa_states st' ∧ q ∈ _nfa_states st') ∧
  fr.1 ∈ _nfa_states st' ∧ fr.2 ⊆ _nfa_states st'.
Proof.
  intros Hst Hnode. pose proof (node_built_all t n _ _ _ Hst Hnode) as Hb.
  pose proof (built_closed _ _ _ _ _ _ _ _ Hb) as (_ & Hdom & Htargets).
  destruct (built_init _ _ _ _ _ _ _ _ Hst Hb) as [Hinit _].
  split_and!; try done.
  - intros s a q Hedge. split; [|by eapply Htargets].
    by apply Hdom, (has_edge_dom _ _ a (Some q)).
  - intros s Hs. by apply (b_vacant _ _ _ _ _ _ _ _ Hb).
Qed.

Lemma fragment_stays_within_the_states_witness :
  ∃ fr st',
    _nfa_from_node
      (XsdGroup "all" (1, None)
         [XsdElement "B" (0, Some 1); XsdElement "C" (1, Some 1)])
      (_add_transition "q0" "A" None (_new_state initial_builder_state).2)
    = Ok (fr, st') ∧
    dom (_nfa_state_transitions st') ⊆ _nfa_states st' ∧
    (∀ s a q, has_edge (_nfa_state_transitions st') s a (Some q) →
              s ∈ _nfa_states st' ∧ q ∈ _nfa_states st') ∧
    fr.1 ∈ _nfa_states st' ∧ fr.2 ⊆ _nfa_states st'.
Proof.
  destruct (_nfa_from_node
              (XsdGroup "all" (1, None)
         [XsdElement "B" (0, Some 1); XsdElement "C" (1, Some 1)])
              (_add_transition "q0" "A" None (_new_state initial_builder_state).2))
    as [[fr st']|e] eqn:Hrun.
  - exists fr, st'. split; [done|].
    exact (fragment_stays_within_the_states _ 1 _ fr st' closed_example Hrun).
  - exfalso. apply (raise_is_not_ok _ e Hrun). vm_compute. reflexivity.
Defined.

(** ** Shape of the NFA *)

(** X13. Whenever the NFA is built, its initial state is ["q0"], its single
    accepting state is the last state allocated, ["q<k>"] for [k] the number
    of states allocated for the tree, and its states are ["q0"], ...,
    ["q<k>"]. *)
Theorem nfa_states_are_numbered t nfa els :
  build_nfa t = Ok (nfa, els) →
  nfa_initial_state nfa = "q0" ∧
  nfa_final_states nfa = {[state_name (state_count t)]} ∧
  size (nfa_states nfa) = S (state_count t) ∧
  ∀ s, s ∈ nfa_states nfa ↔ ∃ i, i ≤ state_count t ∧ s = state_name i.
Proof.
  intros (init & final & st & Hfin & _ & -> & _)%build_nfa_Ok. simpl.
  apply finalize_shape in Hfin as ([Halloc _] & -> & -> & _).
  apply allocated_dense in Halloc as [Hsize Hmem].
  split_and!; try done. intros s. rewrite Hmem.
  split; intros (i & Hi & ->); exists i; (split; [lia|done]).
Qed.

Lemma nfa_states_are_numbered_witness :
  ∃ nfa els,
    build_nfa (XsdGroup "sequence" (1, Some 1)
                 [XsdElement "A" (1, None); XsdElement "B" (0, Some 1)])
    = Ok (nfa, els) ∧
    nfa_initial_state nfa = "q0" ∧
    nfa_final_states nfa
    = {[state_name
          (state_count
             (XsdGroup "sequence" (1, Some 1)
                [XsdElement "A" (1, None); XsdElement "B" (0, Some 1)]))]} ∧
    size (nfa_states nfa)
    = S (state_count
           (XsdGroup "sequence" (1, Some 1)
              [XsdElement "A" (1, None); XsdElement "B" (0, Some 1)])) ∧
    ∀ s, s ∈ nfa_states nfa ↔
         ∃ i, i ≤ state_count
                    (XsdGroup "sequence" (1, Some 1)
                       [XsdElement "A" (1, None); XsdElement "B" (0, Some 1)])
              ∧ s = state_name i.
Proof.
  destruct (build_nfa (XsdGroup "sequence" (1, Some 1)
                 [XsdElement "A" (1, None); XsdElement "B" (0, Some 1)]))
    as [[nfa els]|e] eqn:Hrun.
  - exists nfa, els. split; [done|]. exact (nfa_states_are_numbered _ nfa els Hrun).
  - exfalso. apply (raise_is_not_ok _ e Hrun). vm_compute. reflexivity.
Defined.

(** X14. The NFA handed to automata-lib is well formed: its initial and
    accepting states are states; every row belongs to a state; every
    transition is labelled by a symbol of the alphabet or by the empty
    string and leads to a state; the accepting state has a row, and the row
    is empty. *)
Theorem nfa_is_well_formed t nfa els :
  build_nfa t = Ok (nfa, els) →
  nfa_initial_state nfa ∈ nfa_states nfa ∧
  nfa_final_states nfa ⊆ nfa_states nfa ∧
  dom (nfa_transitions nfa) ⊆ nfa_states nfa ∧
  (∀ s a n, has_edge (nfa_transitions nfa) s a n →
     (a = eps ∨ a ∈ nfa_input_symbols nfa) ∧
     ∃ q, n = Some q ∧ q ∈ nfa_states nfa) ∧
  (∀ f, f ∈ nfa_final_states nfa → nfa_transitions nfa !! f = Some ∅).
Proof.
  intros (init & final & st & Hfin & _ & -> & _)%build_nfa_Ok. simpl.
  apply finalize_shape in Hfin
    as (Hcl & -> & -> & _ & _ & _ & Hpend & Hrow).
  pose proof Hcl as (_ & Hdom & Htargets).
  pose proof (state_count_positive t) as Hpos.
  split_and!.
  - apply (closed_state_old _ _ 0 Hcl). lia.
  - intros f ->%elem_of_singleton. apply (closed_state_old _ _ _ Hcl). lia.
  - done.
  - intros s a n Hedge. split.
    + destruct (decide (a = eps)) as [|Hne]; [by left|right].
      apply elem_of_difference. split; [|set_solver].
      apply used_symbols_spec. destruct Hedge as (row & ts & Hr & Hts & _).
      exists s, row. split; [done|]. apply elem_of_dom. eauto.
    + destruct n as [q|].
      * exists q. split; [done|]. eauto.
      * destruct (Hpend s). by exists a.
  - by intros f ->%elem_of_singleton.
Qed.

Lemma nfa_is_well_formed_witness :
  ∃ nfa els,
    build_nfa (XsdGroup "all" (0, Some 1)
                 [XsdElement "A" (1, Some 1); XsdElement "B" (0, None)])
    = Ok (nfa, els) ∧
    nfa_initial_state nfa ∈ nfa_states nfa ∧
    nfa_final_states nfa ⊆ nfa_states nfa ∧
    dom (nfa_transitions nfa) ⊆ nfa_states nfa ∧
    (∀ s a n, has_edge (nfa_transitions nfa) s a n →
       (a = eps ∨ a ∈ nfa_input_symbols nfa) ∧
       ∃ q, n = Some q ∧ q ∈ nfa_states nfa) ∧
    (∀ f, f ∈ nfa_final_states nfa → nfa_transitions nfa !! f = Some ∅).
Proof.
  destruct (build_nfa (XsdGroup "all" (0, Some 1)
                 [XsdElement "A" (1, Some 1); XsdElement "B" (0, None)]))
    as [[nfa els]|e] eqn:Hrun.
  - exists nfa, els. split; [done|]. exact (nfa_is_well_formed _ nfa els Hrun).
  - exfalso. apply (raise_is_not_ok _ e Hrun). vm_compute. reflexivity.
Defined.

(** X15. Whenever the NFA is built, its alphabet is the set of the names of
    the elements of the tree, the empty name left out. *)
Theorem nfa_alphabet_is_the_element_names t nfa els :
  build_nfa t = Ok (nfa, els) →
  nfa_input_symbols nfa = element_names t ∖ {[eps]}.
Proof.
  intros (init & final & st & Hfin & _ & -> & _)%build_nfa_Ok. simpl.
  apply finalize_shape in Hfin as (_ & _ & _ & -> & _).
  apply set_eq. intros a. rewrite !elem_of_difference, !elem_of_singleton.
  split; intros [Ha Hne]; (split; [|done]); by apply tree_symbols_names.
Qed.

Lemma nfa_alphabet_is_the_element_names_witness :
  ∃ nfa els,
    build_nfa (XsdGroup "choice" (1, None)
                 [XsdElement "A" (1, Some 1);
                  XsdGroup "sequence" (1, Some 1)
                    [XsdElement "B" (1, Some 1); XsdElement "A" (0, Some 1)]])
    = Ok (nfa, els) ∧
    nfa_input_symbols nfa
    = element_names
        (XsdGroup "choice" (1, None)
           [XsdElement "A" (1, Some 1);
            XsdGroup "sequence" (1, Some 1)
              [XsdElement "B" (1, Some 1); XsdElement "A" (0, Some 1)]])
      ∖ {[eps]}.
Proof.
  destruct (build_nfa (XsdGroup "choice" (1, None)
                 [XsdElement "A" (1, Some 1);
                  XsdGroup "sequence" (1, Some 1)
                    [XsdElement "B" (1, Some 1); XsdElement "A" (0, Some 1)]]))
    as [[nfa els]|e] eqn:Hrun.
  - exists nfa, els. split; [done|]. exact (nfa_alphabet_is_the_element_names _ nfa els Hrun).
  - exfalso. apply (raise_is_not_ok _ e Hrun). vm_compute. reflexivity.
Defined.

(** X16. [out["elements"]] has one entry per element name of the tree, and
    the entry of a name is an element of the tree that carries this name,
    whatever the libraries compute. *)
Theorem elements_are_the_tree_elements `{Countable Q} (trap : Q)
    from_nfa minimize t out :
  dfa_from_group trap from_nfa minimize t = Ok out →
  dom (out_elements out) = element_names t ∧
  ∀ name e, out_elements out !! name = Some e →
            ∃ o, e = XsdElement name o ∧ e ∈ nodes t.
Proof.
  intros (nfa & els & pdfa & Hbuild & _ & Hcan)%dfa_from_group_Ok.
  apply canonical_Ok in Hcan as (_ & _ & _ & _ & ->).
  apply build_nfa_Ok in Hbuild as (init & final & st & Hfin & _ & _ & ->).
  apply finalize_shape in Hfin as (_ & _ & _ & _ & Hnames & Hothers & _).
  split.
  - apply set_eq. intros name. rewrite elem_of_dom. split.
    + intros [e He]. destruct (decide (name ∈ element_names t)); [done|].
      by rewrite Hothers in He.
    + intros (o & -> & _)%Hnames. eauto.
  - intros name e He. destruct (decide (name ∈ element_names t)) as [Hin|Hnin].
    + destruct (Hnames name Hin) as (o & Ho & Hnode). exists o.
      rewrite Ho in He. by injection He as <-.
    + by rewrite Hothers in He.
Qed.

Lemma elements_are_the_tree_elements_witness :
  ∃ out,
    dfa_from_group_model
      (XsdGroup "sequence" (1, Some 1)
         [XsdElement "A" (1, Some 1); XsdElement "A" (0, Some 1)]) = Ok out ∧
    dom (out_elements out)
    = element_names
        (XsdGroup "sequence" (1, Some 1)
           [XsdElement "A" (1, Some 1); XsdElement "A" (0, Some 1)]) ∧
    ∀ name e, out_elements out !! name = Some e →
              ∃ o, e = XsdElement name o ∧
                   e ∈ nodes
                         (XsdGroup "sequence" (1, Some 1)
                            [XsdElement "A" (1, Some 1);
                             XsdElement "A" (0, Some 1)]).
Proof.
  destruct (dfa_from_group_model
              (XsdGroup "sequence" (1, Some 1)
         [XsdElement "A" (1, Some 1); XsdElement "A" (0, Some 1)]))
    as [out|e] eqn:Hrun.
  - exists out. split; [done|].
    exact (elements_are_the_tree_elements (∅ : gset string)
             DFA_from_nfa pDFA_minimize _ out Hrun).
  - exfalso. apply (raise_is_not_ok _ e Hrun). vm_compute. reflexivity.
Defined.

(** ** Which trees get as far as the libraries *)

Lemma first_error_supported t : first_error t = None ↔ supported t = true.
Proof.
  induction t as [name o|model o group IH] using Node_ind.
  - simpl. unfold occurs_error. destruct (occurs_supported o); simpl; done.
  - assert (first_some (map first_error group) = None
            ↔ forallb supported group = true) as Hbelow.
    { clear o. induction IH as [|c group Hc _ IHg]; simpl; [done|].
      rewrite andb_true_iff, <- Hc, <- IHg.
      destruct (first_error c); naive_solver. }
    simpl. unfold occurs_error. rewrite !andb_true_iff, <- Hbelow.
    destruct (first_some (map first_error group)) as [e|];
      destruct (occurs_supported o); repeat case_decide;
      destruct group; simpl; naive_solver.
Qed.

(** X17. Whether [_nfa_from_node] builds a fragment does not depend on the
    shared state it is called in, only on the tree: it succeeds exactly on
    the trees all of whose model groups are sequences, choices or "all"
    groups, with no sequence or "all" group empty, and all of whose
    occurrence pairs are among the four handled. *)
Theorem builder_accepts_supported_trees t st :
  is_ok (_nfa_from_node t st) = supported t.
Proof.
  destruct (_nfa_from_node t st) as [[fr st']|e] eqn:Hnode; simpl.
  - apply nfa_from_node_Ok in Hnode as [Herr _]. symmetry.
    by apply first_error_supported.
  - apply nfa_from_node_Raise in Hnode. symmetry.
    apply not_true_is_false. intros Hsup%first_error_supported. congruence.
Qed.

(** X18. What becomes of every tree, whatever the libraries compute.  A tree
    the builder rejects raises the builder's exception.  A tree the builder
    accepts gets its NFA exactly when some transition is labelled by the empty
    string, that is when [tree_symbols] holds the empty string; otherwise
    [input_symbols.remove("")] raises [KeyError] and no library is called. *)
Theorem build_outcome t :
  match first_error t with
  | Some e =>
      ∀ (Q : Type) `(Countable Q) (trap : Q) from_nfa minimize,
        dfa_from_group trap from_nfa minimize t = Raise e
  | None =>
      if decide (eps ∈ tree_symbols t) then is_ok (build_nfa t) = true
      else
        ∀ (Q : Type) `(Countable Q) (trap : Q) from_nfa minimize,
          dfa_from_group trap from_nfa minimize t = Raise KeyError
  end.
Proof.
  destruct (first_error t) as [e|] eqn:Herr.
  - intros. apply dfa_from_group_build_Raise. unfold build_nfa, finalize.
    by rewrite (proj2 (nfa_from_node_Raise t _ e)).
  - destruct (finalize_is_Ok t Herr) as (init & final & st & Hfin).
    pose proof (finalize_shape _ _ _ _ Hfin) as (_ & _ & _ & Hsyms & _).
    case_decide as Heps.
    + rewrite <- Hsyms in Heps.
      by destruct (build_nfa_alphabet _ _ _ _ Hfin Heps) as (nfa & -> & _).
    + intros. apply dfa_from_group_build_Raise.
      apply (build_nfa_no_epsilon _ _ _ _ Hfin). by rewrite Hsyms.
Qed.

(** ** The record against the minimized automaton *)

Section record.
Context {Q : Type} `{Countable Q}.
Variable trap : Q.
Implicit Types m : gmap Q nat.

Lemma enumerate_from_position (ks : list Q) q v :
  NoDup ks → enumerate_from 0 ks ∅ !! q = Some v → ks !! v = Some q.
Proof.
  intros Hnd Hq.
  destruct (enumerate_from_elem _ _ _ _ _ Hq) as [Hin|Hempty];
    [|by rewrite lookup_empty in Hempty].
  apply list_elem_of_lookup in Hin as [j Hj].
  rewrite (enumerate_from_lookup 0 ks ∅ q j Hnd Hj) in Hq.
  injection Hq as <-. done.
Qed.

Lemma enumerate_from_inj (ks : list Q) q q' v :
  NoDup ks → enumerate_from 0 ks ∅ !! q = Some v →
  enumerate_from 0 ks ∅ !! q' = Some v → q = q'.
Proof.
  intros Hnd Hq%enumerate_from_position Hq'%enumerate_from_position; [|done..].
  congruence.
Qed.

(** The row of a state, entry by entry. *)
Lemma row_of_lookup m delta q ks acc row :
  row_of trap m delta q ks acc = Ok row →
  (∀ k, k ∈ ks → ∃ r, delta q k = Ok r ∧ (r ≠ trap → is_Some (m !! r))) ∧
  ∀ k, row !! k =
       if decide (k ∈ ks) then
         match delta q k with
         | Ok r => if decide (r = trap) then acc !! k else m !! r
         | Raise _ => None
         end
       else acc !! k.
Proof.
  revert acc. induction ks as [|k0 ks IH]; intros acc; simpl.
  - intros [= <-]. split; [by intros k ?%elem_of_nil|]. intros k.
    by destruct (decide (k ∈ [])) as [?%elem_of_nil|].
  - intros (r0 & Hr0 & Hrest)%bind_Ok. case_decide as Htrap.
    + destruct (IH _ Hrest) as [Hdef Hrow]. split.
      * intros k [->|Hk]%elem_of_cons; [|by apply Hdef].
        exists r0. split; [done|]. by intros [].
      * intros k. rewrite Hrow. destruct (decide (k ∈ ks)) as [Hin|Hnin].
        -- by rewrite decide_True by (by right).
        -- destruct (decide (k = k0)) as [->|Hne].
           ++ rewrite decide_True by (by left). rewrite Hr0.
              by rewrite decide_True.
           ++ rewrite decide_False; [done|]. by intros [?|?]%elem_of_cons.
    + rewrite Hr0 in Hrest. simpl in Hrest.
      apply bind_Ok in Hrest as (v & Hv%subscript_Ok & Hrest).
      destruct (IH _ Hrest) as [Hdef Hrow]. split.
      * intros k [->|Hk]%elem_of_cons; [|by apply Hdef].
        exists r0. split; [done|]. intros _. by exists v.
      * intros k. rewrite Hrow. destruct (decide (k ∈ ks)) as [Hin|Hnin].
        -- rewrite decide_True by (by right).
           destruct (delta q k) as [r|] eqn:Hr; [|done]. case_decide; [|done].
           apply lookup_insert_ne. intros <-. congruence.
        -- destruct (decide (k = k0)) as [->|Hne].
           ++ rewrite decide_True by (by left). rewrite Hr0.
              rewrite decide_False by done. by rewrite lookup_insert_eq.
           ++ rewrite decide_False by (by intros [?|?]%elem_of_cons).
              by rewrite lookup_insert_ne.
Qed.

Section table.
Variable m : gmap Q nat.
Variable delta : Q → string → result Q.
Variable alphabet : list string.
Hypothesis m_inj : ∀ q q' v, m !! q = Some v → m !! q' = Some v → q = q'.

Lemma table_of_keeps qs acc tbl q v row :
  table_of trap m delta alphabet qs acc = Ok tbl →
  m !! q = Some v → row_of trap m delta q alphabet ∅ = Ok row →
  acc !! v = Some row → tbl !! v = Some row.
Proof using m_inj.
  intros Htbl Hq Hrow. revert acc Htbl.
  induction qs as [|q0 qs IH]; intros acc; simpl.
  - by intros [= <-].
  - case_decide; [apply IH|].
    intros (v0 & Hv0%subscript_Ok & Hrest)%bind_Ok.
    apply bind_Ok in Hrest as (row0 & Hrow0 & Hrest). intros Hacc.
    apply (IH _ Hrest). destruct (decide (v0 = v)) as [->|Hne].
    + rewrite lookup_insert_eq. f_equal.
      assert (q0 = q) as -> by (by eapply m_inj). congruence.
    + by rewrite lookup_insert_ne.
Qed.

Lemma table_of_lookup qs acc tbl q :
  table_of trap m delta alphabet qs acc = Ok tbl →
  q ∈ qs → q ≠ trap →
  ∃ v row, m !! q = Some v ∧ row_of trap m delta q alphabet ∅ = Ok row ∧
           tbl !! v = Some row.
Proof using m_inj.
  revert acc. induction qs as [|q0 qs IH]; intros acc; simpl.
  - by intros _ ?%elem_of_nil.
  - intros Htbl Hq Hne. destruct (decide (q ∈ qs)) as [Hin|Hnin].
    + case_decide; [by eapply IH|].
      apply bind_Ok in Htbl as (v0 & _ & Hrest).
      apply bind_Ok in Hrest as (row0 & _ & Hrest). by eapply IH.
    + apply elem_of_cons in Hq as [->|?]; [|done].
      rewrite decide_False in Htbl by done.
      apply bind_Ok in Htbl as (v0 & Hv0%subscript_Ok & Hrest).
      apply bind_Ok in Hrest as (row0 & Hrow0 & Hrest).
      exists v0, row0. split_and!; try done.
      eapply table_of_keeps; [done..|]. by rewrite lookup_insert_eq.
Qed.
End table.

Section simulation.
Variable pdfa : pDFA Q.
Variable els : gmap string Node.
Variable out : automaton.
Hypothesis built : canonical trap pdfa els = Ok out.
Hypothesis states_distinct : NoDup (pdfa_states pdfa).

Lemma state_ids_inj q q' v :
  enumerate_from 0 (pdfa_states pdfa) ∅ !! q = Some v →
  enumerate_from 0 (pdfa_states pdfa) ∅ !! q' = Some v → q = q'.
Proof using states_distinct. by apply enumerate_from_inj. Qed.

(** A step of the record from the id of a state that is not the trap. *)
Lemma out_step_state q i a :
  q ∈ pdfa_states pdfa → q ≠ trap →
  enumerate_from 0 (pdfa_states pdfa) ∅ !! q = Some i →
  (a ∈ pdfa_alphabet pdfa →
   ∃ r, pdfa_delta pdfa q a = Ok r ∧
        if decide (r = trap) then out_step out i a = None
        else ∃ j, enumerate_from 0 (pdfa_states pdfa) ∅ !! r = Some j ∧
                  r ∈ pdfa_states pdfa ∧ out_step out i a = Some j) ∧
  (a ∉ pdfa_alphabet pdfa → out_step out i a = None).
Proof using built states_distinct.
  intros Hq Hne Hi.
  pose proof (canonical_Ok _ _ _ _ built) as (_ & _ & _ & Htbl & _).
  simpl in Htbl.
  destruct (table_of_lookup _ _ _ state_ids_inj _ _ _ q Htbl Hq Hne)
    as (v & row & Hv & Hrow & Hlook).
  rewrite Hi in Hv. injection Hv as <-.
  apply row_of_lookup in Hrow as [Hdef Hrow].
  unfold out_step. rewrite Hlook. simpl. split.
  - intros Ha. destruct (Hdef a Ha) as (r & Hr & Hsome). exists r.
    split; [done|]. pose proof (Hrow a) as Hra.
    rewrite (decide_True (P := a ∈ pdfa_alphabet pdfa)), Hr in Hra by done.
    destruct (decide (r = trap)) as [Hr'|Hr'].
    { rewrite Hra. apply lookup_empty. }
    destruct (Hsome Hr') as [j Hj]. exists j. split_and!; try done.
    + apply enumerate_from_elem in Hj as [?|Hempty]; [done|].
      by rewrite lookup_empty in Hempty.
    + by rewrite Hra.
  - intros Ha. rewrite Hrow, decide_False by done. apply lookup_empty.
Qed.

(** From an id that is not the id of a surviving state there is no step. *)
Lemma out_step_trap i a :
  enumerate_from 0 (pdfa_states pdfa) ∅ !! trap = Some i →
  out_step out i a = None.
Proof using built states_distinct.
  intros Hi.
  pose proof (canonical_Ok _ _ _ _ built) as (_ & _ & _ & Htbl & _).
  simpl in Htbl. unfold out_step.
  destruct (out_transitions out !! i) as [row|] eqn:Hrow; [|done].
  destruct (table_of_Ok _ _ _ _ _ _ _ Htbl i row Hrow)
    as [Hempty|(q & _ & Hne & Hq & _)]; [by rewrite lookup_empty in Hempty|].
  destruct Hne. by eapply state_ids_inj.
Qed.

Lemma out_accepts_state q i :
  enumerate_from 0 (pdfa_states pdfa) ∅ !! q = Some i →
  i ∈ out_accepts out ↔ q ∈ pdfa_accepts pdfa ∧ q ≠ trap.
Proof using built states_distinct.
  intros Hi.
  pose proof (canonical_Ok _ _ _ _ built) as (_ & _ & Hacc & _).
  simpl in Hacc. rewrite (ids_of_Ok _ _ _ _ _ Hacc). split.
  - intros [[]%not_elem_of_empty|(x & Hx & Hne & Hxi)].
    assert (x = q) as -> by (by eapply state_ids_inj). done.
  - intros [Hq Hne]. right. eauto.
Qed.

Hypothesis trap_rejects : trap ∉ pdfa_accepts pdfa.
Hypothesis trap_absorbs :
  ∀ a r, a ∈ pdfa_alphabet pdfa → pdfa_delta pdfa trap a = Ok r → r = trap.

Lemma trap_is_dead w q :
  Forall (λ a, a ∈ pdfa_alphabet pdfa) w →
  pdfa_run pdfa trap w = Ok q → q = trap.
Proof using trap_absorbs.
  induction 1 as [|a w Ha _ IH]; simpl; [by intros [= <-]|].
  intros (r & Hr & Hrun)%bind_Ok.
  rewrite (trap_absorbs a r Ha Hr) in Hrun. by apply IH.
Qed.

Lemma out_run_simulates w :
  Forall (λ a, a ∈ pdfa_alphabet pdfa) w →
  ∀ q i,
    q ∈ pdfa_states pdfa → q ≠ trap →
    enumerate_from 0 (pdfa_states pdfa) ∅ !! q = Some i →
    (∃ j, out_run out i w = Some j ∧ j ∈ out_accepts out) ↔
    (∃ q', pdfa_run pdfa q w = Ok q' ∧ q' ∈ pdfa_accepts pdfa).
Proof using built states_distinct trap_rejects trap_absorbs.
  induction 1 as [|a w Ha Hw IH]; intros q i Hq Hne Hi; simpl.
  - split.
    + intros (j & [= <-] & Hj). apply (out_accepts_state q i Hi) in Hj as [? _].
      eauto.
    + intros (q' & [= <-] & Hq'). exists i. split; [done|].
      by apply (out_accepts_state q i Hi).
  - destruct (out_step_state q i a Hq Hne Hi) as [Hstep _].
    destruct (Hstep Ha) as (r & Hr & Hout). rewrite Hr. simpl.
    case_decide as Hrtrap.
    + rewrite Hout. simpl. split; [by intros (? & [=] & _)|].
      intros (q' & Hrun & Hacc). subst r.
      apply (trap_is_dead w q' Hw) in Hrun. by subst q'.
    + destruct Hout as (j & Hj & Hrin & ->). simpl. by apply IH.
Qed.

(** A run of the record reads symbols of the alphabet only. *)
Lemma out_run_alphabet w q i j :
  q ∈ pdfa_states pdfa →
  enumerate_from 0 (pdfa_states pdfa) ∅ !! q = Some i →
  out_run out i w = Some j → Forall (λ a, a ∈ pdfa_alphabet pdfa) w.
Proof using built states_distinct.
  revert q i. induction w as [|a w IH]; intros q i Hq Hi; simpl; [done|].
  destruct (decide (q = trap)) as [->|Hne].
  { by rewrite (out_step_trap i a Hi). }
  destruct (out_step_state q i a Hq Hne Hi) as [Hin Hout].
  destruct (decide (a ∈ pdfa_alphabet pdfa)) as [Ha|Ha];
    [|by rewrite (Hout Ha)].
  destruct (Hin Ha) as (r & _ & Hstep). case_decide.
  { by rewrite Hstep. }
  destruct Hstep as (j' & Hj' & Hr & ->). simpl. intros Hrun.
  constructor; [done|]. by eapply IH.
Qed.

Lemma record_language w :
  Forall (λ a, a ∈ pdfa_alphabet pdfa) w →
  out_accepts_word out w ↔ pdfa_accepts_word pdfa w.
Proof using built states_distinct trap_rejects trap_absorbs.
  intros Hw. unfold out_accepts_word, pdfa_accepts_word.
  pose proof (canonical_Ok _ _ _ _ built) as (_ & Hstart%subscript_Ok & _).
  simpl in Hstart.
  assert (pdfa_start pdfa ∈ pdfa_states pdfa) as Hin.
  { apply enumerate_from_elem in Hstart as [?|Hempty]; [done|].
    by rewrite lookup_empty in Hempty. }
  destruct (decide (pdfa_start pdfa = trap)) as [Htrap|Hne].
  - rewrite Htrap in *. split.
    + intros (j & Hrun & Hj). destruct w as [|a w]; simpl in Hrun.
      * injection Hrun as <-.
        by apply (out_accepts_state trap _ Hstart) in Hj as [_ []].
      * by rewrite (out_step_trap _ a Hstart) in Hrun.
    + intros (q & Hrun & Hq). apply (trap_is_dead w q Hw) in Hrun.
      by subst q.
  - by apply out_run_simulates.
Qed.

Lemma record_alphabet w :
  out_accepts_word out w → Forall (λ a, a ∈ pdfa_alphabet pdfa) w.
Proof using built states_distinct.
  intros (j & Hrun & _).
  pose proof (canonical_Ok _ _ _ _ built) as (_ & Hstart%subscript_Ok & _).
  simpl in Hstart. eapply out_run_alphabet; [|done..].
  apply enumerate_from_elem in Hstart as [?|Hempty]; [done|].
  by rewrite lookup_empty in Hempty.
Qed.
End simulation.
End record.

(** X19. The record accepts what the minimized automaton accepts.  When the
    states of the minimized automaton are pairwise distinct and the state
    labelled as the trap is a trap (it is not accepting and no transition
    leaves it), a word over the alphabet leads from [out["start"]] to a
    member of [out["accepts"]] through the entries of [out["transitions"]]
    exactly when the automaton accepts it: leaving out the trap and the
    transitions into it loses nothing. *)
Theorem record_accepts_what_the_dfa_accepts `{Countable Q} (trap : Q)
    (pdfa : pDFA Q) els out w :
  canonical trap pdfa els = Ok out →
  NoDup (pdfa_states pdfa) →
  trap ∉ pdfa_accepts pdfa →
  (∀ a r, a ∈ pdfa_alphabet pdfa → pdfa_delta pdfa trap a = Ok r → r = trap) →
  Forall (λ a, a ∈ pdfa_alphabet pdfa) w →
  out_accepts_word out w ↔ pdfa_accepts_word pdfa w.
Proof.
  intros Hcan Hnd Hrej Habs Hw.
  by apply (record_language trap pdfa els out Hcan Hnd Hrej Habs).
Qed.

Lemma record_accepts_what_the_dfa_accepts_witness :
  ∃ out,
    canonical "{}" ab_pdfa ∅ = Ok out ∧
    (out_accepts_word out ["A"; "B"] ↔ pdfa_accepts_word ab_pdfa ["A"; "B"]).
Proof.
  eexists. split; [vm_compute; reflexivity|].
  refine (record_accepts_what_the_dfa_accepts "{}" ab_pdfa ∅ _ ["A"; "B"]
            _ _ _ _ _).
  - vm_compute. reflexivity.
  - by apply (bool_decide_unpack _).
  - by apply (bool_decide_unpack _).
  - intros a r _. unfold pdfa_delta, ab_pdfa, ab_delta.
    rewrite !decide_False by (by intros [? _]). by intros [= <-].
  - repeat constructor; by apply (bool_decide_unpack _).
Defined.

(** ** When the renumbering raises *)

Section lookups.
Context {Q : Type} `{Countable Q}.
Variable trap : Q.
Variable pdfa : pDFA Q.

Lemma ids_of_defined m xs acc ids :
  ids_of trap m xs acc = Ok ids →
  ∀ x, x ∈ xs → x ≠ trap → is_Some (m !! x).
Proof.
  revert acc. induction xs as [|x0 xs IH]; intros acc; simpl.
  - by intros _ x ?%elem_of_nil.
  - case_decide as Htrap.
    + intros Hrest x [->|Hx]%elem_of_cons Hne; [done|]. by eapply IH.
    + intros (v & Hv%subscript_Ok & Hrest)%bind_Ok x [->|Hx]%elem_of_cons Hne;
        [by exists v|]. by eapply IH.
Qed.

Lemma table_of_rows m delta alphabet qs acc tbl :
  table_of trap m delta alphabet qs acc = Ok tbl →
  ∀ q, q ∈ qs → q ≠ trap →
       ∃ row, row_of trap m delta q alphabet ∅ = Ok row.
Proof.
  revert acc. induction qs as [|q0 qs IH]; intros acc; simpl.
  - by intros _ q ?%elem_of_nil.
  - case_decide as Htrap.
    + intros Hrest q [->|Hq]%elem_of_cons Hne; [done|]. by eapply IH.
    + intros (v & _ & Hrest)%bind_Ok.
      apply bind_Ok in Hrest as (row0 & Hrow0 & Hrest).
      intros q [->|Hq]%elem_of_cons Hne; [by exists row0|]. by eapply IH.
Qed.

Hypothesis start_state : pdfa_start pdfa ∈ pdfa_states pdfa.
Hypothesis accepts_states :
  ∀ q, q ∈ pdfa_accepts pdfa → q ≠ trap → q ∈ pdfa_states pdfa.
Hypothesis delta_defined :
  ∀ q a, q ∈ pdfa_states pdfa → q ≠ trap → a ∈ pdfa_alphabet pdfa →
         ∃ r, pdfa_delta pdfa q a = Ok r ∧ (r ≠ trap → r ∈ pdfa_states pdfa).

Lemma ids_of_returns xs acc :
  (∀ x, x ∈ xs → x ≠ trap → x ∈ pdfa_states pdfa) →
  ∃ ids, ids_of trap (enumerate_from 0 (pdfa_states pdfa) ∅) xs acc = Ok ids.
Proof.
  revert acc. induction xs as [|x xs IH]; intros acc Hxs; simpl; [eauto|].
  assert (∀ y, y ∈ xs → y ≠ trap → y ∈ pdfa_states pdfa)
    by (intros; apply Hxs; [by right|done]).
  case_decide; [by apply IH|].
  destruct (subscript_is_Ok pdfa x) as [v ->]; [apply Hxs; [by left|done]|].
  simpl. by apply IH.
Qed.

Lemma row_of_returns q ks acc :
  q ∈ pdfa_states pdfa → q ≠ trap →
  (∀ k, k ∈ ks → k ∈ pdfa_alphabet pdfa) →
  ∃ row, row_of trap (enumerate_from 0 (pdfa_states pdfa) ∅)
                (pdfa_delta pdfa) q ks acc = Ok row.
Proof using delta_defined.
  intros Hq Hne. revert acc.
  induction ks as [|k ks IH]; intros acc Hks; simpl; [eauto|].
  assert (∀ k', k' ∈ ks → k' ∈ pdfa_alphabet pdfa)
    by (intros; apply Hks; by right).
  destruct (delta_defined q k Hq Hne) as (r & Hr & Hrs); [apply Hks; by left|].
  rewrite Hr. simpl. case_decide as Hrtrap; [by apply IH|].
  destruct (subscript_is_Ok pdfa r (Hrs Hrtrap)) as [v ->]. simpl. by apply IH.
Qed.

Lemma table_of_returns qs acc :
  (∀ q, q ∈ qs → q ∈ pdfa_states pdfa) →
  ∃ tbl, table_of trap (enumerate_from 0 (pdfa_states pdfa) ∅)
                  (pdfa_delta pdfa) (pdfa_alphabet pdfa) qs acc = Ok tbl.
Proof using delta_defined.
  revert acc. induction qs as [|q qs IH]; intros acc Hqs; simpl; [eauto|].
  assert (∀ q', q' ∈ qs → q' ∈ pdfa_states pdfa)
    by (intros; apply Hqs; by right).
  assert (q ∈ pdfa_states pdfa) as Hq by (apply Hqs; by left).
  case_decide as Hne; [by apply IH|].
  destruct (subscript_is_Ok pdfa q Hq) as [v ->]. simpl.
  destruct (row_of_returns q (pdfa_alphabet pdfa) ∅ Hq Hne) as [row ->];
    [done|].
  simpl. by apply IH.
Qed.

Lemma canonical_succeeds els : ∃ out, canonical trap pdfa els = Ok out.
Proof using start_state accepts_states delta_defined.
  unfold canonical.
  destruct (ids_of_returns (pdfa_states pdfa) ∅) as [states ->]; [done|].
  destruct (subscript_is_Ok pdfa (pdfa_start pdfa) start_state) as [start ->].
  destruct (ids_of_returns (pdfa_accepts pdfa) ∅) as [accepts ->]; [done|].
  destruct (table_of_returns (pdfa_states pdfa) ∅) as [tbl ->]; [done|].
  simpl. eauto.
Qed.
End lookups.

(** X20. The renumbering of lines 158-164 returns a record exactly when every
    subscript of [state_map] it evaluates finds its key: the start state is
    among the states, and so is every accepting state other than the trap;
    and from every state other than the trap, on every symbol of the
    alphabet, the transition function returns the trap or a state.  What
    the trap's own transitions are, and whether the trap is among the
    states, does not matter. *)
Theorem canonical_returns_iff `{Countable Q} (trap : Q) (pdfa : pDFA Q) els :
  is_ok (canonical trap pdfa els) = true ↔
  pdfa_start pdfa ∈ pdfa_states pdfa ∧
  (∀ q, q ∈ pdfa_accepts pdfa → q ≠ trap → q ∈ pdfa_states pdfa) ∧
  (∀ q a, q ∈ pdfa_states pdfa → q ≠ trap → a ∈ pdfa_alphabet pdfa →
          ∃ r, pdfa_delta pdfa q a = Ok r ∧ (r ≠ trap → r ∈ pdfa_states pdfa)).
Proof.
  assert (∀ q, is_Some (enumerate_from 0 (pdfa_states pdfa) ∅ !! q) →
               q ∈ pdfa_states pdfa) as Hkey.
  { intros q [v [?|Hempty]%enumerate_from_elem]; [done|].
    by rewrite lookup_empty in Hempty. }
  split.
  - destruct (canonical trap pdfa els) as [out|] eqn:Hcan; [intros _|done].
    apply canonical_Ok in Hcan
      as (_ & Hstart%subscript_Ok & Hacc & Htbl & _).
    simpl in Hstart, Hacc, Htbl. split_and!.
    + apply Hkey. eauto.
    + intros q Hq Hne. apply Hkey. by eapply ids_of_defined.
    + intros q a Hq Hne Ha.
      destruct (table_of_rows _ _ _ _ _ _ _ Htbl q Hq Hne) as [row Hrow].
      apply row_of_lookup in Hrow as [Hdef _].
      destruct (Hdef a Ha) as (r & Hr & Hsome). exists r. split; [done|].
      intros Hrne. by apply Hkey, Hsome.
  - intros (Hstart & Hacc & Hdelta).
    by destruct (canonical_succeeds trap pdfa Hstart Hacc Hdelta els) as [out ->].
Qed.

(** ** The record against the NFA, with the libraries as modelled *)

Lemma minimize_keeps_trap `{Countable Q} (trap : Q) (pdfa pdfa' : pDFA Q) :
  NoDup (pdfa_states pdfa) →
  trap ∉ pdfa_accepts pdfa →
  (∀ a, a ∈ pdfa_alphabet pdfa → trap ∈ pdfa_states pdfa →
        pdfa_delta pdfa trap a = Ok trap) →
  pDFA_minimize pdfa = Ok pdfa' →
  NoDup (pdfa_states pdfa') ∧
  pdfa_alphabet pdfa' = pdfa_alphabet pdfa ∧
  trap ∉ pdfa_accepts pdfa' ∧
  ∀ a r, a ∈ pdfa_alphabet pdfa' → pdfa_delta pdfa' trap a = Ok r → r = trap.
Proof.
  intros Hnd Hrej Habs. unfold pDFA_minimize.
  intros (tab & Htab & Hrest)%bind_Ok.
  pose proof (tabulate_Ok _ _ _ _ Htab) as Htab_delta.
  set (P := refine_loop _ tab _ _) in Hrest.
  destruct (representative (pdfa_states pdfa) P (pdfa_start pdfa))
    as [start'|]; [|done].
  injection Hrest as <-. simpl. split_and!.
  - by apply NoDup_filter.
  - done.
  - by intros [? _]%list_elem_of_filter.
  - intros a r Ha. unfold merged_delta. case_decide as Hrep; [|done].
    destruct (tab !! (trap, a)) as [x|] eqn:Hx; simpl; [|done].
    apply Htab_delta in Hx as (Hin & _ & Hdelta).
    rewrite (Habs a Ha Hin) in Hdelta. injection Hdelta as <-.
    rewrite Hrep. by intros [= <-].
Qed.

Lemma nfa_run_alphabet nfa S w f :
  f ∈ nfa_run nfa S w → Forall (λ a, a ∈ nfa_input_symbols nfa) w.
Proof.
  revert S. induction w as [|a w IH]; intros S; [done|].
  rewrite nfa_run_cons. intros Hf.
  destruct (decide (a ∈ nfa_input_symbols nfa)) as [Ha|Ha].
  - constructor; [done|]. by eapply IH.
  - unfold nfa_read in Hf. rewrite decide_False in Hf by done.
    rewrite nfa_run_empty in Hf. by apply not_elem_of_empty in Hf.
Qed.

(** X21. With [DFA.from_nfa] and [pDFA.minimize] as modelled from sections
    4.2 and 4.3 of the specification: whenever [dfa_from_group] returns a
    record, the record accepts exactly the words the NFA built from the tree
    accepts under epsilon-closure simulation.  Reading the record follows its
    transitions from [out["start"]], rejects at a missing entry, and accepts
    in a member of [out["accepts"]]. *)
Theorem record_accepts_the_language_of_the_nfa t out :
  dfa_from_group_model t = Ok out →
  ∃ nfa els,
    build_nfa t = Ok (nfa, els) ∧
    ∀ w, out_accepts_word out w ↔ nfa_accepts nfa w.
Proof.
  intros (nfa & els & pdfa & Hbuild & Hmin & Hcan)%dfa_from_group_Ok.
  exists nfa, els. split; [done|]. intros w.
  rewrite (minimal_pdfa_language nfa pdfa w Hmin).
  unfold minimal_pdfa in Hmin. apply bind_Ok in Hmin as (dfa & Hdfa & Hmin).
  destruct (from_nfa_spec nfa)
    as (dfa' & Hdfa' & Hnd & Halpha & _ & _ & Hin & _ & Hacc).
  rewrite Hdfa in Hdfa'. injection Hdfa' as <-.
  destruct (minimize_keeps_trap ∅ (to_pdfa dfa) pdfa Hnd)
    as (Hnd' & Halpha' & Hrej & Habs); [| |done|].
  { intros [_ Hne]%Hacc. apply Hne. set_solver. }
  { intros a Ha Hempty. rewrite Halpha in Ha. apply elem_of_elements in Ha.
    destruct (Hin ∅ a Hempty Ha) as [-> _]. by rewrite dfa_successor_empty. }
  destruct (decide (Forall (λ a, a ∈ pdfa_alphabet pdfa) w)) as [Hw|Hw].
  - by apply (record_language ∅ pdfa els out Hcan Hnd' Hrej Habs).
  - split.
    + intros Hout. destruct Hw.
      by apply (record_alphabet ∅ pdfa els out Hcan Hnd').
    + intros Hpdfa.
      apply (minimal_pdfa_language nfa pdfa w) in Hpdfa;
        [|unfold minimal_pdfa; by rewrite Hdfa].
      destruct Hpdfa as (f & _ & Hf%nfa_run_alphabet). destruct Hw.
      rewrite Halpha', Halpha.
      eapply Forall_impl; [done|]. intros a Ha. by apply elem_of_elements.
Qed.

Lemma record_accepts_the_language_of_the_nfa_witness :
  ∃ out,
    dfa_from_group_model
      (XsdGroup "choice" (1, Some 1)
         [XsdElement "A" (1, Some 1); XsdElement "B" (0, None)]) = Ok out ∧
    ∃ nfa els,
      build_nfa (XsdGroup "choice" (1, Some 1)
                   [XsdElement "A" (1, Some 1); XsdElement "B" (0, None)])
      = Ok (nfa, els) ∧
      ∀ w, out_accepts_word out w ↔ nfa_accepts nfa w.
Proof.
  destruct (dfa_from_group_model
              (XsdGroup "choice" (1, Some 1)
         [XsdElement "A" (1, Some 1); XsdElement "B" (0, None)]))
    as [out|e] eqn:Hrun.
  - exists out. split; [done|].
    exact (record_accepts_the_language_of_the_nfa _ out Hrun).
  - exfalso. apply (raise_is_not_ok _ e Hrun). vm_compute. reflexivity.
Defined.

(** ** A start state that is entered again

    The pair [[0, 1]] adds its way around, the transition on the empty
    string to the pending target, at the start state of the fragment, and
    [[0, None]] leaves its loop from there.  When the fragment begins with
    a child of pair [[1, None]], the start state is entered again after each
    round of the child, and the way around is open from there: for the
    optional sequence of "A at least once, then B" the NFA accepts the word A
    alone. *)
Example optional_sequence_accepts_a_prefix :
  is_ok (build_nfa (XsdGroup "sequence" (0, Some 1)
                      [XsdElement "A" (1, None); XsdElement "B" (1, Some 1)]))
  = true ∧
  ∀ nfa els,
    build_nfa (XsdGroup "sequence" (0, Some 1)
                 [XsdElement "A" (1, None); XsdElement "B" (1, Some 1)])
    = Ok (nfa, els) →
    nfa_accepts nfa [] ∧ nfa_accepts nfa ["A"; "B"] ∧ nfa_accepts nfa ["A"].
Proof.
  split; [by vm_compute|]. intros nfa els Hrun.
  assert (∀ w,
            match build_nfa
                    (XsdGroup "sequence" (0, Some 1)
                       [XsdElement "A" (1, None); XsdElement "B" (1, Some 1)])
            with
            | Ok (nfa, _) =>
                bool_decide ("q3" ∈ nfa_final_states nfa ∧
                             "q3" ∈ nfa_run nfa (nfa_start nfa) w)
            | Raise _ => false
            end = true →
            nfa_accepts nfa w) as Haccepts.
  { intros w. rewrite Hrun. intros Hq3%bool_decide_eq_true. by exists "q3". }
  split_and!; apply Haccepts; vm_compute; reflexivity.
Qed.
